(** * Text comparison tool: delimiter resolver, row parser and keyed diff

    A shallow embedding of the core of the text file comparison tool
    (the main script and its earlier variant, [script.js]):

    - [getDelimiter]      the delimiter resolver,
    - [parseFile]         the row parser,
    - [performComparison] the keyed diff engine,
    - [csvQuote], [exportCSV]                   the CSV export,
    - [updateKeyColumnOptions], [compareFiles]  the choice of the key,
    - [handleFile], [reprocessFiles], [clearAll] and the scheduled
      comparison, as transitions of the globals of the script.

    The functions that only write markup into the page ([escapeHtml],
    [showError], [updateFileInfo], [showTab], [displayResults] and the
    functions it calls, [generateTable]) are not embedded: what they produce
    is decided by the document they write to.

    Modelling conventions.

    - A JavaScript string is the list of its UTF-16 code units, each an [N].
    - A row ([const row = {}], filled by [row[header] = ...]) is the finite
      map of the properties it owns, from column name to value, a [gmap].
      A read [row[name]] of a name the row does not own goes on to
      [Object.prototype], and a write [row['__proto__'] = ...] reaches the
      setter of [Object.prototype] and stores nothing: [Object_get] and
      [Object_set].  [Object.prototype] is the one of the language; the
      page adds nothing to it.  No statement below depends on the
      enumeration order of the properties of a row.
    - A [Map] keeps its keys in the order of their first insertion; it is an
      association list updated in place.
    - The DOM read [document.getElementById('delimiter').value] and the
      global [fileData] are explicit arguments; in the session they are
      fields of a record.
    - [Array.from(allColumns)] in [exportCSV] depends on the enumeration
      order of the rows' properties; the export takes the list of columns
      as an argument, and [collectColumns] is the set of its elements.
    - A [throw new Error(msg)] is a value of [ParseError] on the left of a
      sum; a [TypeError] raised by calling a method a value does not have
      is [None]; [console.log] and [console.warn] are dropped. *)

From stdpp Require Import gmap list strings.
From Stdlib Require Import NArith Lia.

Set Warnings "-clear-no-such-hyp".

(** ** Strings *)

Abbreviation jsstring := (list N).

(** A literal: the code units of an ASCII string. *)
Definition u (s : string) : jsstring :=
  map Ascii.N_of_ascii (String.list_ascii_of_string s).
Arguments u s%_string.

Definition TAB : N := 9%N.
Definition LF : N := 10%N.
Definition CR : N := 13%N.
Definition COMMA : N := 44%N.
Definition SEMICOLON : N := 59%N.
Definition PIPE : N := 124%N.

(** The code units [String.prototype.trim] strips: WhiteSpace and
    LineTerminator of ECMAScript. *)
Definition is_ws (c : N) : bool :=
  ((9 <=? c) && (c <=? 13) || (c =? 32) || (c =? 160) || (c =? 5760)
   || (8192 <=? c) && (c <=? 8202) || (c =? 8232) || (c =? 8233)
   || (c =? 8239) || (c =? 8287) || (c =? 12288) || (c =? 65279))%N.

Fixpoint trimStart (s : jsstring) : jsstring :=
  match s with
  | [] => []
  | c :: r => if is_ws c then trimStart r else s
  end.

Definition trimEnd (s : jsstring) : jsstring := rev (trimStart (rev s)).

(** [s.trim()] *)
Definition trim (s : jsstring) : jsstring := trimEnd (trimStart s).

(** [s.split(d)] for a separator [d] of one code unit. *)
Fixpoint split_on (d : N) (s : jsstring) : list jsstring :=
  match s with
  | [] => [[]]
  | c :: r =>
      if (c =? d)%N then [] :: split_on d r
      else match split_on d r with
           | l :: ls => (c :: l) :: ls
           | [] => [[c]]
           end
  end.

(** [s.split(/\r?\n/)]: a line ends at a line feed, and a carriage return
    that stands right before that line feed belongs to the separator. *)
Fixpoint split_lines (s : jsstring) : list jsstring :=
  match s with
  | [] => [[]]
  | c :: r =>
      if (c =? LF)%N then [] :: split_lines r
      else if (c =? CR)%N && bool_decide (head r = Some LF) then split_lines r
      else match split_lines r with
           | l :: ls => (c :: l) :: ls
           | [] => [[c]]
           end
  end.

(** [s.toLowerCase()].  Only the letters A-Z are mapped; the code units
    outside ASCII are left as they are, which no suffix test against
    [".csv"] or [".tsv"] can observe. *)
Definition lower_unit (c : N) : N :=
  if ((65 <=? c) && (c <=? 90))%N then (c + 32)%N else c.

Definition toLowerCase (s : jsstring) : jsstring := map lower_unit s.

(** [s.endsWith(suffix)] *)
Definition endsWith (s suffix : jsstring) : bool :=
  bool_decide (drop (length s - length suffix) s = suffix).

(** [(s.match(/c/g) || []).length] *)
Definition countChar (c : N) (s : jsstring) : nat :=
  length (filter (λ x, x = c) s).

(** [x || ''] for [x] a string or [undefined]. *)
Definition orEmpty (x : option jsstring) : jsstring := default [] x.

(** ** Delimiter resolver *)

(** [delimiterMap[selectedDelimiter]] *)
Definition delimiterMap (selectedDelimiter : jsstring) : option N :=
  if decide (selectedDelimiter = u "tab") then Some TAB
  else if decide (selectedDelimiter = u "comma") then Some COMMA
  else if decide (selectedDelimiter = u "semicolon") then Some SEMICOLON
  else if decide (selectedDelimiter = u "pipe") then Some PIPE
  else None.

Definition priority : list N := [TAB; COMMA; SEMICOLON; PIPE].

(** [content.split(/\r?\n/)[0]] *)
Definition firstLine (content : jsstring) : jsstring :=
  hd [] (split_lines content).

(** [Math.max(...Object.values(counts))] *)
Definition maxCount (line : jsstring) : nat :=
  foldr Nat.max 0 (map (λ d, countChar d line) priority).

Definition getDelimiter (selectedDelimiter content filename : jsstring) : N :=
  if bool_decide (selectedDelimiter ≠ u "auto") then
    default TAB (delimiterMap selectedDelimiter)
  else
    let lowerFilename := toLowerCase filename in
    if endsWith lowerFilename (u ".csv") then COMMA
    else if endsWith lowerFilename (u ".tsv") then TAB
    else
      let line := firstLine content in
      if decide (maxCount line = 0) then TAB
      else
        default TAB
          (find (λ d, bool_decide (countChar d line = maxCount line)) priority).

(** [names[delimiter] || delimiter] *)
Definition getDelimiterName (delimiter : N) : jsstring :=
  if decide (delimiter = TAB) then [12479; 12502]%N
  else if decide (delimiter = COMMA) then [12459; 12531; 12510]%N
  else if decide (delimiter = SEMICOLON)
       then [12475; 12511; 12467; 12525; 12531]%N
  else if decide (delimiter = PIPE) then [12497; 12452; 12503]%N
  else [delimiter].


(** ** Objects used as dictionaries *)

(** The properties an object created by [{}] owns. *)
Abbreviation record := (gmap jsstring jsstring).

Definition PROTO : jsstring := u "__proto__".

(** The names under which [Object.prototype] holds a member. *)
Definition Object_prototype : list jsstring :=
  [u "constructor"; u "__defineGetter__"; u "__defineSetter__";
   u "hasOwnProperty"; u "__lookupGetter__"; u "__lookupSetter__";
   u "isPrototypeOf"; u "propertyIsEnumerable"; u "toString"; u "valueOf";
   PROTO; u "toLocaleString"].

(** What a read [row[name]] can give: [undefined], a string the row owns,
    or the member [Object.prototype] holds under the name, which is a
    function and, under [__proto__], [Object.prototype] itself. *)
Inductive Value :=
  | Undefined
  | Str (s : jsstring)
  | Member (name : jsstring).

#[global] Instance Value_eq_dec : EqDecision Value.
Proof. solve_decision. Defined.

(** [row[name]] *)
Definition Object_get (row : record) (name : jsstring) : Value :=
  match row !! name with
  | Some value => Str value
  | None => if decide (name ∈ Object_prototype) then Member name else Undefined
  end.

(** [row[name] = value] for a string [value]: under [__proto__], unless the
    row owns that name, the assignment calls the setter of
    [Object.prototype], which ignores a string. *)
Definition Object_set (name value : jsstring) (row : record) : record :=
  if decide (name = PROTO ∧ row !! PROTO = None) then row
  else <[name := value]> row.

(** Whether [if (v)], [v || w] and [v && w] take [v] for true. *)
Definition truthyValue (v : Value) : bool :=
  match v with
  | Undefined => false
  | Str s => bool_decide (s ≠ [])
  | Member _ => true
  end.

(** [v || w] *)
Definition valueOr (v w : Value) : Value := if truthyValue v then v else w.

(** [items.forEach(item => ...)] for a body that can throw, on the state
    the body updates: [None] when a call of the body throws. *)
Fixpoint forEach {A S : Type} (body : S → A → option S) (items : list A)
    (st : S) : option S :=
  match items with
  | [] => Some st
  | item :: rest =>
      match body st item with
      | Some st' => forEach body rest st'
      | None => None
      end
  end.

(** ** Row parser *)

Record ParsedDataset := {
  headers : list jsstring;
  rows : list record;
  delimiter : jsstring
}.

(** The four messages [parseFile] throws. *)
Inductive ParseError :=
  | FileIsEmpty          (* 'ファイルが空です' *)
  | HeaderAndDataNeeded  (* 'ヘッダー行とデータ行が必要です' *)
  | EmptyHeaderPresent   (* '空のヘッダーが含まれています' *)
  | NoDataRows.          (* 'データ行が見つかりません' *)

(** [headers.forEach((header, index) =>
       { row[header] = (values[index] || '').trim(); })],
    started at position [index] with the row built so far. *)
Fixpoint fillRow (values : list jsstring) (index : nat)
    (hs : list jsstring) (row : record) : record :=
  match hs with
  | [] => row
  | header :: rest =>
      fillRow values (S index) rest
        (Object_set header (trim (orEmpty (values !! index))) row)
  end.

(** [Object.values(row)] *)
Definition Object_values (row : record) : list jsstring :=
  (map_to_list row).*2.

(** [Object.values(row).some(val => val !== '')] *)
Definition someValue (row : record) : bool :=
  existsb (λ val, bool_decide (val ≠ [])) (Object_values row).

(** One turn of the loop over the data lines: the rows collected so far and
    the line [lines[i]]. *)
Definition rowStep (delim : N) (hs : list jsstring)
    (acc : list record) (rawLine : jsstring) : list record :=
  let line := trim rawLine in
  if decide (line = []) then acc
  else
    let values := split_on delim line in
    let row := fillRow values 0 hs ∅ in
    if someValue row then acc ++ [row] else acc.

Definition parseFile (selectedDelimiter content filename : jsstring)
    : ParseError + ParsedDataset :=
  if decide (trim content = []) then inl FileIsEmpty
  else
    let lines := split_lines (trim content) in
    if decide (length lines < 2) then inl HeaderAndDataNeeded
    else
      let delim := getDelimiter selectedDelimiter content filename in
      let delimiterName := getDelimiterName delim in
      let hs := map trim (split_on delim (hd [] lines)) in
      if existsb (λ header, bool_decide (header = [])) hs
      then inl EmptyHeaderPresent
      else
        let rs := fold_left (rowStep delim hs) (tl lines) [] in
        if decide (length rs = 0) then inl NoDataRows
        else inr {| headers := hs; rows := rs; delimiter := delimiterName |}.

(** The parser of [script.js]: lines are split at line feeds only, data
    lines are not trimmed as a whole, and only the line count is checked. *)
Module ScriptJs.

Definition firstLine (content : jsstring) : jsstring :=
  hd [] (split_on LF content).

Definition getDelimiter (selectedDelimiter content filename : jsstring) : N :=
  if bool_decide (selectedDelimiter ≠ u "auto") then
    default TAB (delimiterMap selectedDelimiter)
  else
    if endsWith (toLowerCase filename) (u ".csv") then COMMA
    else if endsWith (toLowerCase filename) (u ".tsv") then TAB
    else
      let line := firstLine content in
      if decide (maxCount line = 0) then TAB
      else
        default TAB
          (find (λ d, bool_decide (countChar d line = maxCount line))
             priority).

Definition rowStep (delim : N) (hs : list jsstring)
    (acc : list record) (line : jsstring) : list record :=
  let values := split_on delim line in
  let row := fillRow values 0 hs ∅ in
  if someValue row then acc ++ [row] else acc.

Definition parseFile (selectedDelimiter content filename : jsstring)
    : ParseError + ParsedDataset :=
  let lines := split_on LF (trim content) in
  if decide (length lines < 2) then inl HeaderAndDataNeeded
  else
    let delim := getDelimiter selectedDelimiter content filename in
    let delimiterName := getDelimiterName delim in
    let hs := map trim (split_on delim (hd [] lines)) in
    let rs := fold_left (rowStep delim hs) (tl lines) [] in
    inr {| headers := hs; rows := rs; delimiter := delimiterName |}.

End ScriptJs.

(** ** Diff engine *)

(** A [Map] from key to row, in insertion order. *)
Abbreviation jsmap := (list (jsstring * record)).

(** [m.set(key, row)]: a key already present keeps its place. *)
Fixpoint Map_set (key : jsstring) (row : record) (m : jsmap) : jsmap :=
  match m with
  | [] => [(key, row)]
  | (k, v) :: rest =>
      if decide (k = key) then (key, row) :: rest
      else (k, v) :: Map_set key row rest
  end.

(** [m.get(key)] *)
Fixpoint Map_get (key : jsstring) (m : jsmap) : option record :=
  match m with
  | [] => None
  | (k, v) :: rest => if decide (k = key) then Some v else Map_get key rest
  end.

(** [m.has(key)] *)
Definition Map_has (key : jsstring) (m : jsmap) : bool :=
  bool_decide (is_Some (Map_get key m)).

(** The body of [rows.forEach((row, index) => ...)] that fills an index:
    [const key = row[keyColumn];
     if (key && key.trim() !== '') { map.set(key, row); }]
    A member of [Object.prototype] is true and has no [trim]: the call
    raises a [TypeError]. *)
Definition indexStep (keyColumn : jsstring) (m : jsmap) (row : record)
    : option jsmap :=
  match Object_get row keyColumn with
  | Undefined => Some m
  | Str key =>
      if bool_decide (key ≠ []) && bool_decide (trim key ≠ [])
      then Some (Map_set key row m)
      else Some m
  | Member _ => None
  end.

Definition buildIndex (keyColumn : jsstring) (rs : list record)
    : option jsmap :=
  forEach (indexStep keyColumn) rs [].

(** [{ old: value1, new: value2 }] *)
Record Difference := { old : jsstring; new : jsstring }.

Abbreviation diffmap := (gmap jsstring Difference).

(** The entries of the four result lists, told apart by their [type]. *)
Inductive DiffEntry :=
  | Added (key : jsstring) (data : record)
  | Removed (key : jsstring) (data : record)
  | Changed (key : jsstring) (data1 data2 : record) (differences : diffmap)
  | Unchanged (key : jsstring) (data : record).

Definition entryKey (e : DiffEntry) : jsstring :=
  match e with
  | Added k _ | Removed k _ | Changed k _ _ _ | Unchanged k _ => k
  end.

Module Stats.
Record t := {
  total1 : nat;
  total2 : nat;
  added : nat;
  removed : nat;
  changed : nat;
  unchanged : nat
}.
End Stats.

Record ComparisonResult := {
  added : list DiffEntry;
  removed : list DiffEntry;
  changed : list DiffEntry;
  unchanged : list DiffEntry;
  stats : Stats.t
}.

(** [new Set([...Object.keys(row1), ...Object.keys(row2)])] *)
Definition allColumns (row1 row2 : record) : gset jsstring :=
  dom row1 ∪ dom row2.

(** [(row[column] || '').trim()]: [None] for the [TypeError] of calling
    [trim] on a member of [Object.prototype]. *)
Definition trimmedValue (row : record) (column : jsstring)
    : option jsstring :=
  match valueOr (Object_get row column) (Str []) with
  | Str value => Some (trim value)
  | _ => None
  end.

(** The body of [allColumns.forEach(column => ...)], on the pair
    [(differences, hasChanges)].  An assignment
    [differences['__proto__'] = { old, new }] makes the pair the prototype
    of [differences] and no property of it; a [diffmap] keeps it under the
    name all the same, and [differences_get] reads the map accordingly. *)
Definition columnStep (row1 row2 : record) (column : jsstring)
    (st : diffmap * bool) : option (diffmap * bool) :=
  match trimmedValue row1 column, trimmedValue row2 column with
  | Some value1, Some value2 =>
      if decide (value1 ≠ value2)
      then Some (<[column := {| old := value1; new := value2 |}]> st.1, true)
      else Some st
  | _, _ => None
  end.

Definition compareRows (row1 row2 : record) : option (diffmap * bool) :=
  set_fold (λ column st, st ≫= columnStep row1 row2 column)
    (Some (∅, false)) (allColumns row1 row2).

(** The body of the first pass, [map2.forEach((row, key) => ...)]. *)
Definition addedStep (map1 : jsmap) (acc : list DiffEntry)
    (kv : jsstring * record) : list DiffEntry :=
  if Map_has kv.1 map1 then acc else acc ++ [Added kv.1 kv.2].

(** The body of the second pass, [map1.forEach((row, key) => ...)]. *)
Definition removedStep (map2 : jsmap) (acc : list DiffEntry)
    (kv : jsstring * record) : list DiffEntry :=
  if Map_has kv.1 map2 then acc else acc ++ [Removed kv.1 kv.2].

(** The body of the third pass, on the pair [(changed, unchanged)]. *)
Definition classifyStep (map2 : jsmap)
    (st : list DiffEntry * list DiffEntry) (kv : jsstring * record)
    : option (list DiffEntry * list DiffEntry) :=
  match Map_get kv.1 map2 with
  | Some row2 =>
      let row1 := kv.2 in
      match compareRows row1 row2 with
      | Some cmp =>
          if cmp.2
          then Some (st.1 ++ [Changed kv.1 row1 row2 cmp.1], st.2)
          else Some (st.1, st.2 ++ [Unchanged kv.1 row1])
      | None => None
      end
  | None => Some st
  end.

(** [performComparison(keyColumn)] on the two datasets of [fileData]:
    [None] when a [TypeError] is raised on the way. *)
Definition performComparison (file1 file2 : ParsedDataset)
    (keyColumn : jsstring) : option ComparisonResult :=
  map1 ← buildIndex keyColumn (rows file1);
  map2 ← buildIndex keyColumn (rows file2);
  let added := fold_left (addedStep map1) map2 [] in
  let removed := fold_left (removedStep map2) map1 [] in
  both ← forEach (classifyStep map2) map1 ([], []);
  Some {| added := added;
          removed := removed;
          changed := both.1;
          unchanged := both.2;
          stats := {| Stats.total1 := length (rows file1);
                      Stats.total2 := length (rows file2);
                      Stats.added := length added;
                      Stats.removed := length removed;
                      Stats.changed := length both.1;
                      Stats.unchanged := length both.2 |} |}.

(** ** CSV export *)

Definition QUOTE : N := 34%N.
Definition BOM : N := 65279%N.

(** [str.includes(c)] for [c] of one code unit. *)
Definition includes (c : N) (str : jsstring) : bool := bool_decide (c ∈ str).

(** [str.replace] of every quotation mark by two of them. *)
Fixpoint doubleQuotes (str : jsstring) : jsstring :=
  match str with
  | [] => []
  | c :: r =>
      if (c =? QUOTE)%N then QUOTE :: QUOTE :: doubleQuotes r
      else c :: doubleQuotes r
  end.

(** [csvQuote(value)]; [None] is [null] or [undefined]. *)
Definition csvQuote (value : option jsstring) : jsstring :=
  match value with
  | None => []
  | Some str =>
      if includes COMMA str || includes LF str || includes CR str
         || includes QUOTE str
      then [QUOTE] ++ doubleQuotes str ++ [QUOTE]
      else str
  end.

(** [fields.join(',')] *)
Fixpoint join (sep : N) (fields : list jsstring) : jsstring :=
  match fields with
  | [] => []
  | [field] => field
  | field :: rest => field ++ sep :: join sep rest
  end.

(** [x || y] for strings or [undefined], an empty string being falsy. *)
Definition orElse (x : option jsstring) (y : jsstring) : jsstring :=
  match x with
  | Some (c :: r) => c :: r
  | _ => y
  end.

(** [typeLabels[item.type] || item.type] in [exportCSV]. *)
Definition typeLabel (item : DiffEntry) : jsstring :=
  match item with
  | Added _ _ => [36861; 21152]%N                    (* '追加' *)
  | Removed _ _ => [21066; 38500]%N                  (* '削除' *)
  | Changed _ _ _ _ => [22793; 26356]%N              (* '変更' *)
  | Unchanged _ _ => [22793; 26356; 12394; 12375]%N  (* '変更なし' *)
  end.

(** [`変更前: ${old} → 変更後: ${new}`] *)
Definition changeText (old new : jsstring) : jsstring :=
  [22793; 26356; 21069; 58; 32]%N ++ old
  ++ [32; 8594; 32; 22793; 26356; 24460; 58; 32]%N ++ new.

(** [item.differences[col]]: a pair the object owns under the name
    (or has as its prototype, for [__proto__]), or what the prototype chain
    gives: the strings of a pair that was made the prototype, under [old]
    and [new], and the members of [Object.prototype]. *)
Definition differences_get (differences : diffmap) (col : jsstring)
    : Difference + Value :=
  match differences !! col with
  | Some diff => inl diff
  | None =>
      match differences !! PROTO with
      | Some link =>
          if decide (col = u "old") then inr (Str (old link))
          else if decide (col = u "new") then inr (Str (new link))
          else inr (Object_get ∅ col)
      | None => inr (Object_get ∅ col)
      end
  end.

(** The value pushed for one column in the exported row of an entry:
    [`変更前: ${diff.old || ''} → 変更後: ${diff.new || ''}`] when
    [item.type === 'changed' && item.differences?.[col]], where a [diff]
    that is no pair has neither [old] nor [new]; else
    [item.data?.[col] || item.data1?.[col] || item.data2?.[col] || '']. *)
Definition exportCell (item : DiffEntry) (col : jsstring) : Value :=
  match item with
  | Changed _ data1 data2 differences =>
      match differences_get differences col with
      | inl diff =>
          Str (changeText (orElse (Some (old diff)) [])
                 (orElse (Some (new diff)) []))
      | inr v =>
          if truthyValue v then Str (changeText [] [])
          else valueOr (Object_get data1 col)
                 (valueOr (Object_get data2 col) (Str []))
      end
  | Added _ data | Removed _ data | Unchanged _ data =>
      valueOr (Object_get data col) (Str [])
  end.

(** [Object.keys(row).forEach(col => allColumns.add(col))] *)
Definition addKeys (row : record) (allColumns : gset jsstring)
    : gset jsstring :=
  allColumns ∪ dom row.

(** The body of [dataToExport.forEach(item => ...)] that collects the
    column names of [item.data], [item.data1] and [item.data2]. *)
Definition collectStep (allColumns : gset jsstring) (item : DiffEntry)
    : gset jsstring :=
  match item with
  | Added _ data | Removed _ data | Unchanged _ data => addKeys data allColumns
  | Changed _ data1 data2 _ => addKeys data2 (addKeys data1 allColumns)
  end.

Definition collectColumns (dataToExport : list DiffEntry) : gset jsstring :=
  fold_left collectStep dataToExport ∅.

(** The entries [exportCSV] writes for a [type]. *)
Definition dataToExport (type : jsstring) (result : ComparisonResult)
    : list DiffEntry :=
  if decide (type = u "all")
  then added result ++ removed result ++ changed result ++ unchanged result
  else added result ++ removed result ++ changed result.

(** One line of the file: [row.map(csvQuote).join(',') + '\n']. *)
Definition csvLine (row : list jsstring) : jsstring :=
  join COMMA (map (λ value, csvQuote (Some value)) row) ++ [LF].

Inductive ExportOutcome :=
  | NoResult          (* alert('比較結果がありません') *)
  | NothingToExport   (* alert('エクスポートするデータがありません') *)
  | Exported (content : jsstring).

Section export.

(** The text [String(f)] of the function [Object.prototype] holds under a
    name, which the language leaves to the implementation. *)
Variable nativeSource : jsstring → jsstring.

(** [String(value)], the first thing [csvQuote] does to a value that is
    not [null]. *)
Definition toString (value : Value) : jsstring :=
  match value with
  | Undefined => u "undefined"
  | Str s => s
  | Member name =>
      if decide (name = PROTO) then u "[object Object]" else nativeSource name
  end.

(** The array [row] built for one entry, each value as [csvQuote] takes
    it. *)
Definition exportRow (columns : list jsstring) (item : DiffEntry)
    : list jsstring :=
  [typeLabel item; orElse (Some (entryKey item)) []]
  ++ map (λ col, toString (exportCell item col)) columns.

(** The text [csvContent] for the columns [Array.from(allColumns)]. *)
Definition csvContent (columns : list jsstring) (data : list DiffEntry)
    : jsstring :=
  [BOM]
  ++ csvQuote (Some [22793; 26356; 12479; 12452; 12503]%N)  (* '変更タイプ' *)
  ++ [COMMA] ++ csvQuote (Some [12461; 12540]%N)            (* 'キー' *)
  ++ concat (map (λ col, COMMA :: csvQuote (Some col)) columns)
  ++ [LF]
  ++ concat (map (λ item, csvLine (exportRow columns item)) data).

(** [exportCSV(type)] up to the text handed to the download; the global
    [comparisonResult] is an argument and [columns] is
    [Array.from(allColumns)], the names of [collectColumns] in the order
    in which the set received them. *)
Definition exportCSV (type : jsstring)
    (comparisonResult : option ComparisonResult) (columns : list jsstring)
    : ExportOutcome :=
  match comparisonResult with
  | None => NoResult
  | Some result =>
      let data := dataToExport type result in
      if decide (length data = 0) then NothingToExport
      else Exported (csvContent columns data)
  end.

End export.

(** ** Key column choice and the comparison guard *)

(** [fileData.file1.headers.filter(header =>
       fileData.file2.headers.includes(header))] *)
Definition commonHeaders (file1 file2 : ParsedDataset) : list jsstring :=
  filter (λ header, header ∈ headers file2) (headers file1).

(** [updateKeyColumnOptions()]: the values of the options of the key
    select and the value it ends up with.  The first option always has the
    empty value. *)
Definition updateKeyColumnOptions (fileData1 fileData2 : option ParsedDataset)
    : list jsstring * jsstring :=
  match fileData1, fileData2 with
  | Some file1, Some file2 =>
      let common := commonHeaders file1 file2 in
      if decide (length common = 0) then ([[]], [])
      else ([] :: common, hd [] common)
  | _, _ => ([[]], [])
  end.

Inductive CompareOutcome :=
  | SelectKeyAlert     (* alert('キー列を選択してください') *)
  | UploadBothAlert    (* alert('両方のファイルをアップロードしてください') *)
  | Compared (result : ComparisonResult)
  | ComparisonError.   (* showError('比較処理エラー: ' + error.message) *)

(** [compareFiles()] for the value [keyColumn] of the key select, with the
    comparison it schedules run on the datasets it has checked. *)
Definition compareFiles (keyColumn : jsstring)
    (fileData1 fileData2 : option ParsedDataset) : CompareOutcome :=
  if decide (keyColumn = []) then SelectKeyAlert
  else
    match fileData1, fileData2 with
    | Some file1, Some file2 =>
        match performComparison file1 file2 keyColumn with
        | Some result => Compared result
        | None => ComparisonError
        end
    | _, _ => UploadBothAlert
    end.

(** ** The diff engine of the earlier version

    [performComparison] as [part_001] has it: the values of a column are
    compared as [row[column] || ''] gives them, without [trim]; so
    nothing is raised for a member of [Object.prototype], which becomes a
    value of the difference. *)
Module Part001.

(** [{ old: value1, new: value2 }] *)
Record Difference := { old : Value; new : Value }.

Abbreviation diffmap := (gmap jsstring Difference).

Inductive DiffEntry :=
  | Added (key : jsstring) (data : record)
  | Removed (key : jsstring) (data : record)
  | Changed (key : jsstring) (data1 data2 : record) (differences : diffmap)
  | Unchanged (key : jsstring) (data : record).

Record ComparisonResult := {
  added : list DiffEntry;
  removed : list DiffEntry;
  changed : list DiffEntry;
  unchanged : list DiffEntry;
  stats : Stats.t
}.

(** The body of [allColumns.forEach(column => ...)]:
    [const value1 = row1[column] || ''], with no [trim], so a member of
    [Object.prototype] read for a column the row lacks is the value, and
    nothing is raised. *)
Definition columnStep (row1 row2 : record) (column : jsstring)
    (st : diffmap * bool) : diffmap * bool :=
  let value1 := valueOr (Object_get row1 column) (Str []) in
  let value2 := valueOr (Object_get row2 column) (Str []) in
  if decide (value1 ≠ value2)
  then (<[column := {| old := value1; new := value2 |}]> st.1, true)
  else st.

Definition compareRows (row1 row2 : record) : diffmap * bool :=
  set_fold (columnStep row1 row2) (∅, false) (allColumns row1 row2).

Definition addedStep (map1 : jsmap) (acc : list DiffEntry)
    (kv : jsstring * record) : list DiffEntry :=
  if Map_has kv.1 map1 then acc else acc ++ [Added kv.1 kv.2].

Definition removedStep (map2 : jsmap) (acc : list DiffEntry)
    (kv : jsstring * record) : list DiffEntry :=
  if Map_has kv.1 map2 then acc else acc ++ [Removed kv.1 kv.2].

Definition classifyStep (map2 : jsmap)
    (st : list DiffEntry * list DiffEntry) (kv : jsstring * record)
    : list DiffEntry * list DiffEntry :=
  match Map_get kv.1 map2 with
  | Some row2 =>
      let row1 := kv.2 in
      let cmp := compareRows row1 row2 in
      if cmp.2
      then (st.1 ++ [Changed kv.1 row1 row2 cmp.1], st.2)
      else (st.1, st.2 ++ [Unchanged kv.1 row1])
  | None => st
  end.

(** The two indices are built as in the current version. *)
Definition performComparison (file1 file2 : ParsedDataset)
    (keyColumn : jsstring) : option ComparisonResult :=
  map1 ← buildIndex keyColumn (rows file1);
  map2 ← buildIndex keyColumn (rows file2);
  let added := fold_left (addedStep map1) map2 [] in
  let removed := fold_left (removedStep map2) map1 [] in
  let both := fold_left (classifyStep map2) map1 ([], []) in
  Some {| added := added;
          removed := removed;
          changed := both.1;
          unchanged := both.2;
          stats := {| Stats.total1 := length (rows file1);
                      Stats.total2 := length (rows file2);
                      Stats.added := length added;
                      Stats.removed := length removed;
                      Stats.changed := length both.1;
                      Stats.unchanged := length both.2 |} |}.

End Part001.

(** ** The session: the globals and the handlers that assign them

    The globals [fileData], [originalFileContents], [originalFileNames] and
    [comparisonResult], and the value of the delimiter select, make up the
    session; of a handler only its assignments to them are kept. *)

Inductive FileNum := File1 | File2.

#[global] Instance FileNum_eq_dec : EqDecision FileNum.
Proof. solve_decision. Defined.

(** An object [{ file1: ..., file2: ... }]. *)
Record Slots (A : Type) := { file1 : A; file2 : A }.
Arguments file1 {A} _.
Arguments file2 {A} _.

(** [slots[`file${fileNum}`]] *)
Definition slot {A} (fileNum : FileNum) (slots : Slots A) : A :=
  match fileNum with File1 => file1 slots | File2 => file2 slots end.

(** [slots[`file${fileNum}`] = value] *)
Definition setSlot {A} (fileNum : FileNum) (value : A) (slots : Slots A)
    : Slots A :=
  match fileNum with
  | File1 => {| file1 := value; file2 := file2 slots |}
  | File2 => {| file1 := file1 slots; file2 := value |}
  end.

Record Session := {
  fileData : Slots (option ParsedDataset);
  originalFileContents : Slots (option jsstring);
  originalFileNames : Slots (option jsstring);
  comparisonResult : option ComparisonResult;
  delimiterSelect : jsstring
}.

(** [validExtensions.some(ext => fileName.endsWith(ext))] for
    [fileName = file.name.toLowerCase()]. *)
Definition isValidFile (name : jsstring) : bool :=
  existsb (λ ext, endsWith (toLowerCase name) ext)
    [u ".tsv"; u ".txt"; u ".csv"; u ".dat"].

(** [handleFile(fileNum, input)], with [file] the chosen file, if any, as
    its name and the text the reader delivers to [reader.onload]. *)
Definition handleFile (fileNum : FileNum) (file : option (jsstring * jsstring))
    (s : Session) : Session :=
  match file with
  | None =>
      {| fileData := setSlot fileNum None (fileData s);
         originalFileContents := setSlot fileNum None (originalFileContents s);
         originalFileNames := setSlot fileNum None (originalFileNames s);
         comparisonResult := None;
         delimiterSelect := delimiterSelect s |}
  | Some (name, content) =>
      if isValidFile name then
        let contents := setSlot fileNum (Some content) (originalFileContents s) in
        let names := setSlot fileNum (Some name) (originalFileNames s) in
        match parseFile (delimiterSelect s) content name with
        | inr data =>
            {| fileData := setSlot fileNum (Some data) (fileData s);
               originalFileContents := contents;
               originalFileNames := names;
               comparisonResult := None;
               delimiterSelect := delimiterSelect s |}
        | inl _ =>
            {| fileData := fileData s;
               originalFileContents := contents;
               originalFileNames := names;
               comparisonResult := comparisonResult s;
               delimiterSelect := delimiterSelect s |}
        end
      else s
  end.

(** A string that is neither [null] nor empty. *)
Definition truthy (x : option jsstring) : bool :=
  match x with Some (_ :: _) => true | _ => false end.

(** One of the two blocks of [reprocessFiles]: [None] when [parseFile]
    throws. *)
Definition reprocessFile (fileNum : FileNum) (s : Session)
    : option Session :=
  if truthy (slot fileNum (originalFileContents s))
     && truthy (slot fileNum (originalFileNames s))
  then
    match parseFile (delimiterSelect s)
            (orEmpty (slot fileNum (originalFileContents s)))
            (orEmpty (slot fileNum (originalFileNames s))) with
    | inr data =>
        Some {| fileData := setSlot fileNum (Some data) (fileData s);
                originalFileContents := originalFileContents s;
                originalFileNames := originalFileNames s;
                comparisonResult := comparisonResult s;
                delimiterSelect := delimiterSelect s |}
    | inl _ => None
    end
  else Some s.

(** [reprocessFiles()]: a [parseFile] that throws ends the [try] block
    with the assignments made so far. *)
Definition reprocessFiles (s : Session) : Session :=
  match reprocessFile File1 s with
  | None => s
  | Some s1 =>
      match reprocessFile File2 s1 with
      | None => s1
      | Some s2 =>
          {| fileData := fileData s2;
             originalFileContents := originalFileContents s2;
             originalFileNames := originalFileNames s2;
             comparisonResult := None;
             delimiterSelect := delimiterSelect s2 |}
      end
  end.

(** The change of the delimiter select to [value], which runs
    [reprocessFiles]. *)
Definition changeDelimiter (value : jsstring) (s : Session) : Session :=
  reprocessFiles
    {| fileData := fileData s;
       originalFileContents := originalFileContents s;
       originalFileNames := originalFileNames s;
       comparisonResult := comparisonResult s;
       delimiterSelect := value |}.

(** The function [compareFiles] hands to [setTimeout]: [performComparison]
    throws when a dataset is missing or a [TypeError] is raised on the
    way, and the [catch] keeps the session. *)
Definition comparisonTimeout (keyColumn : jsstring) (s : Session) : Session :=
  match file1 (fileData s), file2 (fileData s) with
  | Some data1, Some data2 =>
      match performComparison data1 data2 keyColumn with
      | Some result =>
          {| fileData := fileData s;
             originalFileContents := originalFileContents s;
             originalFileNames := originalFileNames s;
             comparisonResult := Some result;
             delimiterSelect := delimiterSelect s |}
      | None => s
      end
  | _, _ => s
  end.

(** [clearAll()] *)
Definition clearAll (s : Session) : Session :=
  {| fileData := {| file1 := None; file2 := None |};
     originalFileContents := {| file1 := None; file2 := None |};
     originalFileNames := {| file1 := None; file2 := None |};
     comparisonResult := None;
     delimiterSelect := u "auto" |}.

(** What can happen to a session. *)
Inductive Event :=
  | FileChosen (fileNum : FileNum) (file : option (jsstring * jsstring))
  | DelimiterChanged (value : jsstring)
  | ComparisonTimeout (keyColumn : jsstring)
  | ClearClicked.

Definition step (s : Session) (e : Event) : Session :=
  match e with
  | FileChosen fileNum file => handleFile fileNum file s
  | DelimiterChanged value => changeDelimiter value s
  | ComparisonTimeout keyColumn => comparisonTimeout keyColumn s
  | ClearClicked => clearAll s
  end.

(** The session when the script is loaded, for the value the page gives
    the delimiter select. *)
Definition initialSession (delimiter0 : jsstring) : Session :=
  {| fileData := {| file1 := None; file2 := None |};
     originalFileContents := {| file1 := None; file2 := None |};
     originalFileNames := {| file1 := None; file2 := None |};
     comparisonResult := None;
     delimiterSelect := delimiter0 |}.

(** ** Vocabulary of the statements *)

(** The same text with every line feed written as carriage return, line
    feed. *)
Fixpoint crlf (s : jsstring) : jsstring :=
  match s with
  | [] => []
  | c :: r => if (c =? LF)%N then CR :: LF :: crlf r else c :: crlf r
  end.

(** [hs.lastIndexOf(h)], as an option. *)
Fixpoint lastIndexOf (h : jsstring) (hs : list jsstring) : option nat :=
  match hs with
  | [] => None
  | x :: rest =>
      match lastIndexOf h rest with
      | Some j => Some (S j)
      | None => if decide (x = h) then Some 0 else None
      end
  end.

(** The keys of an index, in iteration order. *)
Definition keys (m : jsmap) : list jsstring := m.*1.

(** The row a data line contributes to [rows], if it survives. *)
Definition rowOfLine (delim : N) (hs : list jsstring) (rawLine : jsstring)
    : option record :=
  let line := trim rawLine in
  if decide (line = []) then None
  else
    let row := fillRow (split_on delim line) 0 hs ∅ in
    if someValue row then Some row else None.

(** The position of the last occurrence of a name among the headers. *)
Definition lastAt (hs : list jsstring) (h : jsstring) (j : nat) : Prop :=
  hs !! j = Some h ∧ ∀ k, j < k → hs !! k ≠ Some h.

(** A data line that gives a row: it is not blank, and its field at the
    last position of some header other than [__proto__] is not empty. *)
Definition survives (delim : N) (hs : list jsstring) (line : jsstring)
    : Prop :=
  trim line ≠ [] ∧
  ∃ h j, h ≠ PROTO ∧ lastAt hs h j ∧
         trim (orEmpty (split_on delim (trim line) !! j)) ≠ [].

(** The value of a column as the diff compares it. *)
Definition cell (row : record) (column : jsstring) : jsstring :=
  trim (orEmpty (row !! column)).

(** A read of [name] on the row goes to [Object.prototype] and finds a
    member there. *)
Definition inherits (row : record) (name : jsstring) : Prop :=
  row !! name = None ∧ name ∈ Object_prototype.

#[global] Instance inherits_dec (row : record) (name : jsstring) :
  Decision (inherits row name).
Proof. unfold inherits. apply _. Defined.

(** No row reads the key column through its prototype. *)
Definition indexable (keyColumn : jsstring) (rs : list record) : Prop :=
  Forall (λ row, ¬ inherits row keyColumn) rs.

#[global] Instance indexable_dec (keyColumn : jsstring) (rs : list record) :
  Decision (indexable keyColumn rs).
Proof. unfold indexable. apply _. Defined.

(** Neither row reads a column of the other through its prototype: the two
    rows own the same member names of [Object.prototype]. *)
Definition comparable (row1 row2 : record) : Prop :=
  set_Forall (λ column, ¬ inherits row1 column ∧ ¬ inherits row2 column)
    (allColumns row1 row2).

#[global] Instance comparable_dec (row1 row2 : record) :
  Decision (comparable row1 row2).
Proof. unfold comparable. apply _. Defined.

(** The comparison of the values the rows own, with nothing read through a
    prototype: what the diff engine computes when nothing is raised
    (Lemma [performComparison_outcome]). *)
Module Own.

Definition indexStep (keyColumn : jsstring) (m : jsmap) (row : record)
    : jsmap :=
  match row !! keyColumn with
  | Some key =>
      if bool_decide (key ≠ []) && bool_decide (trim key ≠ [])
      then Map_set key row m
      else m
  | None => m
  end.

Definition buildIndex (keyColumn : jsstring) (rs : list record) : jsmap :=
  fold_left (indexStep keyColumn) rs [].

Definition columnStep (row1 row2 : record) (column : jsstring)
    (st : diffmap * bool) : diffmap * bool :=
  let value1 := trim (orEmpty (row1 !! column)) in
  let value2 := trim (orEmpty (row2 !! column)) in
  if decide (value1 ≠ value2)
  then (<[column := {| old := value1; new := value2 |}]> st.1, true)
  else st.

Definition compareRows (row1 row2 : record) : diffmap * bool :=
  set_fold (columnStep row1 row2) (∅, false) (allColumns row1 row2).

Definition classifyStep (map2 : jsmap)
    (st : list DiffEntry * list DiffEntry) (kv : jsstring * record)
    : list DiffEntry * list DiffEntry :=
  match Map_get kv.1 map2 with
  | Some row2 =>
      let row1 := kv.2 in
      let cmp := compareRows row1 row2 in
      if cmp.2
      then (st.1 ++ [Changed kv.1 row1 row2 cmp.1], st.2)
      else (st.1, st.2 ++ [Unchanged kv.1 row1])
  | None => st
  end.

Definition performComparison (file1 file2 : ParsedDataset)
    (keyColumn : jsstring) : ComparisonResult :=
  let map1 := buildIndex keyColumn (rows file1) in
  let map2 := buildIndex keyColumn (rows file2) in
  let added := fold_left (addedStep map1) map2 [] in
  let removed := fold_left (removedStep map2) map1 [] in
  let both := fold_left (classifyStep map2) map1 ([], []) in
  {| added := added;
     removed := removed;
     changed := both.1;
     unchanged := both.2;
     stats := {| Stats.total1 := length (rows file1);
                 Stats.total2 := length (rows file2);
                 Stats.added := length added;
                 Stats.removed := length removed;
                 Stats.changed := length both.1;
                 Stats.unchanged := length both.2 |} |}.

End Own.

(** An entry of the first index is comparable with the row that has its
    key in the second, if there is one. *)
Definition comparableWith (map2 : jsmap) (kv : jsstring * record) : Prop :=
  match Map_get kv.1 map2 with
  | Some row2 => comparable kv.2 row2
  | None => True
  end.

#[global] Instance comparableWith_dec (map2 : jsmap)
    (kv : jsstring * record) : Decision (comparableWith map2 kv).
Proof. unfold comparableWith. destruct (Map_get kv.1 map2); apply _. Defined.

(** The inputs on which [performComparison] returns a result: both
    indices can be built and the rows that share a key are comparable. *)
Definition returns (file1 file2 : ParsedDataset) (keyColumn : jsstring)
    : Prop :=
  indexable keyColumn (rows file1) ∧ indexable keyColumn (rows file2) ∧
  Forall (comparableWith (Own.buildIndex keyColumn (rows file2)))
    (Own.buildIndex keyColumn (rows file1)).

#[global] Instance returns_dec (file1 file2 : ParsedDataset)
    (keyColumn : jsstring) : Decision (returns file1 file2 keyColumn).
Proof. unfold returns. apply _. Defined.

(** The entry each pass pushes for one entry of the index it walks, if
    any. *)
Definition addedEntry (map1 : jsmap) (kv : jsstring * record)
    : option DiffEntry :=
  if Map_has kv.1 map1 then None else Some (Added kv.1 kv.2).

Definition removedEntry (map2 : jsmap) (kv : jsstring * record)
    : option DiffEntry :=
  if Map_has kv.1 map2 then None else Some (Removed kv.1 kv.2).

Definition changedEntry (map2 : jsmap) (kv : jsstring * record)
    : option DiffEntry :=
  match Map_get kv.1 map2 with
  | Some row2 =>
      let cmp := Own.compareRows kv.2 row2 in
      if cmp.2 then Some (Changed kv.1 kv.2 row2 cmp.1) else None
  | None => None
  end.

Definition unchangedEntry (map2 : jsmap) (kv : jsstring * record)
    : option DiffEntry :=
  match Map_get kv.1 map2 with
  | Some row2 =>
      if (Own.compareRows kv.2 row2).2 then None else Some (Unchanged kv.1 kv.2)
  | None => None
  end.

(** How many entries of a result list carry a key. *)
Definition countKey (key : jsstring) (l : list DiffEntry) : nat :=
  length (filter (λ e, entryKey e = key) l).

Definition isAdded (e : DiffEntry) : Prop :=
  match e with Added _ _ => True | _ => False end.
Definition isRemoved (e : DiffEntry) : Prop :=
  match e with Removed _ _ => True | _ => False end.
Definition isChanged (e : DiffEntry) : Prop :=
  match e with Changed _ _ _ _ => True | _ => False end.
Definition isUnchanged (e : DiffEntry) : Prop :=
  match e with Unchanged _ _ => True | _ => False end.

(** The rows a result entry carries. *)
Definition entryRows (e : DiffEntry) : list record :=
  match e with
  | Added _ d | Removed _ d | Unchanged _ d => [d]
  | Changed _ d1 d2 _ => [d1; d2]
  end.

(** All the entries of a result. *)
Definition allEntries (r : ComparisonResult) : list DiffEntry :=
  added r ++ removed r ++ changed r ++ unchanged r.

(** Sample inputs. *)
Definition row_of (l : list (string * string)) : record :=
  list_to_map (map (λ p, (u p.1, u p.2)) l).

Definition sample1 : ParsedDataset :=
  {| headers := [u "id"; u "v"];
     rows := [row_of [("id", "1"); ("v", "x")]];
     delimiter := getDelimiterName COMMA |}.

Definition sample2 : ParsedDataset :=
  {| headers := [u "id"; u "v"];
     rows := [row_of [("id", "1"); ("v", "y")];
              row_of [("id", "2"); ("v", "z")]];
     delimiter := getDelimiterName COMMA |}.

Definition sampleContent : jsstring :=
  u "a,b" ++ [LF] ++ u "1,2" ++ [LF; LF] ++ u "3,4".

Definition sampleParsed : ParsedDataset :=
  {| headers := [u "a"; u "b"];
     rows := [row_of [("a", "1"); ("b", "2")];
              row_of [("a", "3"); ("b", "4")]];
     delimiter := getDelimiterName COMMA |}.

(** A session with the first file loaded. *)
Definition sampleSession : Session :=
  {| fileData := {| file1 := Some sampleParsed; file2 := None |};
     originalFileContents := {| file1 := Some sampleContent; file2 := None |};
     originalFileNames := {| file1 := Some (u "f.txt"); file2 := None |};
     comparisonResult := None;
     delimiterSelect := u "auto" |}.

(** Two files of which the first has a column named [constructor]. *)
Definition memberContent1 : jsstring := u "id,constructor" ++ [LF] ++ u "1,x".

Definition memberContent2 : jsstring := u "id,v" ++ [LF] ++ u "1,y".

Definition memberParsed1 : ParsedDataset :=
  {| headers := [u "id"; u "constructor"];
     rows := [row_of [("id", "1"); ("constructor", "x")]];
     delimiter := getDelimiterName COMMA |}.

Definition memberParsed2 : ParsedDataset :=
  {| headers := [u "id"; u "v"];
     rows := [row_of [("id", "1"); ("v", "y")]];
     delimiter := getDelimiterName COMMA |}.

Definition duplicateKeyContent : jsstring :=
  u "id,v" ++ [LF] ++ u "1,x" ++ [LF] ++ u "1,y".

Definition duplicateKeyParsed : ParsedDataset :=
  {| headers := [u "id"; u "v"];
     rows := [row_of [("id", "1"); ("v", "x")];
              row_of [("id", "1"); ("v", "y")]];
     delimiter := getDelimiterName COMMA |}.

Definition duplicateHeaderContent : jsstring :=
  u "a,a" ++ [LF] ++ u "x," ++ [LF] ++ u "1,2".

Definition duplicateHeaderParsed : ParsedDataset :=
  {| headers := [u "a"; u "a"];
     rows := [row_of [("a", "2")]];
     delimiter := getDelimiterName COMMA |}.

(** A reader of comma separated text: fields are separated by commas and
    records end at a line feed; a field that opens with a quotation mark
    runs to the next single quotation mark, a doubled one standing for the
    mark itself. *)
Inductive ReadState := FieldStart | InPlain | InQuoted | QuoteSeen.

Fixpoint csvRead (st : ReadState) (field : jsstring) (rec : list jsstring)
    (s : jsstring) : option (list (list jsstring)) :=
  match s with
  | [] =>
      match st, rec with
      | InQuoted, _ => None
      | FieldStart, [] => Some []
      | _, _ => Some [rec ++ [field]]
      end
  | c :: rest =>
      match st with
      | FieldStart =>
          if decide (c = QUOTE) then csvRead InQuoted [] rec rest
          else if decide (c = COMMA) then csvRead FieldStart [] (rec ++ [[]]) rest
          else if decide (c = LF)
               then cons (rec ++ [[]]) <$> csvRead FieldStart [] [] rest
          else csvRead InPlain [c] rec rest
      | InPlain =>
          if decide (c = QUOTE) then None
          else if decide (c = COMMA)
               then csvRead FieldStart [] (rec ++ [field]) rest
          else if decide (c = LF)
               then cons (rec ++ [field]) <$> csvRead FieldStart [] [] rest
          else csvRead InPlain (field ++ [c]) rec rest
      | InQuoted =>
          if decide (c = QUOTE) then csvRead QuoteSeen field rec rest
          else csvRead InQuoted (field ++ [c]) rec rest
      | QuoteSeen =>
          if decide (c = QUOTE) then csvRead InQuoted (field ++ [QUOTE]) rec rest
          else if decide (c = COMMA)
               then csvRead FieldStart [] (rec ++ [field]) rest
          else if decide (c = LF)
               then cons (rec ++ [field]) <$> csvRead FieldStart [] [] rest
          else None
      end
  end.

Definition csvParse (s : jsstring) : option (list (list jsstring)) :=
  csvRead FieldStart [] [] s.

(** The first record of an exported file: the two fixed titles and the
    column names. *)
Definition exportTitles (columns : list jsstring) : list jsstring :=
  [[22793; 26356; 12479; 12452; 12503]%N; [12461; 12540]%N] ++ columns.

(** A row all of whose values are trimmed, as the parser builds them. *)
Definition trimmedRow (row : record) : Prop :=
  ∀ column v, row !! column = Some v → trim v = v.

(** An entry as the comparison in the other direction sees it. *)
Definition swapDifference (d : Difference) : Difference :=
  {| old := new d; new := old d |}.

Definition mirror (e : DiffEntry) : DiffEntry :=
  match e with
  | Added k d => Removed k d
  | Removed k d => Added k d
  | Changed k d1 d2 differences =>
      Changed k d2 d1 (swapDifference <$> differences)
  | Unchanged k d => Unchanged k d
  end.

(** A result of the current version as the earlier version writes it: the
    values of a difference are strings. *)
Definition earlierDifference (d : Difference) : Part001.Difference :=
  {| Part001.old := Str (old d); Part001.new := Str (new d) |}.

Definition earlierEntry (e : DiffEntry) : Part001.DiffEntry :=
  match e with
  | Added k d => Part001.Added k d
  | Removed k d => Part001.Removed k d
  | Changed k d1 d2 differences =>
      Part001.Changed k d1 d2 (earlierDifference <$> differences)
  | Unchanged k d => Part001.Unchanged k d
  end.

Definition earlierResult (r : ComparisonResult) : Part001.ComparisonResult :=
  {| Part001.added := earlierEntry <$> added r;
     Part001.removed := earlierEntry <$> removed r;
     Part001.changed := earlierEntry <$> changed r;
     Part001.unchanged := earlierEntry <$> unchanged r;
     Part001.stats := stats r |}.

(** A dataset that came out of the parser for an accepted file. *)
Definition parsed (data : ParsedDataset) : Prop :=
  ∃ sel content name,
    isValidFile name = true ∧ parseFile sel content name = inr data.

(** A session whose datasets are the parse of the kept contents under the
    selected delimiter. *)
Definition inStep (s : Session) : Prop :=
  ∀ fileNum,
    match slot fileNum (fileData s) with
    | Some data =>
        ∃ content name,
          slot fileNum (originalFileContents s) = Some content ∧
          slot fileNum (originalFileNames s) = Some name ∧
          name ≠ [] ∧
          parseFile (delimiterSelect s) content name = inr data
    | None =>
        truthy (slot fileNum (originalFileContents s))
        && truthy (slot fileNum (originalFileNames s)) = false
    end.

(** What every session the handlers can reach satisfies. *)
Definition sound (s : Session) : Prop :=
  (∀ fileNum data, slot fileNum (fileData s) = Some data → parsed data) ∧
  (∀ fileNum name,
     slot fileNum (originalFileNames s) = Some name →
     isValidFile name = true) ∧
  (∀ fileNum,
     slot fileNum (fileData s) ≠ None →
     slot fileNum (originalFileContents s) ≠ None ∧
     slot fileNum (originalFileNames s) ≠ None) ∧
  (∀ result,
     comparisonResult s = Some result →
     ∃ data1 data2 keyColumn,
       parsed data1 ∧ parsed data2 ∧
       performComparison data1 data2 keyColumn = Some result).

(** Two lines that differ at most by one trailing carriage return. *)
Definition same_upto_cr (l l' : jsstring) : Prop :=
  l' = l ∨ l' = l ++ [CR].


(** [c] comes before [d] in the priority order. *)
Definition before (c d : N) : Prop :=
  ∃ i j, priority !! i = Some c ∧ priority !! j = Some d ∧ i < j.

(** ** Strings: trimming *)

Lemma trimStart_shape (s : jsstring) :
  ∃ a, s = a ++ trimStart s ∧ Forall (λ c, is_ws c = true) a ∧
       (trimStart s = [] ∨ ∃ c r, trimStart s = c :: r ∧ is_ws c = false).
Proof.
  induction s as [|c r (a & Ha & Hws & Hsh)]; simpl.
  - exists []. auto.
  - destruct (is_ws c) eqn:Hc.
    + exists (c :: a). split; [by rewrite Ha at 1|]. split; [by constructor|done].
    + exists []. repeat split; eauto.
Qed.

Lemma trimStart_all_ws (a s : jsstring) :
  Forall (λ c, is_ws c = true) a → trimStart (a ++ s) = trimStart s.
Proof. induction 1 as [|c a Hc _ IH]; simpl; [done|by rewrite Hc]. Qed.

Lemma trimStart_fixed (c : N) (r : jsstring) :
  is_ws c = false → trimStart (c :: r) = c :: r.
Proof. intros Hc. simpl. by rewrite Hc. Qed.

Lemma trimEnd_snoc (s : jsstring) (c : N) :
  trimEnd (s ++ [c]) = if is_ws c then trimEnd s else s ++ [c].
Proof.
  unfold trimEnd. rewrite rev_app_distr. simpl.
  destruct (is_ws c); [done|].
  simpl. by rewrite rev_involutive.
Qed.

Lemma trimEnd_nil : trimEnd [] = [].
Proof. done. Qed.

Lemma trimEnd_shape (s : jsstring) :
  ∃ b, s = trimEnd s ++ b ∧ Forall (λ c, is_ws c = true) b ∧
       (trimEnd s = [] ∨ ∃ r c, trimEnd s = r ++ [c] ∧ is_ws c = false).
Proof.
  induction s as [|c s (b & Hb & Hws & Hsh)] using rev_ind.
  - exists []. auto.
  - rewrite trimEnd_snoc. destruct (is_ws c) eqn:Hc.
    + exists (b ++ [c]). split; [by rewrite app_assoc, <- Hb|].
      split; [|done]. apply Forall_app. split; [done|by repeat constructor].
    + exists []. split; [by rewrite app_nil_r|]. split; [constructor|eauto].
Qed.

(** A trimmed string is empty or starts and ends with a code unit that is
    not white space. *)
Lemma trim_shape (s : jsstring) :
  trim s = [] ∨
  (∃ c r, trim s = c :: r ∧ is_ws c = false) ∧
  (∃ r c, trim s = r ++ [c] ∧ is_ws c = false).
Proof.
  unfold trim.
  destruct (trimStart_shape s) as (a & _ & _ & [Hs|(c & r & Hs & Hc)]).
  - left. by rewrite Hs.
  - destruct (trimEnd_shape (trimStart s)) as (b & Hb & _ & [He|He]); [by left|].
    right. split; [|done].
    destruct (trimEnd (trimStart s)) as [|c' r'] eqn:E.
    + destruct He as (? & ? & He & _). by destruct x.
    + rewrite Hs in Hb. simpl in Hb. injection Hb as -> _. eauto.
Qed.

Lemma trimEnd_fixed (r : jsstring) (c : N) :
  is_ws c = false → trimEnd (r ++ [c]) = r ++ [c].
Proof. intros Hc. by rewrite trimEnd_snoc, Hc. Qed.

Lemma trim_idemp (s : jsstring) : trim (trim s) = trim s.
Proof.
  destruct (trim_shape s) as [->|[(c & r & E1 & Hc) (r' & c' & E2 & Hc')]];
    [done|].
  unfold trim at 1. rewrite E1, (trimStart_fixed _ _ Hc), <- E1, E2.
  by apply trimEnd_fixed.
Qed.

Lemma trim_snoc_ws (s : jsstring) (w : N) :
  is_ws w = true → trim (s ++ [w]) = trim s.
Proof.
  intros Hw. unfold trim.
  destruct (trimStart_shape s) as (a & Ha & Hws & [Hs|(c & r & Hs & Hc)]).
  - rewrite Hs in *. rewrite app_nil_r in Ha. subst a.
    rewrite (trimStart_all_ws s [w] Hws). simpl. by rewrite Hw.
  - rewrite Ha at 1. rewrite <- app_assoc, (trimStart_all_ws _ _ Hws).
    rewrite Hs. simpl. rewrite Hc.
    change (c :: r ++ [w]) with ((c :: r) ++ [w]).
    by rewrite trimEnd_snoc, Hw.
Qed.

Lemma trim_nil : trim [] = [].
Proof. done. Qed.

(** ** Strings: splitting *)

Lemma split_on_cons (d : N) (s : jsstring) :
  ∃ l ls, split_on d s = l :: ls.
Proof.
  destruct s as [|c r]; simpl; [eauto|].
  destruct (c =? d)%N; [eauto|]. destruct (split_on d r); eauto.
Qed.

Lemma split_lines_cons (s : jsstring) : ∃ l ls, split_lines s = l :: ls.
Proof.
  induction s as [|c r (l & ls & IH)]; simpl; [eauto|].
  destruct (c =? LF)%N; [eauto|].
  destruct (_ && _); [eauto|]. rewrite IH. eauto.
Qed.

Lemma split_lines_LF (r : jsstring) :
  split_lines (LF :: r) = [] :: split_lines r.
Proof. done. Qed.

Lemma split_lines_CRLF (r : jsstring) :
  split_lines (CR :: LF :: r) = [] :: split_lines r.
Proof. done. Qed.

Lemma split_lines_other (c : N) (r : jsstring) :
  c ≠ LF → ¬ (c = CR ∧ head r = Some LF) →
  split_lines (c :: r) =
    match split_lines r with l :: ls => (c :: l) :: ls | [] => [[c]] end.
Proof.
  intros H1 H2. simpl.
  destruct (N.eqb_spec c LF) as [|_]; [done|].
  destruct (N.eqb_spec c CR) as [->|_]; [|done].
  simpl. case_bool_decide; [|done]. naive_solver.
Qed.

(** Appending a code unit that is not the separator extends the last
    field. *)
Lemma split_on_snoc (d x : N) (s : jsstring) :
  x ≠ d →
  ∃ fs f, split_on d s = fs ++ [f] ∧ split_on d (s ++ [x]) = fs ++ [f ++ [x]].
Proof.
  intros Hx. induction s as [|c r (fs & f & E1 & E2)]; simpl.
  - destruct (N.eqb_spec x d); [done|]. by exists [], [].
  - destruct (c =? d)%N.
    + exists ([] :: fs), f. by rewrite E1, E2.
    + rewrite E1, E2. destruct fs as [|f0 fs]; simpl.
      * by exists [], (c :: f).
      * by exists ((c :: f0) :: fs), f.
Qed.


Lemma crlf_app (s t : jsstring) : crlf (s ++ t) = crlf s ++ crlf t.
Proof.
  induction s as [|c r IH]; simpl; [done|].
  destruct (c =? LF)%N; simpl; by rewrite IH.
Qed.

Lemma crlf_nil_inv (s : jsstring) : crlf s = [] → s = [].
Proof. destruct s as [|c r]; simpl; [done|]. by destruct (c =? LF)%N. Qed.

Lemma head_crlf (s : jsstring) : head (crlf s) ≠ Some LF.
Proof.
  destruct s as [|c r]; simpl; [done|].
  destruct (N.eqb_spec c LF); simpl; [done|congruence].
Qed.

Lemma is_ws_CR : is_ws CR = true.
Proof. done. Qed.

Lemma is_ws_LF : is_ws LF = true.
Proof. done. Qed.

Lemma trimStart_crlf (s : jsstring) :
  trimStart (crlf s) = crlf (trimStart s).
Proof.
  induction s as [|c r IH]; simpl; [done|].
  destruct (N.eqb_spec c LF) as [->|Hc]; simpl; [done|].
  destruct (is_ws c); simpl; [done|].
  destruct (N.eqb_spec c LF); done.
Qed.

Lemma trimEnd_crlf (s : jsstring) : trimEnd (crlf s) = crlf (trimEnd s).
Proof.
  induction s as [|c r IH] using rev_ind; [done|].
  rewrite crlf_app, trimEnd_snoc. simpl.
  destruct (N.eqb_spec c LF) as [->|Hc].
  - change (crlf r ++ [CR; LF]) with (crlf r ++ [CR] ++ [LF]).
    by rewrite app_assoc, !trimEnd_snoc.
  - rewrite trimEnd_snoc. destruct (is_ws c); [done|].
    rewrite crlf_app. simpl. by destruct (N.eqb_spec c LF).
Qed.

Lemma trim_crlf (s : jsstring) : trim (crlf s) = crlf (trim s).
Proof. unfold trim. by rewrite trimStart_crlf, trimEnd_crlf. Qed.

Lemma same_upto_cr_cons (c : N) (l l' : jsstring) :
  same_upto_cr l l' → same_upto_cr (c :: l) (c :: l').
Proof. intros [->| ->]; [by left|by right]. Qed.

(** The lines of the carriage return, line feed form are the lines of the
    line feed form, up to one trailing carriage return each. *)
Lemma split_lines_crlf (s : jsstring) :
  Forall2 same_upto_cr (split_lines s) (split_lines (crlf s)).
Proof.
  induction s as [|c r IH].
  - repeat constructor.
  - destruct (decide (c = LF)) as [->|Hc].
    { simpl crlf. rewrite split_lines_LF, split_lines_CRLF.
      constructor; [by left|done]. }
    assert (crlf (c :: r) = c :: crlf r) as ->.
    { simpl. by destruct (N.eqb_spec c LF). }
    destruct (decide (c = CR ∧ head r = Some LF)) as [[-> Hr]|Hn].
    + destruct r as [|c' r']; [done|]. injection Hr as ->.
      change (crlf (LF :: r')) with (CR :: LF :: crlf r') in *.
      rewrite split_lines_CRLF.
      rewrite (split_lines_other CR (CR :: LF :: crlf r'));
        [|done|by intros [_ ?]].
      rewrite split_lines_CRLF.
      rewrite split_lines_LF, split_lines_CRLF in IH.
      apply Forall2_cons_1 in IH as [_ IH].
      constructor; [by right|done].
    + rewrite !split_lines_other; [|done| |done..].
      2: { intros [_ H]. by apply head_crlf in H. }
      destruct IH as [|l l' ls ls' Hl Hls]; [repeat constructor; by left|].
      constructor; [by apply same_upto_cr_cons|done].
Qed.

Lemma split_on_LF_crlf (s : jsstring) :
  Forall2 same_upto_cr (split_on LF s) (split_on LF (crlf s)).
Proof.
  induction s as [|c r IH]; simpl.
  - repeat constructor.
  - destruct (N.eqb_spec c LF) as [->|Hc]; simpl.
    + destruct (split_on_cons LF (crlf r)) as (l & ls & E).
      constructor; [by right|done].
    + destruct (N.eqb_spec c LF); [done|].
      destruct IH as [|l l' ls ls' Hl Hls]; [repeat constructor; by left|].
      constructor; [by apply same_upto_cr_cons|done].
Qed.

(** ** Delimiter resolver: properties *)


Lemma countChar_app (d : N) (s t : jsstring) :
  countChar d (s ++ t) = countChar d s + countChar d t.
Proof. unfold countChar. by rewrite filter_app, length_app. Qed.

Lemma countChar_same_upto_cr (d : N) (l l' : jsstring) :
  same_upto_cr l l' → d ≠ CR → countChar d l' = countChar d l.
Proof.
  intros [->| ->] Hd; [done|]. rewrite countChar_app.
  unfold countChar at 2. rewrite filter_cons_False; [simpl; lia|congruence].
Qed.

Lemma maxCount_same_upto_cr (l l' : jsstring) :
  same_upto_cr l l' → maxCount l' = maxCount l.
Proof.
  intros H. unfold maxCount, priority. simpl.
  by rewrite !(countChar_same_upto_cr _ l l' H).
Qed.

Lemma byCount_same_upto_cr (l l' : jsstring) :
  same_upto_cr l l' →
  (if decide (maxCount l' = 0) then TAB
   else default TAB
          (find (λ d, bool_decide (countChar d l' = maxCount l')) priority)) =
  (if decide (maxCount l = 0) then TAB
   else default TAB
          (find (λ d, bool_decide (countChar d l = maxCount l)) priority)).
Proof.
  intros H. unfold priority. simpl.
  by rewrite (maxCount_same_upto_cr l l' H), !(countChar_same_upto_cr _ l l' H).
Qed.

(** The choice by frequency, on the four counts. *)
Lemma byCount_spec (line : jsstring) (d : N) :
  d = (if decide (maxCount line = 0) then TAB
       else default TAB
              (find (λ d, bool_decide (countChar d line = maxCount line))
                 priority)) →
  d ∈ priority ∧
  (∀ c, c ∈ priority → countChar c line ≤ countChar d line) ∧
  (∀ c, before c d → countChar c line < countChar d line) ∧
  ((∀ c, c ∈ priority → countChar c line = 0) → d = TAB).
Proof.
  unfold maxCount, before, priority. simpl.
  set (a := countChar TAB line). set (b := countChar COMMA line).
  set (c := countChar SEMICOLON line). set (e := countChar PIPE line).
  intros Hd.
  assert (d = TAB ∧ b ≤ a ∧ c ≤ a ∧ e ≤ a ∨
          d = COMMA ∧ a < b ∧ c ≤ b ∧ e ≤ b ∨
          d = SEMICOLON ∧ a < c ∧ b < c ∧ e ≤ c ∨
          d = PIPE ∧ a < e ∧ b < e ∧ c < e) as Hcases.
  { set (m := a `max` (b `max` (c `max` (e `max` 0)))) in Hd.
    assert (a ≤ m ∧ b ≤ m ∧ c ≤ m ∧ e ≤ m ∧
            (m = a ∨ m = b ∨ m = c ∨ m = e)) as Hm by lia.
    clearbody m.
    case_decide; [left; split; [done|lia]|].
    case_bool_decide; [left; split; [done|lia]|].
    case_bool_decide; [right; left; split; [done|lia]|].
    case_bool_decide; [right; right; left; split; [done|lia]|].
    case_bool_decide; [right; right; right; split; [done|lia]|lia]. }
  clear Hd. subst a b c e.
  split; [|split; [|split]].
  - destruct Hcases as [[-> _]|[[-> _]|[[-> _]| [-> _]]]];
      set_unfold; tauto.
  - intros x Hx. set_unfold.
    destruct Hx as [->|[->|[->|[->|[]]]]];
      destruct Hcases as [[-> ?]|[[-> ?]|[[-> ?]| [-> ?]]]]; lia.
  - intros x (i & j & Hi & Hj & Hij).
    destruct Hcases as [[-> ?]|[[-> ?]|[[-> ?]| [-> ?]]]];
      do 5 (try destruct j as [|j]); try done;
      do 4 (try destruct i as [|i]); try lia;
      injection Hi as <-; lia.
  - intros Hz.
    pose proof (Hz TAB ltac:(repeat constructor)).
    pose proof (Hz COMMA ltac:(repeat constructor)).
    pose proof (Hz SEMICOLON ltac:(repeat constructor)).
    pose proof (Hz PIPE ltac:(repeat constructor)).
    destruct Hcases as [[-> ?]|[[-> ?]|[[-> ?]| [-> ?]]]]; [done|lia..].
Qed.

Lemma getDelimiter_priority (sel content filename : jsstring) :
  getDelimiter sel content filename ∈ priority.
Proof.
  unfold getDelimiter. case_bool_decide.
  - unfold delimiterMap, priority.
    repeat case_decide; simpl; set_unfold; tauto.
  - destruct (endsWith _ _); [unfold priority; set_unfold; tauto|].
    destruct (endsWith _ _); [unfold priority; set_unfold; tauto|].
    by destruct (byCount_spec (firstLine content) _ eq_refl) as [Hp _].
Qed.

Lemma priority_not_CR (d : N) : d ∈ priority → d ≠ CR.
Proof. unfold priority. set_unfold. intros [->|[->|[->|[->|[]]]]]; done. Qed.

Lemma firstLine_crlf (content : jsstring) :
  same_upto_cr (firstLine content) (firstLine (crlf content)).
Proof.
  unfold firstLine.
  destruct (split_lines_crlf content); [by left|done].
Qed.

Lemma getDelimiter_crlf (sel content filename : jsstring) :
  getDelimiter sel (crlf content) filename = getDelimiter sel content filename.
Proof.
  unfold getDelimiter. cbv zeta.
  by rewrite (byCount_same_upto_cr _ _ (firstLine_crlf content)).
Qed.

Lemma ScriptJs_firstLine_crlf (content : jsstring) :
  same_upto_cr (ScriptJs.firstLine content) (ScriptJs.firstLine (crlf content)).
Proof.
  unfold ScriptJs.firstLine.
  destruct (split_on_LF_crlf content); [by left|done].
Qed.

Lemma ScriptJs_getDelimiter_crlf (sel content filename : jsstring) :
  ScriptJs.getDelimiter sel (crlf content) filename =
  ScriptJs.getDelimiter sel content filename.
Proof.
  unfold ScriptJs.getDelimiter. cbv zeta.
  by rewrite (byCount_same_upto_cr _ _ (ScriptJs_firstLine_crlf content)).
Qed.

Lemma ScriptJs_getDelimiter_priority (sel content filename : jsstring) :
  ScriptJs.getDelimiter sel content filename ∈ priority.
Proof.
  unfold ScriptJs.getDelimiter. case_bool_decide.
  - unfold delimiterMap, priority.
    repeat case_decide; simpl; set_unfold; tauto.
  - destruct (endsWith _ _); [unfold priority; set_unfold; tauto|].
    destruct (endsWith _ _); [unfold priority; set_unfold; tauto|].
    by destruct (byCount_spec (ScriptJs.firstLine content) _ eq_refl) as [Hp _].
Qed.




(** The examples of the specification: three commas and one tab under
    [x.txt] resolve to the comma; under [x.csv] the extension wins over a
    content full of tabs. *)
Example getDelimiter_examples :
  getDelimiter (u "auto") (u "a,b,c,d" ++ [TAB] ++ u "e") (u "x.txt") = COMMA ∧
  getDelimiter (u "auto") (u "a" ++ [TAB; TAB; TAB] ++ u "b,c") (u "x.csv")
    = COMMA ∧
  getDelimiter (u "auto") (u "abc") (u "x.txt") = TAB ∧
  getDelimiter (u "auto") (u "a;b|c") (u "x.dat") = SEMICOLON.
Proof. by vm_compute. Qed.

(** ** Row parser: lines in either form *)

Lemma fillRow_ext (v v' : list jsstring) (hs : list jsstring) :
  (∀ i, trim (orEmpty (v' !! i)) = trim (orEmpty (v !! i))) →
  ∀ index row, fillRow v' index hs row = fillRow v index hs row.
Proof.
  intros Hv. induction hs as [|h hs IH]; intros index row; simpl; [done|].
  by rewrite Hv, IH.
Qed.

Lemma split_on_same_upto_cr_fields (d : N) (l l' : jsstring) (i : nat) :
  same_upto_cr l l' → d ≠ CR →
  trim (orEmpty (split_on d l' !! i)) = trim (orEmpty (split_on d l !! i)).
Proof.
  intros [->| ->] Hd; [done|].
  destruct (split_on_snoc d CR l) as (fs & f & -> & ->); [done|].
  destruct (decide (i < length fs)) as [Hi|Hi].
  - by rewrite !lookup_app_l.
  - rewrite !lookup_app_r by lia.
    destruct (i - length fs) as [|k]; simpl; [|done].
    by apply trim_snoc_ws.
Qed.

Lemma split_on_same_upto_cr_trimmed (d : N) (l l' : jsstring) :
  same_upto_cr l l' → d ≠ CR →
  map trim (split_on d l') = map trim (split_on d l).
Proof.
  intros [->| ->] Hd; [done|].
  destruct (split_on_snoc d CR l) as (fs & f & -> & ->); [done|].
  rewrite !map_app. simpl. by rewrite trim_snoc_ws.
Qed.

Lemma trim_same_upto_cr (l l' : jsstring) :
  same_upto_cr l l' → trim l' = trim l.
Proof. intros [->| ->]; [done|]. by apply trim_snoc_ws. Qed.

Lemma rowStep_same_upto_cr d hs acc (l l' : jsstring) :
  same_upto_cr l l' → rowStep d hs acc l' = rowStep d hs acc l.
Proof. intros H. unfold rowStep. by rewrite (trim_same_upto_cr _ _ H). Qed.

Lemma ScriptJs_rowStep_same_upto_cr d hs acc (l l' : jsstring) :
  same_upto_cr l l' → d ≠ CR →
  ScriptJs.rowStep d hs acc l' = ScriptJs.rowStep d hs acc l.
Proof.
  intros H Hd. unfold ScriptJs.rowStep. cbv zeta.
  rewrite (fillRow_ext (split_on d l) (split_on d l')); [done|].
  intros i. by apply split_on_same_upto_cr_fields.
Qed.

Lemma fold_left_related {A B} (R : B → B → Prop) (f : A → B → A)
    (ls ls' : list B) :
  Forall2 R ls ls' →
  (∀ acc l l', R l l' → f acc l' = f acc l) →
  ∀ acc, fold_left f ls' acc = fold_left f ls acc.
Proof.
  intros HF Hf. induction HF as [|l l' ls ls' Hl _ IH]; intros acc; simpl;
    [done|].
  by rewrite (Hf _ _ _ Hl), IH.
Qed.

Lemma Forall2_hd_tl {A} (R : A → A → Prop) (dflt : A) (ls ls' : list A) :
  R dflt dflt → Forall2 R ls ls' →
  R (hd dflt ls) (hd dflt ls') ∧ Forall2 R (tl ls) (tl ls').
Proof. intros Hd [|]; simpl; auto. Qed.

Lemma parseFile_main_crlf (sel content filename : jsstring) :
  parseFile sel (crlf content) filename = parseFile sel content filename.
Proof.
  unfold parseFile. rewrite trim_crlf, getDelimiter_crlf.
  set (t := trim content). set (d := getDelimiter sel content filename).
  assert (d ≠ CR) as Hd by apply priority_not_CR, getDelimiter_priority.
  destruct (decide (t = [])) as [->|Ht]; [done|].
  destruct (decide (crlf t = [])) as [Hc|_]; [by apply crlf_nil_inv in Hc|].
  pose proof (split_lines_crlf t) as HF. cbv zeta.
  rewrite <- (Forall2_length _ _ _ HF).
  destruct (Forall2_hd_tl same_upto_cr [] _ _ (or_introl eq_refl) HF)
    as [Hh Htl].
  rewrite (split_on_same_upto_cr_trimmed d _ _ Hh Hd).
  rewrite (fold_left_related same_upto_cr _ _ _ Htl); [done|].
  intros acc l l' Hl. by apply rowStep_same_upto_cr.
Qed.

Lemma parseFile_script_crlf (sel content filename : jsstring) :
  ScriptJs.parseFile sel (crlf content) filename =
  ScriptJs.parseFile sel content filename.
Proof.
  unfold ScriptJs.parseFile. rewrite trim_crlf, ScriptJs_getDelimiter_crlf.
  set (t := trim content).
  set (d := ScriptJs.getDelimiter sel content filename).
  assert (d ≠ CR) as Hd
    by apply priority_not_CR, ScriptJs_getDelimiter_priority.
  pose proof (split_on_LF_crlf t) as HF. cbv zeta.
  rewrite <- (Forall2_length _ _ _ HF).
  destruct (Forall2_hd_tl same_upto_cr [] _ _ (or_introl eq_refl) HF)
    as [Hh Htl].
  rewrite (split_on_same_upto_cr_trimmed d _ _ Hh Hd).
  rewrite (fold_left_related same_upto_cr _ _ _ Htl); [done|].
  intros acc l l' Hl. by apply ScriptJs_rowStep_same_upto_cr.
Qed.

(** C9.  Parsing a content whose line breaks are carriage return, line feed
    gives the same outcome (the same headers, rows and delimiter label, or
    the same error) as parsing the content with line feeds, for every
    content, filename and delimiter selection, in the main parser and in
    the parser of [script.js]. *)
Theorem parseFile_crlf (sel content filename : jsstring) :
  parseFile sel (crlf content) filename = parseFile sel content filename ∧
  ScriptJs.parseFile sel (crlf content) filename =
    ScriptJs.parseFile sel content filename.
Proof. split; [apply parseFile_main_crlf|apply parseFile_script_crlf]. Qed.

(** ** Row parser: rows *)

Lemma lastIndexOf_None (h : jsstring) (hs : list jsstring) :
  lastIndexOf h hs = None ↔ h ∉ hs.
Proof.
  induction hs as [|x hs IH]; simpl.
  - split; [intros _; apply not_elem_of_nil|done].
  - rewrite not_elem_of_cons. destruct (lastIndexOf h hs) as [j|].
    + split; [done|]. intros [_ Hn]. by apply IH in Hn.
    + rewrite <- IH. case_decide as Hx; [|by split; [|intros []]].
      split; [done|]. by intros [? _].
Qed.

Lemma lastIndexOf_Some_1 (h : jsstring) (hs : list jsstring) (j : nat) :
  lastIndexOf h hs = Some j →
  hs !! j = Some h ∧ ∀ k, j < k → hs !! k ≠ Some h.
Proof.
  revert j. induction hs as [|x hs IH]; intros j; simpl; [done|].
  destruct (lastIndexOf h hs) as [j'|] eqn:E.
  - intros [= <-]. destruct (IH j' eq_refl) as [H1 H2]. split; [done|].
    intros [|k] Hk; [lia|]. simpl. apply H2. lia.
  - case_decide as Hx; [|done]. intros [= <-]. subst x. split; [done|].
    intros [|k] Hk; [lia|]. simpl. intros Hk'.
    apply lastIndexOf_None in E. apply E. by eapply list_elem_of_lookup_2.
Qed.

Lemma lastIndexOf_Some (h : jsstring) (hs : list jsstring) (j : nat) :
  lastIndexOf h hs = Some j ↔
  hs !! j = Some h ∧ ∀ k, j < k → hs !! k ≠ Some h.
Proof.
  split; [apply lastIndexOf_Some_1|]. intros [H1 H2].
  destruct (lastIndexOf h hs) as [j'|] eqn:E.
  - apply lastIndexOf_Some_1 in E as [H1' H2']. f_equal.
    destruct (Nat.lt_trichotomy j j') as [Hlt|[->|Hlt]]; [|done|].
    + by apply H2 in Hlt.
    + by apply H2' in Hlt.
  - apply lastIndexOf_None in E. exfalso. apply E.
    by eapply list_elem_of_lookup_2.
Qed.

Lemma PROTO_member : PROTO ∈ Object_prototype.
Proof. unfold Object_prototype. do 10 right. left. Qed.

Lemma Object_set_lookup (name value : jsstring) (row : record)
    (h : jsstring) :
  row !! PROTO = None →
  Object_set name value row !! h =
    if decide (h = name ∧ name ≠ PROTO) then Some value else row !! h.
Proof.
  intros Hrow. unfold Object_set.
  destruct (decide (name = PROTO)) as [->|Hname].
  - rewrite decide_True by done. by rewrite decide_False by (by intros [_ ?]).
  - rewrite decide_False by (by intros [? _]).
    destruct (decide (h = name)) as [->|Hne].
    + by rewrite lookup_insert_eq, decide_True.
    + rewrite lookup_insert_ne by done.
      by rewrite decide_False by (by intros [? _]).
Qed.

Lemma Object_set_no_proto (name value : jsstring) (row : record) :
  row !! PROTO = None → Object_set name value row !! PROTO = None.
Proof.
  intros Hrow. rewrite Object_set_lookup by done.
  by rewrite decide_False by (intros [<- ?]; done).
Qed.

(** A name is filled from the field at the position of its last
    occurrence among the headers; nothing is stored under [__proto__]. *)
Lemma fillRow_lookup_from (values hs : list jsstring) (h : jsstring) :
  ∀ index row, row !! PROTO = None →
  fillRow values index hs row !! h =
    match lastIndexOf h hs with
    | Some j =>
        if decide (h = PROTO) then None
        else Some (trim (orEmpty (values !! (index + j))))
    | None => row !! h
    end.
Proof.
  induction hs as [|x hs IH]; intros index row Hrow; simpl; [done|].
  rewrite IH by by apply Object_set_no_proto.
  destruct (lastIndexOf h hs) as [j|].
  - by replace (S index + j) with (index + S j) by lia.
  - rewrite Object_set_lookup by done.
    destruct (decide (x = h)) as [->|Hx].
    + rewrite Nat.add_0_r. destruct (decide (h = PROTO)) as [->|Hh].
      * by rewrite decide_False by (by intros [_ ?]).
      * by rewrite decide_True.
    + by rewrite decide_False by (by intros [-> _]).
Qed.

Lemma fillRow_lookup (values hs : list jsstring) (h : jsstring) :
  fillRow values 0 hs ∅ !! h =
    match lastIndexOf h hs with
    | Some j =>
        if decide (h = PROTO) then None
        else Some (trim (orEmpty (values !! j)))
    | None => None
    end.
Proof. by rewrite fillRow_lookup_from, lookup_empty. Qed.

Lemma fillRow_dom (values hs : list jsstring) :
  dom (fillRow values 0 hs ∅) = list_to_set hs ∖ {[PROTO]}.
Proof.
  apply set_eq. intros h.
  rewrite elem_of_dom, fillRow_lookup, elem_of_difference,
    elem_of_list_to_set, not_elem_of_singleton.
  destruct (lastIndexOf h hs) as [j|] eqn:E.
  - apply lastIndexOf_Some in E as [E _].
    apply list_elem_of_lookup_2 in E.
    case_decide as Hh.
    + split; [by intros ?%is_Some_None|by intros [_ ?]].
    + split; [done|by eauto].
  - apply lastIndexOf_None in E. split; [by intros ?%is_Some_None|].
    by intros [? _].
Qed.

Lemma size_list_to_set_le (hs : list jsstring) :
  size (list_to_set hs : gset jsstring) ≤ length hs ∧
  (¬ NoDup hs → size (list_to_set hs : gset jsstring) < length hs).
Proof.
  induction hs as [|x hs [IH1 IH2]].
  - split; [done|]. intros H. destruct H. constructor.
  - rewrite list_to_set_cons. simpl length.
    destruct (decide (x ∈ hs)) as [Hx|Hx].
    + replace ({[x]} ∪ list_to_set hs : gset jsstring)
        with (list_to_set hs : gset jsstring) by set_solver.
      split; [lia|]. intros _. lia.
    + rewrite size_union by set_solver. rewrite size_singleton.
      split; [lia|]. intros Hn.
      assert (¬ NoDup hs) as Hn'%IH2; [|lia].
      intros Hnd. apply Hn. by constructor.
Qed.

Lemma someValue_iff (row : record) :
  someValue row = true ↔ ∃ h v, row !! h = Some v ∧ v ≠ [].
Proof.
  unfold someValue, Object_values. rewrite existsb_exists. split.
  - intros (v & Hin & Hv). apply bool_decide_eq_true in Hv.
    apply list_elem_of_In, list_elem_of_fmap in Hin as ([h v'] & -> & Hin).
    apply elem_of_map_to_list in Hin. eauto.
  - intros (h & v & Hl & Hv). exists v. split.
    + apply list_elem_of_In, list_elem_of_fmap. exists (h, v).
      split; [done|]. by apply elem_of_map_to_list.
    + by apply bool_decide_eq_true.
Qed.

Lemma rowOfLine_Some (d : N) (hs : list jsstring) (line : jsstring)
    (row : record) :
  rowOfLine d hs line = Some row ↔
  trim line ≠ [] ∧ row = fillRow (split_on d (trim line)) 0 hs ∅ ∧
  someValue row = true.
Proof.
  unfold rowOfLine. case_decide as Hl; [naive_solver|].
  destruct (someValue (fillRow _ _ _ _)) eqn:Hs.
  - split; [intros [= <-]; auto|]. by intros (_ & -> & _).
  - split; [done|]. intros (_ & -> & Hs'). congruence.
Qed.

(** The loop over the data lines keeps the rows of the surviving lines in
    the order of the lines. *)
Lemma rows_fold (d : N) (hs : list jsstring) (ls : list jsstring) :
  ∀ acc,
  fold_left (rowStep d hs) ls acc = acc ++ omap (rowOfLine d hs) ls.
Proof.
  induction ls as [|l ls IH]; intros acc; simpl; [by rewrite app_nil_r|].
  rewrite IH. unfold rowStep, rowOfLine. cbv zeta.
  case_decide; [done|]. destruct (someValue _); [|done].
  by rewrite <- app_assoc.
Qed.

Lemma existsb_empty_header (hs : list jsstring) :
  existsb (λ header, bool_decide (header = [])) hs = true ↔ [] ∈ hs.
Proof.
  rewrite existsb_exists. split.
  - intros (h & Hin & ->%bool_decide_eq_true). by apply list_elem_of_In.
  - intros Hin. exists []. split; [by apply list_elem_of_In|done].
Qed.

(** The outcome of [parseFile], check by check. *)
Lemma parseFile_outcome (sel content filename : jsstring) :
  let lines := split_lines (trim content) in
  let delim := getDelimiter sel content filename in
  let hs := map trim (split_on delim (hd [] lines)) in
  let rs := omap (rowOfLine delim hs) (tl lines) in
  parseFile sel content filename =
    if decide (trim content = []) then inl FileIsEmpty
    else if decide (length lines < 2) then inl HeaderAndDataNeeded
    else if decide ([] ∈ hs) then inl EmptyHeaderPresent
    else if decide (rs = []) then inl NoDataRows
    else inr {| headers := hs; rows := rs;
                delimiter := getDelimiterName delim |}.
Proof.
  intros lines delim hs rs. unfold parseFile. cbv zeta.
  fold lines delim hs. rewrite rows_fold. simpl app. fold rs.
  destruct (decide (trim content = [])); [done|].
  destruct (decide (length lines < 2)); [done|].
  destruct (existsb _ hs) eqn:E.
  - apply existsb_empty_header in E. by rewrite decide_True.
  - rewrite (decide_False (P := [] ∈ hs))
      by (rewrite <- existsb_empty_header; congruence).
    destruct rs; [by rewrite !decide_True|by rewrite !decide_False].
Qed.




(** Which data lines give a row. *)
Lemma rowOfLine_survives (d : N) (hs : list jsstring) (line : jsstring) :
  is_Some (rowOfLine d hs line) ↔ survives d hs line.
Proof.
  unfold survives. split.
  - intros [row (Ht & -> & (h & v & Hv & Hne)%someValue_iff)%rowOfLine_Some].
    split; [done|]. rewrite fillRow_lookup in Hv.
    destruct (lastIndexOf h hs) as [j|] eqn:E; [|done].
    apply lastIndexOf_Some in E. case_decide; [done|].
    exists h, j. split; [done|]. split; [done|]. by injection Hv as ->.
  - intros (Ht & h & j & Hh & Hl%lastIndexOf_Some & Hne).
    eexists. apply rowOfLine_Some. split; [done|]. split; [done|].
    apply someValue_iff. exists h. eexists. split; [|exact Hne].
    by rewrite fillRow_lookup, Hl, decide_False.
Qed.


(** The parser of [script.js] fails on the line count alone. *)
Lemma ScriptJs_parseFile_fails_iff (sel content filename : jsstring) :
  (∃ e, ScriptJs.parseFile sel content filename = inl e) ↔
  length (split_on LF (trim content)) < 2.
Proof.
  unfold ScriptJs.parseFile. cbv zeta. case_decide.
  - split; [done|by eauto].
  - split; [by intros [e ?]|done].
Qed.

Lemma parseFile_inr (sel content filename : jsstring) (data : ParsedDataset) :
  parseFile sel content filename = inr data →
  let lines := split_lines (trim content) in
  let delim := getDelimiter sel content filename in
  let hs := map trim (split_on delim (hd [] lines)) in
  ([] ∉ hs) ∧
  omap (rowOfLine delim hs) (tl lines) ≠ [] ∧
  data = {| headers := hs;
            rows := omap (rowOfLine delim hs) (tl lines);
            delimiter := getDelimiterName delim |}.
Proof.
  rewrite parseFile_outcome. cbv zeta.
  repeat case_decide; try done. by intros [= <-].
Qed.

Lemma trimmed_fields_cons (d : N) (s : jsstring) :
  map trim (split_on d s) ≠ [].
Proof. by destruct (split_on_cons d s) as (l & ls & ->). Qed.

Lemma trimmed_cells (values hs : list jsstring) (row : record) h v :
  row = fillRow values 0 hs ∅ → row !! h = Some v → trim v = v.
Proof.
  intros -> Hl. rewrite fillRow_lookup in Hl.
  destruct (lastIndexOf h hs); [|done]. case_decide; [done|].
  injection Hl as <-. apply trim_idemp.
Qed.

(** X15.  A dataset returned by [parseFile] has a header and a row; the
    rows are those of the surviving lines, in the order of the lines; a row
    owns exactly the headers other than [__proto__], each with the trimmed
    field at the last position of the header, the empty string where the
    line is too short; under [__proto__] it owns nothing; and no row has
    only empty values. *)
Theorem parseFile_dataset (sel content filename : jsstring)
    (data : ParsedDataset) :
  parseFile sel content filename = inr data →
  let lines := split_lines (trim content) in
  let delim := getDelimiter sel content filename in
  headers data ≠ [] ∧ rows data ≠ [] ∧
  rows data = omap (rowOfLine delim (headers data)) (tl lines) ∧
  (∀ row, row ∈ rows data →
     dom row = list_to_set (headers data) ∖ {[PROTO]} ∧
     (∀ h, h ∈ headers data → h ≠ PROTO →
        ∃ v, row !! h = Some v ∧ trim v = v) ∧
     row !! PROTO = None ∧
     (∃ h v, row !! h = Some v ∧ v ≠ [])) ∧
  (∀ line row, rowOfLine delim (headers data) line = Some row →
     survives delim (headers data) line ∧
     ∀ i h, headers data !! i = Some h →
       (∀ k, i < k → headers data !! k ≠ Some h) → h ≠ PROTO →
       row !! h = Some (trim (orEmpty (split_on delim (trim line) !! i))) ∧
       (length (split_on delim (trim line)) ≤ i → row !! h = Some [])).
Proof.
  intros (Hh & Hr & ->)%parseFile_inr. cbv zeta. simpl.
  set (delim := getDelimiter sel content filename) in *.
  set (hs := map trim (split_on delim (hd [] (split_lines (trim content)))))
    in *.
  split; [|split; [done|split; [done|split]]].
  - apply trimmed_fields_cons.
  - intros row (line & _ & (_ & Hrow & Hsome)%rowOfLine_Some)%list_elem_of_omap.
    split; [|split; [|split]].
    + by rewrite Hrow, fillRow_dom.
    + intros h Hin Hne. assert (is_Some (row !! h)) as [v Hv].
      { apply elem_of_dom. rewrite Hrow, fillRow_dom. set_solver. }
      exists v. split; [done|]. by eapply trimmed_cells.
    + apply not_elem_of_dom. rewrite Hrow, fillRow_dom. set_solver.
    + by apply someValue_iff.
  - intros line row Hrow. split; [apply rowOfLine_survives; by eauto|].
    apply rowOfLine_Some in Hrow as (_ & -> & _). intros i h Hi Hlast Hne.
    assert (lastIndexOf h hs = Some i) as Hl by by apply lastIndexOf_Some.
    rewrite fillRow_lookup, Hl, decide_False by done. split; [done|].
    intros Hlen. by rewrite lookup_ge_None_2.
Qed.

(** C7, at the failing input.  For the content [id,__proto__] / [1,y] the
    parser returns the header [__proto__] and a row that owns [id] only:
    the row maps the header [__proto__] to no value. *)
Example proto_header_not_stored :
  parseFile (u "auto") (u "id,__proto__" ++ [LF] ++ u "1,y") (u "f.csv")
  = inr {| headers := [u "id"; PROTO];
           rows := [row_of [("id", "1")]];
           delimiter := getDelimiterName COMMA |} ∧
  PROTO ∈ [u "id"; PROTO] ∧
  row_of [("id", "1")] !! PROTO = None.
Proof. split; [by vm_compute|]. split; [by right; left|by vm_compute]. Qed.

Lemma fillRow_collapsed_ext (values values' hs : list jsstring) :
  (∀ h j, lastAt hs h j →
     trim (orEmpty (values' !! j)) = trim (orEmpty (values !! j))) →
  fillRow values' 0 hs ∅ = fillRow values 0 hs ∅.
Proof.
  intros H. apply map_eq. intros h. rewrite !fillRow_lookup.
  destruct (lastIndexOf h hs) as [j|] eqn:E; [|done].
  apply lastIndexOf_Some in E. case_decide; [done|]. f_equal. by apply (H h).
Qed.

Lemma fillRow_size (values hs : list jsstring) :
  size (fillRow values 0 hs ∅) ≤ length hs ∧
  (¬ NoDup hs → size (fillRow values 0 hs ∅) < length hs).
Proof.
  rewrite <- size_dom, fillRow_dom.
  assert (size (list_to_set hs ∖ {[PROTO]} : gset jsstring)
          ≤ size (list_to_set hs : gset jsstring))
    by (apply subseteq_size; set_solver).
  destruct (size_list_to_set_le hs) as [H1 H2]. split; [lia|].
  intros Hn%H2. lia.
Qed.

(** X16.  When a column name other than [__proto__] occurs more than once
    among the headers, a row holds one entry for it, the trimmed field at
    the position of the last occurrence; the row then has fewer entries
    than there are headers; whether the row survives and what the diff
    compares depend on these entries only, not on the fields at the earlier
    positions.  Under [__proto__] a row holds nothing, however often the
    name occurs. *)
Theorem duplicate_headers_collapse (sel content filename : jsstring)
    (data : ParsedDataset) :
  parseFile sel content filename = inr data →
  let hs := headers data in
  let delim := getDelimiter sel content filename in
  rows data = omap (rowOfLine delim hs) (tl (split_lines (trim content))) ∧
  (∀ line row,
     rowOfLine delim hs line = Some row ↔
     row = fillRow (split_on delim (trim line)) 0 hs ∅ ∧
     survives delim hs line) ∧
  (∀ values,
     let row := fillRow values 0 hs ∅ in
     (∀ h j, lastAt hs h j → h ≠ PROTO →
        row !! h = Some (trim (orEmpty (values !! j))) ∧
        cell row h = trim (orEmpty (values !! j))) ∧
     (∀ h, h ∉ hs ∨ h = PROTO → row !! h = None) ∧
     size row ≤ length hs ∧
     (¬ NoDup hs → size row < length hs) ∧
     (∀ values',
        (∀ h j, lastAt hs h j → h ≠ PROTO →
           trim (orEmpty (values' !! j)) = trim (orEmpty (values !! j))) →
        fillRow values' 0 hs ∅ = row)).
Proof.
  intros (Hh & Hr & ->)%parseFile_inr. cbv zeta. simpl.
  set (delim := getDelimiter sel content filename) in *.
  set (hs := map trim (split_on delim (hd [] (split_lines (trim content)))))
    in *.
  assert (∀ values h j, lastAt hs h j → h ≠ PROTO →
            fillRow values 0 hs ∅ !! h = Some (trim (orEmpty (values !! j))))
    as Hlookup.
  { intros values h j Hl%lastIndexOf_Some Hne.
    by rewrite fillRow_lookup, Hl, decide_False. }
  split; [done|]. split.
  - intros line row. split.
    + intros Hrow. split; [by apply rowOfLine_Some in Hrow as (_ & -> & _)|].
      apply rowOfLine_survives. by eauto.
    + intros [-> Hs]. pose proof Hs as [row Hrow]%rowOfLine_survives.
      by pose proof Hrow as (_ & -> & _)%rowOfLine_Some.
  - intros values. split; [|split; [|split; [|split]]].
    + intros h j Hl Hne. split; [by apply Hlookup|].
      unfold cell. rewrite (Hlookup _ _ _ Hl Hne). apply trim_idemp.
    + intros h Hn. rewrite fillRow_lookup.
      destruct Hn as [Hn%lastIndexOf_None| ->]; [by rewrite Hn|].
      destruct (lastIndexOf PROTO hs); [by rewrite decide_True|done].
    + apply fillRow_size.
    + apply fillRow_size.
    + intros values' H. apply map_eq. intros h. rewrite !fillRow_lookup.
      destruct (lastIndexOf h hs) as [j|] eqn:E; [|done].
      apply lastIndexOf_Some in E. case_decide; [done|]. f_equal.
      by apply (H h).
Qed.

(** C10, at the failing input.  With the header [__proto__] twice, the
    record holds no entry for the name, where the specification has one with
    the field of the last occurrence, [y]. *)
Example duplicate_proto_header :
  parseFile (u "auto")
    (u "a,__proto__,__proto__" ++ [LF] ++ u "1,x,y") (u "f.csv")
  = inr {| headers := [u "a"; PROTO; PROTO];
           rows := [row_of [("a", "1")]];
           delimiter := getDelimiterName COMMA |} ∧
  lastAt [u "a"; PROTO; PROTO] PROTO 2 ∧
  row_of [("a", "1")] !! PROTO = None.
Proof.
  split; [by vm_compute|]. split; [|by vm_compute].
  split; [done|]. intros [|[|[|k]]] Hk; try lia; done.
Qed.

(** ** Diff engine: the indices *)

Lemma Map_get_set_eq (key : jsstring) (row : record) (m : jsmap) :
  Map_get key (Map_set key row m) = Some row.
Proof.
  induction m as [|[k v] m IH]; simpl.
  - by rewrite decide_True.
  - case_decide as Hk; simpl; [by rewrite decide_True|].
    by rewrite decide_False.
Qed.

Lemma Map_get_set_ne (key key' : jsstring) (row : record) (m : jsmap) :
  key ≠ key' → Map_get key' (Map_set key row m) = Map_get key' m.
Proof.
  intros Hne. induction m as [|[k v] m IH]; simpl.
  - by rewrite decide_False.
  - case_decide as Hk; simpl.
    + subst k. by rewrite !decide_False.
    + case_decide; [done|apply IH].
Qed.

Lemma Map_get_is_Some (key : jsstring) (m : jsmap) :
  is_Some (Map_get key m) ↔ key ∈ keys m.
Proof.
  unfold keys. induction m as [|[k v] m IH]; simpl.
  - split; [by intros [? ?]|by intros ?%elem_of_nil].
  - rewrite elem_of_cons. case_decide as Hk.
    + split; [by left|by eauto].
    + rewrite IH. naive_solver.
Qed.

Lemma Map_has_true (key : jsstring) (m : jsmap) :
  Map_has key m = true ↔ key ∈ keys m.
Proof. unfold Map_has. by rewrite bool_decide_eq_true, Map_get_is_Some. Qed.

Lemma Map_has_false (key : jsstring) (m : jsmap) :
  Map_has key m = false ↔ key ∉ keys m.
Proof. by rewrite <- Map_has_true, not_true_iff_false. Qed.

Lemma Map_get_elem (key : jsstring) (row : record) (m : jsmap) :
  Map_get key m = Some row → (key, row) ∈ m.
Proof.
  induction m as [|[k v] m IH]; simpl; [done|].
  case_decide as Hk.
  - intros [= ->]. subst. by left.
  - intros H. right. by apply IH.
Qed.

Lemma Map_elem_get (key : jsstring) (row : record) (m : jsmap) :
  NoDup (keys m) → (key, row) ∈ m → Map_get key m = Some row.
Proof.
  unfold keys. induction m as [|[k v] m IH]; simpl.
  - by intros _ ?%elem_of_nil.
  - intros [Hk Hnd]%NoDup_cons [[= -> ->]|Hin]%elem_of_cons.
    + by case_decide.
    + case_decide as Hkk; [|by apply IH]. subst k. destruct Hk.
      apply list_elem_of_fmap. by exists (key, row).
Qed.

Lemma keys_Map_set_in (key : jsstring) (row : record) (m : jsmap) :
  key ∈ keys m → keys (Map_set key row m) = keys m.
Proof.
  unfold keys. induction m as [|[k v] m IH]; csimpl.
  - by intros ?%elem_of_nil.
  - intros Hin. case_decide as Hk; csimpl; [by subst k|].
    rewrite IH; [done|]. apply elem_of_cons in Hin as [?|?]; [by subst|done].
Qed.

Lemma keys_Map_set_notin (key : jsstring) (row : record) (m : jsmap) :
  key ∉ keys m → keys (Map_set key row m) = keys m ++ [key].
Proof.
  unfold keys. induction m as [|[k v] m IH]; csimpl; [done|].
  intros [Hk Hin]%not_elem_of_cons.
  case_decide; [by subst|]. csimpl. by rewrite IH.
Qed.

Lemma elem_of_Map_set (k key : jsstring) (r row : record) (m : jsmap) :
  (k, r) ∈ Map_set key row m → (k = key ∧ r = row) ∨ (k, r) ∈ m.
Proof.
  induction m as [|[k' v'] m IH]; simpl.
  - intros [[= -> ->]|?%elem_of_nil]%elem_of_cons; [by left|done].
  - case_decide as Hk.
    + intros [[= -> ->]|?]%elem_of_cons; [by left|]. right. by right.
    + intros [[= -> ->]|?]%elem_of_cons; [right; by left|].
      destruct IH as [?|?]; [done|by left|]. right. by right.
Qed.

Lemma NoDup_keys_Map_set (key : jsstring) (row : record) (m : jsmap) :
  NoDup (keys m) → NoDup (keys (Map_set key row m)).
Proof.
  intros Hnd. destruct (decide (key ∈ keys m)) as [Hin|Hin];
    [by rewrite keys_Map_set_in|].
  rewrite keys_Map_set_notin by done. apply NoDup_app. split; [done|]. split; [|apply NoDup_singleton].
  intros x Hx Hx'%list_elem_of_singleton. by subst x.
Qed.

Lemma buildIndex_snoc (keyColumn : jsstring) (rs : list record)
    (row : record) :
  Own.buildIndex keyColumn (rs ++ [row]) =
  Own.indexStep keyColumn (Own.buildIndex keyColumn rs) row.
Proof. unfold Own.buildIndex. by rewrite fold_left_app. Qed.

(** The row a key is filed under: the step files a row under the value of
    its key column unless that value is missing or blank. *)
Lemma indexStep_cases (keyColumn : jsstring) (m : jsmap) (row : record) :
  (∃ key, row !! keyColumn = Some key ∧ trim key ≠ [] ∧
          Own.indexStep keyColumn m row = Map_set key row m) ∨
  ((∀ key, row !! keyColumn = Some key → trim key = []) ∧
   Own.indexStep keyColumn m row = m).
Proof.
  unfold Own.indexStep. destruct (row !! keyColumn) as [key|]; [|right; done].
  destruct (decide (trim key = [])) as [Hb|Hb].
  - right. split; [by intros ? [= <-]|].
    rewrite (bool_decide_eq_false_2 (trim key ≠ [])) by auto.
    by rewrite andb_false_r.
  - left. exists key. split; [done|]. split; [done|].
    rewrite (bool_decide_eq_true_2 (trim key ≠ [])) by done.
    rewrite bool_decide_eq_true_2; [done|]. by intros ->.
Qed.

Lemma buildIndex_entries (keyColumn : jsstring) (rs : list record) :
  let idx := Own.buildIndex keyColumn rs in
  NoDup (keys idx) ∧
  (∀ key row, (key, row) ∈ idx →
     row ∈ rs ∧ row !! keyColumn = Some key ∧ trim key ≠ []) ∧
  (∀ row key, row ∈ rs → row !! keyColumn = Some key → trim key ≠ [] →
     key ∈ keys idx).
Proof.
  induction rs as [|row rs (IH1 & IH2 & IH3)] using rev_ind.
  - split; [constructor|]. split; [by intros ?? ?%elem_of_nil|].
    by intros ?? ?%elem_of_nil.
  - cbv zeta. rewrite buildIndex_snoc.
    destruct (indexStep_cases keyColumn (Own.buildIndex keyColumn rs) row)
      as [(key & Hkey & Hnb & ->)|[Hblank ->]].
    + split; [by apply NoDup_keys_Map_set|]. split.
      * intros k r [[-> ->]|Hin]%elem_of_Map_set.
        { split; [|done]. apply elem_of_app. right. by left. }
        destruct (IH2 k r Hin) as (? & ? & ?).
        split; [|done]. apply elem_of_app. by left.
      * intros r k [Hin|Hr%list_elem_of_singleton]%elem_of_app Hk Hnbk;
          [|subst r].
        { apply Map_get_is_Some.
          destruct (decide (key = k)) as [->|Hne].
          - rewrite Map_get_set_eq. eauto.
          - rewrite Map_get_set_ne by done. apply Map_get_is_Some. eauto. }
        assert (k = key) as -> by congruence.
        apply Map_get_is_Some. rewrite Map_get_set_eq. eauto.
    + split; [done|]. split.
      * intros k r Hin. destruct (IH2 k r Hin) as (? & ? & ?).
        split; [|done]. apply elem_of_app. by left.
      * intros r k [Hin|Hr%list_elem_of_singleton]%elem_of_app Hk Hnbk;
          [by eauto|].
        subst r. by apply Hblank in Hk.
Qed.



(** ** Diff engine: the three passes *)

Lemma added_fold (map1 m : jsmap) :
  ∀ acc, fold_left (addedStep map1) m acc = acc ++ omap (addedEntry map1) m.
Proof.
  induction m as [|kv m IH]; intros acc; simpl; [by rewrite app_nil_r|].
  rewrite IH. unfold addedStep, addedEntry.
  destruct (Map_has kv.1 map1); [done|]. by rewrite <- app_assoc.
Qed.

Lemma removed_fold (map2 m : jsmap) :
  ∀ acc,
  fold_left (removedStep map2) m acc = acc ++ omap (removedEntry map2) m.
Proof.
  induction m as [|kv m IH]; intros acc; simpl; [by rewrite app_nil_r|].
  rewrite IH. unfold removedStep, removedEntry.
  destruct (Map_has kv.1 map2); [done|]. by rewrite <- app_assoc.
Qed.

Lemma classify_fold (map2 m : jsmap) :
  ∀ st,
  fold_left (Own.classifyStep map2) m st =
    (st.1 ++ omap (changedEntry map2) m, st.2 ++ omap (unchangedEntry map2) m).
Proof.
  induction m as [|kv m IH]; intros [c n]; simpl; [by rewrite !app_nil_r|].
  rewrite IH. unfold Own.classifyStep, changedEntry, unchangedEntry.
  destruct (Map_get kv.1 map2) as [row2|]; [|done]. cbv zeta.
  destruct (Own.compareRows kv.2 row2).2; simpl; by rewrite <- app_assoc.
Qed.

Lemma performComparison_lists (file1 file2 : ParsedDataset)
    (keyColumn : jsstring) :
  let idx1 := Own.buildIndex keyColumn (rows file1) in
  let idx2 := Own.buildIndex keyColumn (rows file2) in
  let r := Own.performComparison file1 file2 keyColumn in
  added r = omap (addedEntry idx1) idx2 ∧
  removed r = omap (removedEntry idx2) idx1 ∧
  changed r = omap (changedEntry idx2) idx1 ∧
  unchanged r = omap (unchangedEntry idx2) idx1.
Proof.
  unfold Own.performComparison. simpl.
  by rewrite added_fold, removed_fold, classify_fold.
Qed.

Lemma addedEntry_Some (map1 : jsmap) kv e :
  addedEntry map1 kv = Some e ↔ (kv.1 ∉ keys map1) ∧ e = Added kv.1 kv.2.
Proof.
  unfold addedEntry. destruct (Map_has kv.1 map1) eqn:E.
  - apply Map_has_true in E. split; [done|]. by intros [? _].
  - apply Map_has_false in E. split; [by intros [= <-]|by intros [_ ->]].
Qed.

Lemma removedEntry_Some (map2 : jsmap) kv e :
  removedEntry map2 kv = Some e ↔ (kv.1 ∉ keys map2) ∧ e = Removed kv.1 kv.2.
Proof.
  unfold removedEntry. destruct (Map_has kv.1 map2) eqn:E.
  - apply Map_has_true in E. split; [done|]. by intros [? _].
  - apply Map_has_false in E. split; [by intros [= <-]|by intros [_ ->]].
Qed.

Lemma changedEntry_Some (map2 : jsmap) kv e :
  changedEntry map2 kv = Some e ↔
  ∃ row2, Map_get kv.1 map2 = Some row2 ∧ (Own.compareRows kv.2 row2).2 = true ∧
          e = Changed kv.1 kv.2 row2 (Own.compareRows kv.2 row2).1.
Proof.
  unfold changedEntry. destruct (Map_get kv.1 map2) as [row2|];
    [|split; [done|by intros (? & ? & _)]].
  cbv zeta. destruct (Own.compareRows kv.2 row2).2 eqn:E.
  - split; [intros [= <-]; by eauto|]. by intros (? & [= <-] & _ & ->).
  - split; [done|]. intros (? & [= <-] & ? & _). congruence.
Qed.

Lemma unchangedEntry_Some (map2 : jsmap) kv e :
  unchangedEntry map2 kv = Some e ↔
  ∃ row2, Map_get kv.1 map2 = Some row2 ∧ (Own.compareRows kv.2 row2).2 = false ∧
          e = Unchanged kv.1 kv.2.
Proof.
  unfold unchangedEntry. destruct (Map_get kv.1 map2) as [row2|];
    [|split; [done|by intros (? & ? & _)]].
  destruct (Own.compareRows kv.2 row2).2 eqn:E.
  - split; [done|]. intros (? & [= <-] & ? & _). congruence.
  - split; [intros [= <-]; by eauto|]. by intros (? & [= <-] & _ & ->).
Qed.

(** What holds of any pass that pushes, for an entry of the index, at most
    one result entry with the same key. *)
Section pass.
Variable f : jsstring * record → option DiffEntry.
Hypothesis f_key : ∀ kv e, f kv = Some e → entryKey e = kv.1.

Lemma pass_keys_sublist (m : jsmap) :
  (entryKey <$> omap f m) `sublist_of` keys m.
Proof using f_key.
  unfold keys. induction m as [|kv m IH]; csimpl; [done|].
  destruct (f kv) as [e|] eqn:E; csimpl.
  - rewrite (f_key _ _ E). by apply sublist_skip.
  - by apply sublist_cons.
Qed.

Lemma pass_countKey (key : jsstring) (m : jsmap) :
  NoDup (keys m) →
  countKey key (omap f m) =
    match Map_get key m with
    | Some row => match f (key, row) with Some _ => 1 | None => 0 end
    | None => 0
    end.
Proof using f_key.
  unfold keys, countKey. induction m as [|[k v] m IH]; csimpl; [done|].
  intros [Hk Hnd]%NoDup_cons. specialize (IH Hnd).
  case_decide as Hkk.
  - subst k. assert (Map_get key m = None) as Hnone.
    { apply eq_None_not_Some. by rewrite Map_get_is_Some. }
    rewrite Hnone in IH. destruct (f (key, v)) as [e|] eqn:E; [|done].
    rewrite filter_cons_True by (by apply f_key in E). simpl. by rewrite IH.
  - destruct (f (k, v)) as [e|] eqn:E; [|done].
    rewrite filter_cons_False; [done|]. apply f_key in E. simpl in E.
    congruence.
Qed.

Lemma pass_elem (e : DiffEntry) (m : jsmap) :
  e ∈ omap f m → entryKey e ∈ keys m.
Proof using f_key.
  intros (kv & Hin & Hf)%list_elem_of_omap. rewrite (f_key _ _ Hf).
  unfold keys. apply list_elem_of_fmap. by exists kv.
Qed.
End pass.

Lemma addedEntry_key map1 kv e : addedEntry map1 kv = Some e → entryKey e = kv.1.
Proof. by intros [_ ->]%addedEntry_Some. Qed.

Lemma removedEntry_key map2 kv e :
  removedEntry map2 kv = Some e → entryKey e = kv.1.
Proof. by intros [_ ->]%removedEntry_Some. Qed.

Lemma changedEntry_key map2 kv e :
  changedEntry map2 kv = Some e → entryKey e = kv.1.
Proof. by intros (? & _ & _ & ->)%changedEntry_Some. Qed.

Lemma unchangedEntry_key map2 kv e :
  unchangedEntry map2 kv = Some e → entryKey e = kv.1.
Proof. by intros (? & _ & _ & ->)%unchangedEntry_Some. Qed.

Lemma only_keys_filter (other m : jsmap) (f : jsstring * record → option DiffEntry) :
  (∀ kv e, f kv = Some e → entryKey e = kv.1) →
  (∀ kv, is_Some (f kv) ↔ kv.1 ∉ keys other) →
  entryKey <$> omap f m = filter (λ k, k ∉ keys other) (keys m).
Proof.
  intros Hkey Hsome. unfold keys at 2.
  induction m as [|kv m IH]; csimpl; [done|].
  destruct (f kv) as [e|] eqn:E; csimpl.
  - rewrite filter_cons_True by (apply Hsome; eauto).
    by rewrite (Hkey _ _ E), IH.
  - rewrite filter_cons_False; [done|]. intros Hn%Hsome.
    rewrite E in Hn. by destruct Hn.
Qed.

Lemma countKey_app (key : jsstring) (l l' : list DiffEntry) :
  countKey key (l ++ l') = countKey key l + countKey key l'.
Proof. unfold countKey. by rewrite filter_app, length_app. Qed.

Lemma countKey_elem (key : jsstring) (l : list DiffEntry) :
  key ∈ entryKey <$> l ↔ 0 < countKey key l.
Proof.
  unfold countKey. induction l as [|e l IH]; csimpl.
  - split; [by intros ?%elem_of_nil|lia].
  - rewrite elem_of_cons, IH, filter_cons. case_decide; simpl; [|naive_solver].
    split; [lia|]. intros _. by left.
Qed.

Lemma cell_absent (row : record) (column : jsstring) :
  column ∉ dom row → cell row column = [].
Proof. intros ?%not_elem_of_dom. unfold cell. by rewrite H. Qed.

(** The column by column comparison of two rows. *)
Lemma compareRows_spec (row1 row2 : record) :
  let cmp := Own.compareRows row1 row2 in
  (∀ column d,
     cmp.1 !! column = Some d ↔
     cell row1 column ≠ cell row2 column ∧
     d = {| old := cell row1 column; new := cell row2 column |}) ∧
  (cmp.2 = true ↔ ∃ column, cell row1 column ≠ cell row2 column).
Proof.
  cbv zeta. unfold Own.compareRows.
  set (P := λ (st : diffmap * bool) (X : gset jsstring),
    (∀ column d,
       st.1 !! column = Some d ↔
       column ∈ X ∧ cell row1 column ≠ cell row2 column ∧
       d = {| old := cell row1 column; new := cell row2 column |}) ∧
    (st.2 = true ↔
       ∃ column, column ∈ X ∧ cell row1 column ≠ cell row2 column)).
  assert (∀ X, P (set_fold (Own.columnStep row1 row2) (∅, false) X) X) as Hfold.
  { intros X. apply (set_fold_ind_L P); unfold P.
    - split; simpl.
      + intros column d. rewrite lookup_empty. split; [done|].
        intros [? _]. set_solver.
      + split; [done|]. intros (? & ? & _). set_solver.
    - intros x Y st Hx [IH1 IH2]. unfold Own.columnStep. cbv zeta.
      fold (cell row1 x) (cell row2 x).
      destruct (decide (cell row1 x ≠ cell row2 x)) as [Hd|Hd]; simpl.
      + split.
        * intros column d. destruct (decide (x = column)) as [->|Hne].
          { rewrite lookup_insert_eq. split.
            - intros [= <-]. split; [set_solver|done].
            - by intros (_ & _ & ->). }
          rewrite lookup_insert_ne, IH1 by done. set_solver.
        * split; [|done]. intros _. exists x. set_solver.
      + split.
        * intros column d. rewrite IH1. split; [set_solver|].
          intros ([Hc%elem_of_singleton|?]%elem_of_union & ? & ?);
            [by subst|done].
        * rewrite IH2. split.
          { intros (c & ? & ?). exists c. set_solver. }
          intros (c & [Hc%elem_of_singleton|?]%elem_of_union & ?);
            [by subst|by eauto]. }
  destruct (Hfold (allColumns row1 row2)) as [H1 H2].
  assert (∀ c, cell row1 c ≠ cell row2 c → c ∈ allColumns row1 row2) as Hin.
  { intros c Hd. unfold allColumns.
    destruct (decide (c ∈ dom row1)); [set_solver|].
    destruct (decide (c ∈ dom row2)); [set_solver|].
    destruct Hd. by rewrite !cell_absent. }
  split.
  - intros column d. rewrite H1. split; [by intros (_ & ? & ?)|].
    intros [Hd ->]. split; [by apply Hin|done].
  - rewrite H2. split; [intros (c & _ & ?); by eauto|].
    intros (c & Hd). exists c. split; [by apply Hin|done].
Qed.

Lemma compareRows_same (row : record) : (Own.compareRows row row).2 = false.
Proof.
  apply not_true_is_false. intros H.
  apply (compareRows_spec row row) in H as [c Hc]. done.
Qed.

(** ** What the diff engine raises, and what it returns otherwise *)

Lemma forEach_outcome {A S : Type} (ok : A → Prop) `{∀ x, Decision (ok x)}
    (body : S → A → option S) (g : S → A → S) (items : list A) :
  (∀ st x, body st x = if decide (ok x) then Some (g st x) else None) →
  ∀ st, forEach body items st =
        if decide (Forall ok items) then Some (fold_left g items st) else None.
Proof.
  intros Hbody. induction items as [|x items IH]; intros st.
  - destruct (decide (Forall ok [])) as [|Hn]; [done|]. destruct Hn.
    constructor.
  - cbn [forEach fold_left]. rewrite Hbody.
    destruct (decide (ok x)) as [Hx|Hx].
    + rewrite IH.
      destruct (decide (Forall ok items)) as [Hl|Hl],
               (decide (Forall ok (x :: items))) as [Hl'|Hl']; try done.
      * destruct Hl'. by constructor.
      * by apply Forall_cons in Hl' as [? ?].
    + destruct (decide (Forall ok (x :: items))) as [Hl'|]; [|done].
      by apply Forall_cons in Hl' as [? ?].
Qed.

Lemma foldr_outcome {A S : Type} (ok : A → Prop) `{∀ x, Decision (ok x)}
    (f : A → S → option S) (g : A → S → S) (items : list A) (b : S) :
  (∀ x st, f x st = if decide (ok x) then Some (g x st) else None) →
  foldr (λ x st, st ≫= f x) (Some b) items =
    if decide (Forall ok items) then Some (foldr g b items) else None.
Proof.
  intros Hf. induction items as [|x items IH].
  - destruct (decide (Forall ok [])) as [|Hn]; [done|]. destruct Hn.
    constructor.
  - cbn [foldr]. rewrite IH.
    destruct (decide (Forall ok items)) as [Hl|Hl]; cbn [mbind option_bind].
    + rewrite Hf. destruct (decide (ok x)) as [Hx|Hx],
               (decide (Forall ok (x :: items))) as [Hl'|Hl']; try done.
      * destruct Hl'. by constructor.
      * by apply Forall_cons in Hl' as [? ?].
    + destruct (decide (Forall ok (x :: items))) as [Hl'|]; [|done].
      by apply Forall_cons in Hl' as [? ?].
Qed.

Lemma trimmedValue_outcome (row : record) (column : jsstring) :
  trimmedValue row column =
    if decide (inherits row column) then None else Some (cell row column).
Proof.
  unfold trimmedValue, Object_get, valueOr, cell.
  destruct (decide (inherits row column)) as [[Hrow Hin]|Hn].
  - rewrite Hrow. by rewrite decide_True.
  - destruct (row !! column) as [v|] eqn:E; simpl.
    + case_bool_decide as Hv; [done|]. by subst v.
    + rewrite decide_False; [done|]. intros Hin. by apply Hn.
Qed.

Lemma columnStep_outcome (row1 row2 : record) (column : jsstring)
    (st : diffmap * bool) :
  columnStep row1 row2 column st =
    if decide (¬ inherits row1 column ∧ ¬ inherits row2 column)
    then Some (Own.columnStep row1 row2 column st) else None.
Proof.
  unfold columnStep, Own.columnStep. rewrite !trimmedValue_outcome.
  destruct (decide (inherits row1 column)) as [H1|H1],
           (decide (inherits row2 column)) as [H2|H2],
           (decide (¬ inherits row1 column ∧ ¬ inherits row2 column))
             as [[H1' H2']|Hn]; try done.
  - cbv zeta. fold (cell row1 column) (cell row2 column). by case_decide.
  - by destruct Hn.
Qed.

Lemma compareRows_outcome (row1 row2 : record) :
  compareRows row1 row2 =
    if decide (comparable row1 row2)
    then Some (Own.compareRows row1 row2) else None.
Proof.
  unfold compareRows, Own.compareRows, set_fold. simpl.
  rewrite (foldr_outcome
             (λ column, ¬ inherits row1 column ∧ ¬ inherits row2 column)
             _ (Own.columnStep row1 row2))
    by (intros; apply columnStep_outcome).
  assert (Forall (λ column, ¬ inherits row1 column ∧ ¬ inherits row2 column)
            (elements (allColumns row1 row2)) ↔ comparable row1 row2) as Hiff.
  { unfold comparable, set_Forall. rewrite Forall_forall.
    by setoid_rewrite elem_of_elements. }
  destruct (decide (comparable row1 row2)) as [Hc|Hc].
  - by rewrite decide_True by by apply Hiff.
  - by rewrite decide_False by (by rewrite Hiff).
Qed.

Lemma indexStep_outcome (keyColumn : jsstring) (m : jsmap) (row : record) :
  indexStep keyColumn m row =
    if decide (¬ inherits row keyColumn)
    then Some (Own.indexStep keyColumn m row) else None.
Proof.
  unfold indexStep, Own.indexStep, Object_get.
  destruct (decide (¬ inherits row keyColumn)) as [Hn|Hi].
  - destruct (row !! keyColumn) as [key|] eqn:E; simpl.
    + by destruct (bool_decide (key ≠ []) && bool_decide (trim key ≠ [])).
    + rewrite decide_False; [done|]. intros Hin. by apply Hn.
  - apply dec_stable in Hi as [Hrow Hin]. rewrite Hrow.
    by rewrite decide_True.
Qed.

Lemma buildIndex_outcome (keyColumn : jsstring) (rs : list record) :
  buildIndex keyColumn rs =
    if decide (indexable keyColumn rs)
    then Some (Own.buildIndex keyColumn rs) else None.
Proof.
  unfold buildIndex, Own.buildIndex, indexable.
  apply (forEach_outcome (λ row, ¬ inherits row keyColumn)).
  intros. apply indexStep_outcome.
Qed.

Lemma classifyStep_outcome (map2 : jsmap)
    (st : list DiffEntry * list DiffEntry) (kv : jsstring * record) :
  classifyStep map2 st kv =
    if decide (comparableWith map2 kv)
    then Some (Own.classifyStep map2 st kv) else None.
Proof.
  unfold classifyStep, Own.classifyStep.
  destruct (decide (comparableWith map2 kv)) as [Hc|Hn];
    unfold comparableWith in *;
    destruct (Map_get kv.1 map2) as [row2|]; try done; cbv zeta;
    rewrite compareRows_outcome.
  - rewrite decide_True by done.
    by destruct (Own.compareRows kv.2 row2).2.
  - by rewrite decide_False.
Qed.

(** [performComparison] returns a result exactly on the inputs of
    [returns], and the result is the comparison of the values the rows
    own. *)
Lemma performComparison_outcome (file1 file2 : ParsedDataset)
    (keyColumn : jsstring) :
  performComparison file1 file2 keyColumn =
    if decide (returns file1 file2 keyColumn)
    then Some (Own.performComparison file1 file2 keyColumn) else None.
Proof.
  unfold performComparison, returns. rewrite !buildIndex_outcome.
  destruct (decide (indexable keyColumn (rows file1))) as [H1|H1]; simpl;
    [|by rewrite decide_False by (by intros (? & _))].
  destruct (decide (indexable keyColumn (rows file2))) as [H2|H2]; simpl;
    [|by rewrite decide_False by (by intros (_ & ? & _))].
  rewrite (forEach_outcome
             (comparableWith (Own.buildIndex keyColumn (rows file2)))
             _ (Own.classifyStep (Own.buildIndex keyColumn (rows file2))))
    by (intros; apply classifyStep_outcome).
  destruct (decide (Forall _ _)) as [H3|H3]; simpl.
  - by rewrite decide_True.
  - by rewrite decide_False by (by intros (_ & _ & ?)).
Qed.

Lemma performComparison_Some (file1 file2 : ParsedDataset)
    (keyColumn : jsstring) (r : ComparisonResult) :
  performComparison file1 file2 keyColumn = Some r ↔
  returns file1 file2 keyColumn ∧
  r = Own.performComparison file1 file2 keyColumn.
Proof.
  rewrite performComparison_outcome. case_decide.
  - split; [by intros [= <-]|by intros [_ ->]].
  - split; [done|by intros [? _]].
Qed.

Lemma performComparison_None (file1 file2 : ParsedDataset)
    (keyColumn : jsstring) :
  performComparison file1 file2 keyColumn = None ↔
  ¬ returns file1 file2 keyColumn.
Proof. rewrite performComparison_outcome. by case_decide. Qed.

Lemma buildIndex_Some (keyColumn : jsstring) (rs : list record)
    (idx : jsmap) :
  buildIndex keyColumn rs = Some idx ↔
  indexable keyColumn rs ∧ idx = Own.buildIndex keyColumn rs.
Proof.
  rewrite buildIndex_outcome. case_decide.
  - split; [by intros [= <-]|by intros [_ ->]].
  - split; [done|by intros [? _]].
Qed.


(** ** The indices and the four lists *)

(** In the comparison of the values the rows own, every key of an index is
    classified into exactly one kind. *)
Lemma Own_classification (file1 file2 : ParsedDataset)
    (keyColumn : jsstring) :
  let idx1 := Own.buildIndex keyColumn (rows file1) in
  let idx2 := Own.buildIndex keyColumn (rows file2) in
  let r := Own.performComparison file1 file2 keyColumn in
  (Forall isAdded (added r) ∧
   entryKey <$> added r = filter (λ k, k ∉ keys idx1) (keys idx2)) ∧
  (Forall isRemoved (removed r) ∧
   entryKey <$> removed r = filter (λ k, k ∉ keys idx2) (keys idx1)) ∧
  (Forall isChanged (changed r) ∧ Forall isUnchanged (unchanged r) ∧
   (entryKey <$> changed r) `sublist_of` keys idx1 ∧
   (entryKey <$> unchanged r) `sublist_of` keys idx1 ∧
   (∀ key, key ∈ entryKey <$> (changed r ++ unchanged r) ↔
           key ∈ keys idx1 ∧ key ∈ keys idx2)) ∧
  (∀ key, key ∈ keys idx1 ∨ key ∈ keys idx2 →
          countKey key (allEntries r) = 1).
Proof.
  intros idx1 idx2 r.
  destruct (performComparison_lists file1 file2 keyColumn)
    as (Ha & Hr & Hc & Hu).
  fold idx1 idx2 r in Ha, Hr, Hc, Hu.
  destruct (buildIndex_entries keyColumn (rows file1)) as (Hnd1 & _).
  destruct (buildIndex_entries keyColumn (rows file2)) as (Hnd2 & _).
  fold idx1 in Hnd1. fold idx2 in Hnd2.
  assert (∀ key, countKey key (allEntries r) =
    match Map_get key idx1, Map_get key idx2 with
    | None, None => 0
    | _, _ => 1
    end) as Hcount.
  { intros key. unfold allEntries. rewrite !countKey_app, Ha, Hr, Hc, Hu.
    rewrite (pass_countKey _ (addedEntry_key idx1)) by done.
    rewrite (pass_countKey _ (removedEntry_key idx2)) by done.
    rewrite (pass_countKey _ (changedEntry_key idx2)) by done.
    rewrite (pass_countKey _ (unchangedEntry_key idx2)) by done.
    unfold addedEntry, removedEntry, changedEntry, unchangedEntry, Map_has.
    simpl.
    destruct (Map_get key idx1) as [row1|] eqn:E1,
             (Map_get key idx2) as [row2|] eqn:E2; simpl; try done.
    by destruct (Own.compareRows row1 row2).2. }
  split; [|split; [|split]].
  - split.
    + rewrite Ha. apply Forall_forall.
      by intros e (kv & _ & [_ ->]%addedEntry_Some)%list_elem_of_omap.
    + rewrite Ha. apply only_keys_filter; [apply addedEntry_key|].
      intros kv. unfold is_Some. setoid_rewrite addedEntry_Some.
      split; [by intros (? & ? & _)|by eauto].
  - split.
    + rewrite Hr. apply Forall_forall.
      by intros e (kv & _ & [_ ->]%removedEntry_Some)%list_elem_of_omap.
    + rewrite Hr. apply only_keys_filter; [apply removedEntry_key|].
      intros kv. unfold is_Some. setoid_rewrite removedEntry_Some.
      split; [by intros (? & ? & _)|by eauto].
  - split; [|split; [|split; [|split]]].
    + rewrite Hc. apply Forall_forall.
      by intros e (kv & _ & (? & _ & _ & ->)%changedEntry_Some)%list_elem_of_omap.
    + rewrite Hu. apply Forall_forall.
      by intros e
        (kv & _ & (? & _ & _ & ->)%unchangedEntry_Some)%list_elem_of_omap.
    + rewrite Hc. apply pass_keys_sublist, changedEntry_key.
    + rewrite Hu. apply pass_keys_sublist, unchangedEntry_key.
    + intros key. rewrite countKey_elem, countKey_app, Hc, Hu.
      rewrite (pass_countKey _ (changedEntry_key idx2)) by done.
      rewrite (pass_countKey _ (unchangedEntry_key idx2)) by done.
      rewrite <- !Map_get_is_Some.
      unfold changedEntry, unchangedEntry. simpl.
      destruct (Map_get key idx1) as [row1|] eqn:E1,
               (Map_get key idx2) as [row2|] eqn:E2; simpl.
      * destruct (Own.compareRows row1 row2).2; simpl; split; (lia || by eauto).
      * split; [lia|]. by intros [_ [? ?]].
      * split; [lia|]. by intros [[? ?] _].
      * split; [lia|]. by intros [[? ?] _].
  - intros key Hkey. rewrite Hcount. rewrite <- !Map_get_is_Some in Hkey.
    destruct (Map_get key idx1), (Map_get key idx2); try done.
    by destruct Hkey as [[? ?]|[? ?]].
Qed.

(** In the comparison of the values the rows own, a key in both indices
    gets one changed entry with the differing columns, or one unchanged
    entry. *)
Lemma Own_changed_or_unchanged (file1 file2 : ParsedDataset)
    (keyColumn key : jsstring) (row1 row2 : record) :
  let idx1 := Own.buildIndex keyColumn (rows file1) in
  let idx2 := Own.buildIndex keyColumn (rows file2) in
  let r := Own.performComparison file1 file2 keyColumn in
  Map_get key idx1 = Some row1 →
  Map_get key idx2 = Some row2 →
  ((∃ column, column ∈ dom row1 ∪ dom row2 ∧
              cell row1 column ≠ cell row2 column) →
   ∃ differences,
     Changed key row1 row2 differences ∈ changed r ∧
     countKey key (changed r) = 1 ∧ countKey key (unchanged r) = 0 ∧
     dom differences ⊆ dom row1 ∪ dom row2 ∧
     ∀ column d,
       differences !! column = Some d ↔
       cell row1 column ≠ cell row2 column ∧
       d = {| old := cell row1 column; new := cell row2 column |}) ∧
  (¬ (∃ column, column ∈ dom row1 ∪ dom row2 ∧
                cell row1 column ≠ cell row2 column) →
   Unchanged key row1 ∈ unchanged r ∧
   countKey key (unchanged r) = 1 ∧ countKey key (changed r) = 0).
Proof.
  intros idx1 idx2 r H1 H2.
  destruct (performComparison_lists file1 file2 keyColumn)
    as (_ & _ & Hc & Hu).
  fold idx1 idx2 r in Hc, Hu.
  destruct (buildIndex_entries keyColumn (rows file1)) as (Hnd1 & _).
  fold idx1 in Hnd1.
  destruct (compareRows_spec row1 row2) as [Hd Hflag]. cbv zeta in Hd, Hflag.
  assert (countKey key (changed r) =
            if (Own.compareRows row1 row2).2 then 1 else 0) as Hcc.
  { rewrite Hc, (pass_countKey _ (changedEntry_key idx2)) by done.
    rewrite H1. unfold changedEntry. simpl. rewrite H2.
    by destruct (Own.compareRows row1 row2).2. }
  assert (countKey key (unchanged r) =
            if (Own.compareRows row1 row2).2 then 0 else 1) as Hcu.
  { rewrite Hu, (pass_countKey _ (unchangedEntry_key idx2)) by done.
    rewrite H1. unfold unchangedEntry. simpl. rewrite H2.
    by destruct (Own.compareRows row1 row2).2. }
  apply Map_get_elem in H1 as Hin.
  split.
  - intros (c & _ & Hne).
    assert ((Own.compareRows row1 row2).2 = true) as Ht by (apply Hflag; eauto).
    exists (Own.compareRows row1 row2).1. rewrite Hcc, Hcu, Ht.
    split; [|split; [done|split; [done|split; [|done]]]].
    + rewrite Hc. apply list_elem_of_omap. exists (key, row1).
      split; [done|]. apply changedEntry_Some. exists row2. by simpl.
    + intros column [d Hl]%elem_of_dom. apply Hd in Hl as [Hl _].
      destruct (decide (column ∈ dom row1)); [set_solver|].
      destruct (decide (column ∈ dom row2)); [set_solver|].
      destruct Hl. by rewrite !cell_absent.
  - intros Hn.
    assert ((Own.compareRows row1 row2).2 = false) as Hf.
    { apply not_true_is_false. intros (c & Hne)%Hflag. apply Hn. exists c.
      split; [|done].
      destruct (decide (c ∈ dom row1)); [set_solver|].
      destruct (decide (c ∈ dom row2)); [set_solver|].
      destruct Hne. by rewrite !cell_absent. }
    rewrite Hcc, Hcu, Hf. split; [|done].
    rewrite Hu. apply list_elem_of_omap. exists (key, row1).
    split; [done|]. apply unchangedEntry_Some. exists row2. by simpl.
Qed.

Lemma length_Map_set (key : jsstring) (row : record) (m : jsmap) :
  length (Map_set key row m) =
    if decide (key ∈ keys m) then length m else S (length m).
Proof.
  rewrite <- !(length_fmap fst). fold (keys (Map_set key row m)) (keys m).
  case_decide.
  - by rewrite keys_Map_set_in.
  - rewrite keys_Map_set_notin, length_app by done. simpl. lia.
Qed.

Lemma buildIndex_length (keyColumn : jsstring) (rs : list record) :
  length (Own.buildIndex keyColumn rs) ≤ length rs.
Proof.
  induction rs as [|row rs IH] using rev_ind; [done|].
  rewrite buildIndex_snoc, length_app. simpl.
  destruct (indexStep_cases keyColumn (Own.buildIndex keyColumn rs) row)
    as [(key & _ & _ & ->)|[_ ->]]; [|lia].
  rewrite length_Map_set. case_decide; lia.
Qed.

Lemma buildIndex_length_distinct (keyColumn : jsstring) (rs : list record) :
  Forall (λ row, ∃ key, row !! keyColumn = Some key ∧ trim key ≠ []) rs →
  NoDup ((λ row : record, row !! keyColumn) <$> rs) →
  length (Own.buildIndex keyColumn rs) = length rs.
Proof.
  induction rs as [|row rs IH] using rev_ind; [done|].
  intros [Hrs Hrow]%Forall_app. rewrite fmap_app.
  intros (Hnd & Hdisj & _)%NoDup_app.
  apply Forall_singleton in Hrow as (key & Hkey & Hnb).
  rewrite buildIndex_snoc, length_app. simpl.
  destruct (indexStep_cases keyColumn (Own.buildIndex keyColumn rs) row)
    as [(k & Hk & _ & ->)|[Hblank _]]; [|by apply Hblank in Hkey].
  assert (k = key) as -> by congruence.
  rewrite length_Map_set, IH by done.
  case_decide as Hin; [|lia]. exfalso.
  apply Map_get_is_Some in Hin as [row' Hrow'%Map_get_elem].
  destruct (buildIndex_entries keyColumn rs) as (_ & He & _).
  destruct (He _ _ Hrow') as (Hin' & Hk' & _).
  apply (Hdisj (Some key)).
  - apply list_elem_of_fmap. by exists row'.
  - simpl. rewrite Hkey. by left.
Qed.

Lemma omap_none {A B} (f : A → option B) (l : list A) :
  (∀ x, x ∈ l → f x = None) → omap f l = [].
Proof.
  induction l as [|x l IH]; intros H; simpl; [done|].
  rewrite (H x) by (by left). apply IH. intros y Hy. apply H. by right.
Qed.

Lemma omap_all_length {A B} (f : A → option B) (l : list A) :
  (∀ x, x ∈ l → is_Some (f x)) → length (omap f l) = length l.
Proof.
  induction l as [|x l IH]; intros H; simpl; [done|].
  destruct (H x) as [y ->]; [by left|]. simpl. f_equal. apply IH.
  intros z Hz. apply H. by right.
Qed.

(** The same rows on both sides, in the comparison of the values the rows
    own. *)
Lemma Own_identical_datasets (file1 file2 : ParsedDataset)
    (keyColumn : jsstring) :
  headers file1 = headers file2 →
  rows file1 = rows file2 →
  let r := Own.performComparison file1 file2 keyColumn in
  added r = [] ∧ removed r = [] ∧ changed r = [] ∧
  length (unchanged r) = length (Own.buildIndex keyColumn (rows file1)) ∧
  length (unchanged r) ≤ Stats.total1 (stats r) ∧
  Stats.total1 (stats r) = Stats.total2 (stats r) ∧
  (Forall (λ row, ∃ key, row !! keyColumn = Some key ∧ trim key ≠ [])
     (rows file1) →
   NoDup ((λ row : record, row !! keyColumn) <$> rows file1) →
   length (unchanged r) = Stats.total1 (stats r)).
Proof.
  intros _ Hrows r.
  destruct (performComparison_lists file1 file2 keyColumn)
    as (Ha & Hr & Hc & Hu).
  fold r in Ha, Hr, Hc, Hu. rewrite <- Hrows in Ha, Hr, Hc, Hu.
  set (idx := Own.buildIndex keyColumn (rows file1)) in *.
  destruct (buildIndex_entries keyColumn (rows file1)) as (Hnd & _).
  fold idx in Hnd.
  assert (∀ kv, kv ∈ idx → kv.1 ∈ keys idx) as Hk.
  { intros kv Hin. apply list_elem_of_fmap. by exists kv. }
  assert (∀ kv, kv ∈ idx → Map_get kv.1 idx = Some kv.2) as Hg.
  { intros [k v] Hin. by apply Map_elem_get. }
  assert (length (unchanged r) = length idx) as Hlen.
  { rewrite Hu. apply omap_all_length. intros kv Hin.
    exists (Unchanged kv.1 kv.2). apply unchangedEntry_Some.
    exists kv.2. split; [by apply Hg|]. split; [apply compareRows_same|done]. }
  assert (Stats.total1 (stats r) = length (rows file1)) as Ht1 by done.
  assert (Stats.total2 (stats r) = length (rows file2)) as Ht2 by done.
  split; [|split; [|split; [|split; [done|split; [|split]]]]].
  - rewrite Ha. apply omap_none. intros kv Hin.
    apply eq_None_not_Some. intros [e [Hn _]%addedEntry_Some]. by apply Hn, Hk.
  - rewrite Hr. apply omap_none. intros kv Hin.
    apply eq_None_not_Some. intros [e [Hn _]%removedEntry_Some].
    by apply Hn, Hk.
  - rewrite Hc. apply omap_none. intros kv Hin.
    apply eq_None_not_Some.
    intros [e (row2 & Hrow2 & Hflag & _)%changedEntry_Some].
    rewrite (Hg kv Hin) in Hrow2. injection Hrow2 as <-.
    by rewrite compareRows_same in Hflag.
  - rewrite Hlen, Ht1. apply buildIndex_length.
  - by rewrite Ht1, Ht2, Hrows.
  - intros Hall Hdist. rewrite Hlen, Ht1.
    by apply buildIndex_length_distinct.
Qed.

(** On the rows of a parsed dataset the value the diff compares is the
    stored value itself: it was trimmed when the row was built. *)
Lemma parsed_cell (sel content filename : jsstring) (data : ParsedDataset)
    (row : record) (column v : jsstring) :
  parseFile sel content filename = inr data →
  row ∈ rows data → row !! column = Some v → cell row column = v.
Proof.
  intros (_ & _ & ->)%parseFile_inr. simpl.
  intros (line & _ & (_ & Hrow & _)%rowOfLine_Some)%list_elem_of_omap Hv.
  unfold cell. rewrite Hv. simpl. by eapply trimmed_cells.
Qed.

(** ** The claims about the diff engine *)

Lemma comparable_same (row : record) : comparable row row.
Proof.
  intros column Hc. unfold allColumns in Hc.
  assert (column ∈ dom row) as [v Hv]%elem_of_dom by set_solver.
  split; intros [Hn _]; congruence.
Qed.

Lemma comparableWith_lookup (idx1 idx2 : jsmap) :
  Forall (comparableWith idx2) idx1 ↔
  ∀ key row1 row2,
    (key, row1) ∈ idx1 → Map_get key idx2 = Some row2 → comparable row1 row2.
Proof.
  rewrite Forall_forall. unfold comparableWith. split.
  - intros H key row1 row2 Hin Hg. specialize (H _ Hin). simpl in H.
    by rewrite Hg in H.
  - intros H [key row1] Hin. simpl.
    destruct (Map_get key idx2) as [row2|] eqn:E; [|done]. by eapply H.
Qed.


(** When [performComparison] returns: both indices are built, and the
    rows filed under one key in the two indices are comparable. *)
Lemma performComparison_returns (file1 file2 : ParsedDataset)
    (keyColumn : jsstring) :
  is_Some (performComparison file1 file2 keyColumn) ↔
  ∃ idx1 idx2,
    buildIndex keyColumn (rows file1) = Some idx1 ∧
    buildIndex keyColumn (rows file2) = Some idx2 ∧
    ∀ key row1 row2,
      Map_get key idx1 = Some row1 → Map_get key idx2 = Some row2 →
      comparable row1 row2.
Proof.
  destruct (buildIndex_entries keyColumn (rows file1)) as (Hnd1 & _).
  split.
  - intros [r [(H1 & H2 & H3) _]%performComparison_Some].
    eexists _, _. split; [by apply buildIndex_Some|].
    split; [by apply buildIndex_Some|].
    intros key row1 row2 Hg1%Map_get_elem Hg2.
    by eapply comparableWith_lookup.
  - intros (idx1 & idx2 & [H1 ->]%buildIndex_Some & [H2 ->]%buildIndex_Some
           & H3).
    eexists. apply performComparison_Some. split; [|done].
    split; [done|]. split; [done|]. apply comparableWith_lookup.
    intros key row1 row2 Hin Hg. eapply H3; [|done]. by apply Map_elem_get.
Qed.

(** X17.  [performComparison] returns a result exactly when both indices
    are built and the rows filed under one key in both are comparable.  In
    a result every key of an index is classified into exactly one kind:
    added when only the second index has it, in the order of the second
    index; removed when only the first index has it, in the order of the
    first index; changed or unchanged when both have it, in the order of
    the first index. *)
Theorem classification (file1 file2 : ParsedDataset) (keyColumn : jsstring) :
  (is_Some (performComparison file1 file2 keyColumn) ↔
   ∃ idx1 idx2,
     buildIndex keyColumn (rows file1) = Some idx1 ∧
     buildIndex keyColumn (rows file2) = Some idx2 ∧
     ∀ key row1 row2,
       Map_get key idx1 = Some row1 → Map_get key idx2 = Some row2 →
       comparable row1 row2) ∧
  (∀ r,
     performComparison file1 file2 keyColumn = Some r →
     ∃ idx1 idx2,
       buildIndex keyColumn (rows file1) = Some idx1 ∧
       buildIndex keyColumn (rows file2) = Some idx2 ∧
       (Forall isAdded (added r) ∧
        entryKey <$> added r = filter (λ k, k ∉ keys idx1) (keys idx2)) ∧
       (Forall isRemoved (removed r) ∧
        entryKey <$> removed r = filter (λ k, k ∉ keys idx2) (keys idx1)) ∧
       (Forall isChanged (changed r) ∧ Forall isUnchanged (unchanged r) ∧
        (entryKey <$> changed r) `sublist_of` keys idx1 ∧
        (entryKey <$> unchanged r) `sublist_of` keys idx1 ∧
        (∀ key, key ∈ entryKey <$> (changed r ++ unchanged r) ↔
                key ∈ keys idx1 ∧ key ∈ keys idx2)) ∧
       (∀ key, key ∈ keys idx1 ∨ key ∈ keys idx2 →
               countKey key (allEntries r) = 1)).
Proof.
  split; [apply performComparison_returns|].
  intros r [(H1 & H2 & _) ->]%performComparison_Some.
  eexists _, _. split; [by apply buildIndex_Some|].
  split; [by apply buildIndex_Some|]. apply Own_classification.
Qed.

(** C1, at the failing input.  For the files [id,constructor] / [1,x] and
    [id,v] / [1,y] and the key [id], both indices are built and hold the
    key [1]; then comparing the two rows raises a [TypeError], and no
    result is returned: the key is classified nowhere. *)
Example classification_failing_input :
  parseFile (u "auto") memberContent1 (u "a.csv") = inr memberParsed1 ∧
  parseFile (u "auto") memberContent2 (u "b.csv") = inr memberParsed2 ∧
  keys <$> buildIndex (u "id") (rows memberParsed1) = Some [u "1"] ∧
  keys <$> buildIndex (u "id") (rows memberParsed2) = Some [u "1"] ∧
  performComparison memberParsed1 memberParsed2 (u "id") = None.
Proof. by vm_compute. Qed.

(** X18.  Two rows filed under one key in both indices are compared column
    by column over the union of their column names, each value trimmed and
    a value the row does not have read as the empty string, unless the
    column is named like a member of [Object.prototype]: when one row owns
    such a column and the other does not, nothing is returned.  In a result
    the key has one changed entry if some column differs, whose differences
    hold exactly the differing columns with the value of the first dataset
    as old and that of the second as new, and one unchanged entry
    otherwise. *)
Theorem changed_or_unchanged (file1 file2 : ParsedDataset)
    (keyColumn key : jsstring) (idx1 idx2 : jsmap) (row1 row2 : record) :
  buildIndex keyColumn (rows file1) = Some idx1 →
  buildIndex keyColumn (rows file2) = Some idx2 →
  Map_get key idx1 = Some row1 →
  Map_get key idx2 = Some row2 →
  (∀ row column,
     trimmedValue row column =
       if decide (row !! column = None ∧ column ∈ Object_prototype)
       then None else Some (trim (orEmpty (row !! column)))) ∧
  (compareRows row1 row2 = None ↔
   ∃ column, column ∈ Object_prototype ∧
     (is_Some (row1 !! column) ∧ row2 !! column = None ∨
      row1 !! column = None ∧ is_Some (row2 !! column))) ∧
  (compareRows row1 row2 = None →
   performComparison file1 file2 keyColumn = None) ∧
  (∀ r,
     performComparison file1 file2 keyColumn = Some r →
     ((∃ column, column ∈ dom row1 ∪ dom row2 ∧
                 cell row1 column ≠ cell row2 column) →
      ∃ differences,
        Changed key row1 row2 differences ∈ changed r ∧
        countKey key (changed r) = 1 ∧ countKey key (unchanged r) = 0 ∧
        dom differences ⊆ dom row1 ∪ dom row2 ∧
        ∀ column d,
          differences !! column = Some d ↔
          cell row1 column ≠ cell row2 column ∧
          d = {| old := cell row1 column; new := cell row2 column |}) ∧
     (¬ (∃ column, column ∈ dom row1 ∪ dom row2 ∧
                   cell row1 column ≠ cell row2 column) →
      Unchanged key row1 ∈ unchanged r ∧
      countKey key (unchanged r) = 1 ∧ countKey key (changed r) = 0)).
Proof.
  intros [Hi1 ->]%buildIndex_Some [Hi2 ->]%buildIndex_Some Hg1 Hg2.
  split; [|split; [|split]].
  - intros row column. apply trimmedValue_outcome.
  - rewrite compareRows_outcome. unfold comparable, set_Forall, allColumns.
    case_decide as Hc.
    + split; [done|]. intros (column & Hp & Hcol). exfalso.
      destruct (Hc column) as [Hn1 Hn2].
      { rewrite elem_of_union, !elem_of_dom. tauto. }
      destruct Hcol as [[_ ?]|[? _]]; [by apply Hn2|by apply Hn1].
    + split; [|done]. intros _.
      apply not_set_Forall_Exists in Hc; [|apply _].
      destruct Hc as (column & Hin & Hcol).
      apply elem_of_union in Hin. rewrite !elem_of_dom in Hin.
      exists column. unfold inherits, compose in Hcol. simpl in Hcol.
      destruct (decide (column ∈ Object_prototype)) as [Hp|Hp];
        [|destruct Hcol; split; by intros [_ ?]].
      split; [done|].
      destruct (row1 !! column) as [v1|] eqn:E1,
               (row2 !! column) as [v2|] eqn:E2.
      * destruct Hcol. split; by intros [? _].
      * left. by eauto.
      * right. by eauto.
      * by destruct Hin as [[? ?]|[? ?]].
  - intros Hnone. apply performComparison_None.
    intros (_ & _ & Hpairs). rewrite comparableWith_lookup in Hpairs.
    apply Map_get_elem in Hg1.
    pose proof (Hpairs _ _ _ Hg1 Hg2) as Hc.
    rewrite compareRows_outcome, decide_True in Hnone by done. done.
  - intros r [_ ->]%performComparison_Some.
    by apply Own_changed_or_unchanged.
Qed.

(** C2, at the failing input.  The second row has no column
    [constructor]; the value read for it is the function
    [Object.prototype] holds under the name, not the empty string, and
    calling [trim] on it raises a [TypeError]: the rows are not compared
    and no result is returned.  A column that is no member name, here [v]
    on the first row, is read as the empty string. *)
Example absent_value_not_defaulted :
  let row1 := row_of [("id", "1"); ("constructor", "x")] in
  let row2 := row_of [("id", "1"); ("v", "y")] in
  rows memberParsed1 = [row1] ∧ rows memberParsed2 = [row2] ∧
  row2 !! u "constructor" = None ∧
  Object_get row2 (u "constructor") = Member (u "constructor") ∧
  trimmedValue row2 (u "constructor") = None ∧
  trimmedValue row1 (u "v") = Some [] ∧
  compareRows row1 row2 = None ∧
  performComparison memberParsed1 memberParsed2 (u "id") = None.
Proof. by vm_compute. Qed.

(** C6, as amended.  For two datasets with the same headers and the same
    rows a result is returned whenever the index can be built, and then
    the added, removed and changed lists are empty and the unchanged list
    has one entry for each key of the index; that is no more than the row
    count, which is the same in both totals, and it equals the row count
    when every row has a non-blank key and no two rows share a key. *)
Theorem identical_datasets (file1 file2 : ParsedDataset)
    (keyColumn : jsstring) :
  headers file1 = headers file2 →
  rows file1 = rows file2 →
  (performComparison file1 file2 keyColumn = None ↔
   buildIndex keyColumn (rows file1) = None) ∧
  (Forall (λ row, ∃ key, row !! keyColumn = Some key ∧ trim key ≠ [])
     (rows file1) →
   is_Some (performComparison file1 file2 keyColumn)) ∧
  (∀ r,
     performComparison file1 file2 keyColumn = Some r →
     ∃ idx,
       buildIndex keyColumn (rows file1) = Some idx ∧
       added r = [] ∧ removed r = [] ∧ changed r = [] ∧
       length (unchanged r) = length idx ∧
       length (unchanged r) ≤ Stats.total1 (stats r) ∧
       Stats.total1 (stats r) = Stats.total2 (stats r) ∧
       (Forall (λ row, ∃ key, row !! keyColumn = Some key ∧ trim key ≠ [])
          (rows file1) →
        NoDup ((λ row : record, row !! keyColumn) <$> rows file1) →
        length (unchanged r) = Stats.total1 (stats r))).
Proof.
  intros Hh Hrows.
  assert (returns file1 file2 keyColumn ↔ indexable keyColumn (rows file1))
    as Hret.
  { unfold returns. rewrite <- Hrows. split; [by intros (? & _)|].
    intros Hi. split; [done|]. split; [done|].
    destruct (buildIndex_entries keyColumn (rows file1)) as (Hnd & _).
    apply comparableWith_lookup. intros key row1 row2 Hin Hg.
    apply Map_elem_get in Hin; [|done].
    assert (row2 = row1) as -> by congruence. apply comparable_same. }
  split; [|split].
  - rewrite performComparison_None, Hret, buildIndex_outcome.
    by case_decide.
  - intros Hall.
    assert (returns file1 file2 keyColumn) as Hr.
    { apply Hret. eapply Forall_impl; [exact Hall|].
      intros row (key & Hk & _) [Hn _]. congruence. }
    exists (Own.performComparison file1 file2 keyColumn).
    by apply performComparison_Some.
  - intros r [Hr ->]%performComparison_Some.
    exists (Own.buildIndex keyColumn (rows file1)).
    split; [apply buildIndex_Some; split; [exact (proj1 Hr)|done]|].
    by apply Own_identical_datasets.
Qed.

(** C8.  In every result the totals are the row counts of the two
    datasets, whatever the keys of the rows are, and the other four counts
    are the lengths of the four lists. *)
Theorem stats_derived (file1 file2 : ParsedDataset) (keyColumn : jsstring)
    (r : ComparisonResult) :
  performComparison file1 file2 keyColumn = Some r →
  Stats.total1 (stats r) = length (rows file1) ∧
  Stats.total2 (stats r) = length (rows file2) ∧
  Stats.added (stats r) = length (added r) ∧
  Stats.removed (stats r) = length (removed r) ∧
  Stats.changed (stats r) = length (changed r) ∧
  Stats.unchanged (stats r) = length (unchanged r).
Proof. intros [_ ->]%performComparison_Some. by repeat split. Qed.

(** ** The statements at sample inputs *)

Lemma classification_witness :
  ∃ r, performComparison sample1 sample2 (u "id") = Some r ∧
       countKey (u "2") (allEntries r) = 1.
Proof.
  destruct (classification sample1 sample2 (u "id")) as [_ H].
  destruct (H (Own.performComparison sample1 sample2 (u "id")))
    as (idx1 & idx2 & _ & H2 & _ & _ & _ & Hcount).
  - vm_compute. reflexivity.
  - eexists. split; [vm_compute; reflexivity|]. apply Hcount.
    right. vm_compute in H2. injection H2 as <-. right. left.
Defined.

Lemma changed_or_unchanged_witness :
  ∃ r, performComparison sample1 sample2 (u "id") = Some r ∧
       countKey (u "1") (changed r) = 1.
Proof.
  destruct (changed_or_unchanged sample1 sample2 (u "id") (u "1")
              (Own.buildIndex (u "id") (rows sample1))
              (Own.buildIndex (u "id") (rows sample2))
              (row_of [("id", "1"); ("v", "x")])
              (row_of [("id", "1"); ("v", "y")])) as (_ & _ & _ & H).
  - vm_compute. reflexivity.
  - vm_compute. reflexivity.
  - vm_compute. reflexivity.
  - vm_compute. reflexivity.
  - destruct (H (Own.performComparison sample1 sample2 (u "id")))
      as [Hchanged _]; [vm_compute; reflexivity|].
    eexists. split; [vm_compute; reflexivity|].
    destruct Hchanged as (differences & _ & Hcount & _); [|exact Hcount].
    exists (u "v"). split.
    + apply elem_of_union. left. apply elem_of_dom. vm_compute. eauto.
    + vm_compute. discriminate.
Defined.



Lemma parseFile_dataset_witness :
  headers sampleParsed ≠ [] ∧ rows sampleParsed ≠ [].
Proof.
  destruct (parseFile_dataset (u "auto") sampleContent (u "f.txt") sampleParsed)
    as (Hh & Hr & _).
  - vm_compute. reflexivity.
  - split; [exact Hh|exact Hr].
Defined.

Lemma duplicate_headers_collapse_witness :
  size (fillRow [u "1"; u "2"] 0 (headers duplicateHeaderParsed) ∅)
  < length (headers duplicateHeaderParsed).
Proof.
  destruct (duplicate_headers_collapse (u "auto") duplicateHeaderContent
              (u "f.txt") duplicateHeaderParsed) as (_ & _ & Hrow).
  - vm_compute. reflexivity.
  - destruct (Hrow [u "1"; u "2"]) as (_ & _ & _ & Hlt & _).
    apply Hlt. intros Hnd. inversion Hnd as [|? ? Hnotin _]. apply Hnotin.
    left.
Defined.

Lemma identical_datasets_witness :
  ∃ r, performComparison sample2 sample2 (u "id") = Some r ∧
       length (unchanged r) = Stats.total1 (stats r).
Proof.
  destruct (identical_datasets sample2 sample2 (u "id") eq_refl eq_refl)
    as (_ & _ & H).
  destruct (H (Own.performComparison sample2 sample2 (u "id")))
    as (idx & _ & _ & _ & _ & _ & _ & _ & Heq); [vm_compute; reflexivity|].
  eexists. split; [vm_compute; reflexivity|].
  apply Heq.
  - repeat constructor.
    + exists (u "1"). split; [vm_compute; reflexivity|vm_compute; discriminate].
    + exists (u "2"). split; [vm_compute; reflexivity|vm_compute; discriminate].
  - vm_compute. repeat constructor.
    + intros H'. inversion H' as [|? ? ? H'']. inversion H''.
    + intros H'. inversion H'.
Defined.

Lemma stats_derived_witness :
  ∃ r, performComparison sample1 sample2 (u "id") = Some r ∧
       Stats.total1 (stats r) = 1 ∧ Stats.total2 (stats r) = 2.
Proof.
  eexists. split; [vm_compute; reflexivity|].
  destruct (stats_derived sample1 sample2 (u "id")
              (Own.performComparison sample1 sample2 (u "id")))
    as (H1 & H2 & _); [vm_compute; reflexivity|].
  split; [exact H1|exact H2].
Defined.

(** The claim C6 as the specification words it: a file with a key that
    occurs twice, compared with itself, gives a result with one unchanged
    entry and two rows in each total. *)
Lemma identical_datasets_counterexample :
  ∃ r,
    performComparison duplicateKeyParsed duplicateKeyParsed (u "id") = Some r ∧
    ¬ (added r = [] ∧ removed r = [] ∧ changed r = [] ∧
       length (unchanged r) = Stats.total1 (stats r) ∧
       length (unchanged r) = Stats.total2 (stats r)).
Proof.
  eexists. split; [vm_compute; reflexivity|].
  intros (_ & _ & _ & H & _). vm_compute in H. discriminate.
Qed.

(** The inputs of the statements above are outcomes of the parser. *)
Example parseFile_samples :
  parseFile (u "auto") sampleContent (u "f.txt") = inr sampleParsed ∧
  parseFile (u "auto") duplicateKeyContent (u "f.csv")
    = inr duplicateKeyParsed ∧
  parseFile (u "auto") duplicateHeaderContent (u "f.txt")
    = inr duplicateHeaderParsed ∧
  parseFile (u "auto") (crlf sampleContent) (u "f.txt") = inr sampleParsed ∧
  ScriptJs.parseFile (u "auto") (crlf sampleContent) (u "f.txt")
    = inr sampleParsed.
Proof. by vm_compute. Qed.

(** The four failures of the main parser, and the parser of [script.js],
    which checks the line count only. *)
Example parseFile_failures :
  parseFile (u "auto") (u "  " ++ [LF]) (u "f.txt") = inl FileIsEmpty ∧
  parseFile (u "auto") (u "a,b") (u "f.txt") = inl HeaderAndDataNeeded ∧
  parseFile (u "auto") (u "a,,b" ++ [LF] ++ u "1,2,3") (u "f.txt")
    = inl EmptyHeaderPresent ∧
  parseFile (u "auto") (u "a,b" ++ [LF] ++ u ",") (u "f.txt")
    = inl NoDataRows ∧
  ScriptJs.parseFile (u "auto") (u "a,b" ++ [LF] ++ u ",") (u "f.txt")
    = inr {| headers := [u "a"; u "b"]; rows := [];
             delimiter := getDelimiterName COMMA |} ∧
  ScriptJs.parseFile (u "auto") [] (u "f.txt") = inl HeaderAndDataNeeded.
Proof. by vm_compute. Qed.

(** The diff example of the specification. *)
Example performComparison_sample :
  performComparison sample1 sample2 (u "id") = Some
  {| added := [Added (u "2") (row_of [("id", "2"); ("v", "z")])];
     removed := [];
     changed := [Changed (u "1") (row_of [("id", "1"); ("v", "x")])
                   (row_of [("id", "1"); ("v", "y")])
                   {[ u "v" := {| old := u "x"; new := u "y" |} ]}];
     unchanged := [];
     stats := {| Stats.total1 := 1; Stats.total2 := 2; Stats.added := 1;
                 Stats.removed := 0; Stats.changed := 1;
                 Stats.unchanged := 0 |} |}.
Proof. by vm_compute. Qed.

(** A row with an empty key counts in the total and enters no list. *)
Example blank_key_counted :
  let file := {| headers := [u "id"; u "v"];
                 rows := [row_of [("id", ""); ("v", "x")];
                          row_of [("id", "1"); ("v", "y")]];
                 delimiter := getDelimiterName COMMA |} in
  parseFile (u "auto") (u "id,v" ++ [LF] ++ u ",x" ++ [LF] ++ u "1,y")
    (u "f.txt") = inr file ∧
  Stats.total1 ∘ stats <$> performComparison file file (u "id") = Some 2 ∧
  fmap entryKey ∘ allEntries <$> performComparison file file (u "id")
  = Some [u "1"].
Proof. by vm_compute. Qed.

(** ** CSV export: quoting *)

Lemma includes_true (c : N) (s : jsstring) : includes c s = true ↔ c ∈ s.
Proof. unfold includes. apply bool_decide_eq_true. Qed.

Lemma includes_false (c : N) (s : jsstring) : includes c s = false ↔ c ∉ s.
Proof. unfold includes. apply bool_decide_eq_false. Qed.

(** Whether [csvQuote] wraps a string. *)
Lemma csvQuote_cases (str : jsstring) :
  ((COMMA ∉ str) ∧ (LF ∉ str) ∧ (CR ∉ str) ∧ (QUOTE ∉ str) ∧
   csvQuote (Some str) = str) ∨
  ((COMMA ∈ str ∨ LF ∈ str ∨ CR ∈ str ∨ QUOTE ∈ str) ∧
   csvQuote (Some str) = [QUOTE] ++ doubleQuotes str ++ [QUOTE]).
Proof.
  unfold csvQuote.
  destruct (includes COMMA str) eqn:E1; [right|].
  { apply includes_true in E1. auto. }
  destruct (includes LF str) eqn:E2; [right|].
  { apply includes_true in E2. auto. }
  destruct (includes CR str) eqn:E3; [right|].
  { apply includes_true in E3. auto. }
  destruct (includes QUOTE str) eqn:E4; [right|left].
  { apply includes_true in E4. auto. }
  apply includes_false in E1, E2, E3, E4. auto.
Qed.

Ltac read_step := simpl; repeat (case_decide; try done).

Lemma read_quoted (s : jsstring) :
  ∀ field rec rest,
  csvRead InQuoted field rec (doubleQuotes s ++ QUOTE :: rest) =
  csvRead QuoteSeen (field ++ s) rec rest.
Proof.
  induction s as [|c s IH]; intros field rec rest; simpl.
  - by rewrite app_nil_r.
  - destruct (N.eqb_spec c QUOTE) as [->|Hc]; simpl.
    + rewrite IH. by rewrite <- app_assoc.
    + case_decide; [done|]. rewrite IH. by rewrite <- app_assoc.
Qed.

Lemma read_plain (s : jsstring) :
  COMMA ∉ s → LF ∉ s → QUOTE ∉ s →
  ∀ field rec rest,
  csvRead InPlain field rec (s ++ rest) = csvRead InPlain (field ++ s) rec rest.
Proof.
  induction s as [|c s IH]; intros H1 H2 H3 field rec rest; simpl.
  - by rewrite app_nil_r.
  - apply not_elem_of_cons in H1 as [? ?], H2 as [? ?], H3 as [? ?].
    read_step. rewrite IH by done. by rewrite <- app_assoc.
Qed.

(** Reading one written field up to the separator that follows it. *)
Lemma read_field (str : jsstring) (rec : list jsstring) (rest : jsstring) :
  csvRead FieldStart [] rec (csvQuote (Some str) ++ COMMA :: rest) =
    csvRead FieldStart [] (rec ++ [str]) rest ∧
  csvRead FieldStart [] rec (csvQuote (Some str) ++ LF :: rest) =
    cons (rec ++ [str]) <$> csvRead FieldStart [] [] rest.
Proof.
  destruct (csvQuote_cases str) as [(H1 & H2 & _ & H4 & ->)|[_ ->]].
  - destruct str as [|c s]; [done|].
    apply not_elem_of_cons in H1 as [? ?], H2 as [? ?], H4 as [? ?].
    split; read_step; by rewrite read_plain by done.
  - split; simpl; rewrite <- !app_assoc; simpl; by rewrite read_quoted.
Qed.

Lemma read_line (fields : list jsstring) :
  ∀ field rec rest,
  csvRead FieldStart [] rec (csvLine (field :: fields) ++ rest) =
  cons (rec ++ field :: fields) <$> csvRead FieldStart [] [] rest.
Proof.
  unfold csvLine.
  induction fields as [|f fields IH]; intros field rec rest.
  - cbn [join map]. rewrite <- app_assoc. cbn [app].
    by destruct (read_field field rec rest) as [_ ->].
  - change (join COMMA (map (λ value, csvQuote (Some value)) (field :: f :: fields)))
      with (csvQuote (Some field) ++ COMMA ::
            join COMMA (map (λ value, csvQuote (Some value)) (f :: fields))).
    rewrite <- !app_assoc. cbn [app].
    destruct (read_field field rec
                (join COMMA (map (λ value, csvQuote (Some value)) (f :: fields))
                 ++ LF :: rest)) as [-> _].
    specialize (IH f (rec ++ [field]) rest).
    rewrite <- !app_assoc in IH. cbn [app] in IH. by rewrite IH.
Qed.

Lemma read_lines (rows_ : list (list jsstring)) :
  Forall (λ row, row ≠ []) rows_ →
  csvParse (concat (map csvLine rows_)) = Some rows_.
Proof.
  unfold csvParse. induction 1 as [|row rows_ Hrow _ IH]; simpl; [done|].
  destruct row as [|field fields]; [done|].
  by rewrite (read_line fields field [] _), IH.
Qed.

Lemma length_doubleQuotes (s : jsstring) : length s ≤ length (doubleQuotes s).
Proof.
  induction s as [|c s IH]; simpl; [done|].
  destruct (c =? QUOTE)%N; simpl; lia.
Qed.

(** X1.  [csvQuote] never gives two different strings the same field, and
    it leaves a string as it is exactly when the string has no comma, line
    feed, carriage return or quotation mark; [null] is written like the
    empty string. *)
Theorem csvQuote_unambiguous (s t : jsstring) :
  (csvQuote (Some s) = csvQuote (Some t) → s = t) ∧
  (csvQuote (Some s) = s ↔
   (COMMA ∉ s) ∧ (LF ∉ s) ∧ (CR ∉ s) ∧ (QUOTE ∉ s)) ∧
  csvQuote None = csvQuote (Some []).
Proof.
  split; [|split; [|done]].
  - intros H.
    assert (csvParse (csvLine [s]) = csvParse (csvLine [t])) as Hp.
    { unfold csvLine. cbn [map join]. by rewrite H. }
    pose proof (read_lines [[s]]) as Hs. pose proof (read_lines [[t]]) as Ht.
    cbn [map concat] in Hs, Ht. rewrite app_nil_r in Hs, Ht.
    rewrite Hs, Ht in Hp by (by repeat constructor). by injection Hp.
  - destruct (csvQuote_cases s) as [(H1 & H2 & H3 & H4 & E)|[Hin E]].
    + split; [done|by intros _].
    + split.
      * intros E'. rewrite E' in E. apply (f_equal length) in E.
        simpl in E. rewrite length_app in E. simpl in E.
        pose proof (length_doubleQuotes s). lia.
      * intros (? & ? & ? & ?). by destruct Hin as [?|[?|[?|?]]].
Qed.

Lemma csvQuote_unambiguous_witness :
  csvQuote (Some (u "a b")) = u "a b".
Proof.
  apply (csvQuote_unambiguous (u "a b") []).
  repeat split; apply (bool_decide_unpack _); vm_compute; exact I.
Defined.

(** X2.  The lines [exportCSV] writes can be read back: a reader of comma
    separated text recovers every field of every row, also when fields
    hold commas, quotation marks or line breaks; so two different tables
    are never written as the same text. *)
Theorem csvLine_read_back (table table' : list (list jsstring)) :
  Forall (λ row, row ≠ []) table →
  csvParse (concat (map csvLine table)) = Some table ∧
  (Forall (λ row, row ≠ []) table' →
   concat (map csvLine table) = concat (map csvLine table') →
   table = table').
Proof.
  intros H. split; [by apply read_lines|].
  intros H' E. apply read_lines in H, H'. rewrite E in H. congruence.
Qed.

Lemma csvLine_read_back_witness :
  csvParse (concat (map csvLine [[u "a,b"; [QUOTE; LF]]; [[]]]))
  = Some [[u "a,b"; [QUOTE; LF]]; [[]]].
Proof.
  apply (csvLine_read_back [[u "a,b"; [QUOTE; LF]]; [[]]] []).
  repeat constructor; discriminate.
Defined.

(** ** CSV export: the file *)

Lemma join_concat (sep : N) (field : jsstring) (fields : list jsstring) :
  join sep (field :: fields) =
  field ++ concat (map (λ f, sep :: f) fields).
Proof.
  revert field. induction fields as [|f fields IH]; intros field.
  - simpl. by rewrite app_nil_r.
  - change (join sep (field :: f :: fields))
      with (field ++ sep :: join sep (f :: fields)).
    by rewrite IH.
Qed.

Lemma csvLine_titles (a b : jsstring) (columns : list jsstring) :
  csvLine (a :: b :: columns) =
  csvQuote (Some a) ++ COMMA :: csvQuote (Some b)
  ++ concat (map (λ col, COMMA :: csvQuote (Some col)) columns) ++ [LF].
Proof.
  unfold csvLine. cbn [map]. rewrite join_concat. cbn [map concat].
  rewrite map_map, <- !app_assoc. done.
Qed.

Lemma csvContent_lines (nativeSource : jsstring → jsstring)
    (columns : list jsstring) (data : list DiffEntry) :
  csvContent nativeSource columns data =
  BOM :: concat (map csvLine (exportTitles columns
                              :: map (exportRow nativeSource columns) data)).
Proof.
  unfold csvContent, exportTitles. cbn [app concat map].
  rewrite csvLine_titles, map_map, <- !app_assoc. cbn [app].
  do 2 f_equal. by rewrite <- !app_assoc.
Qed.

Lemma dataToExport_lists (type : jsstring) (result : ComparisonResult) :
  dataToExport type result =
  added result ++ removed result ++ changed result
  ++ (if decide (type = u "all") then unchanged result else []).
Proof. unfold dataToExport. case_decide; [done|by rewrite app_nil_r]. Qed.

(** X3.  [exportCSV] reports that there is no result exactly when no
    comparison is held, and that there is nothing to export exactly when
    the lists chosen by the type are empty.  Otherwise the text is the mark
    U+FEFF followed by lines that read back as a rectangular table: the
    titles and the column names first, then one record for each entry, the
    added ones first, then the removed, the changed and, for the type all,
    the unchanged ones, every record with two fields more than there are
    columns.  This holds whatever text the implementation writes for a
    function. *)
Theorem exportCSV_table (nativeSource : jsstring → jsstring)
    (type : jsstring) (comparisonResult : option ComparisonResult)
    (columns : list jsstring) :
  let entries (result : ComparisonResult) :=
    added result ++ removed result ++ changed result
    ++ (if decide (type = u "all") then unchanged result else []) in
  let outcome := exportCSV nativeSource type comparisonResult columns in
  (outcome = NoResult ↔ comparisonResult = None) ∧
  (outcome = NothingToExport ↔
   ∃ result, comparisonResult = Some result ∧ entries result = []) ∧
  (∀ content,
     outcome = Exported content →
     ∃ result body,
       comparisonResult = Some result ∧ content = BOM :: body ∧
       entries result ≠ [] ∧
       csvParse body =
         Some (exportTitles columns
               :: map (exportRow nativeSource columns) (entries result)) ∧
       Forall (λ record, length record = 2 + length columns)
         (exportTitles columns
          :: map (exportRow nativeSource columns) (entries result))).
Proof.
  cbv zeta. setoid_rewrite <- dataToExport_lists.
  unfold exportCSV. destruct comparisonResult as [result|].
  - cbv zeta.
    destruct (dataToExport type result) as [|item data] eqn:E; simpl.
    + split; [by split|]. split; [split; [|done]|done].
      intros _. by exists result.
    + split; [by split|].
      split.
      { split; [done|]. intros (? & [= <-] & H). congruence. }
      intros content [= <-]. exists result. eexists.
      split; [done|]. split; [by rewrite csvContent_lines|].
      rewrite E. split; [done|]. split.
      * apply read_lines. constructor; [done|].
        apply Forall_forall. intros row (e & -> & _)%list_elem_of_fmap. done.
      * constructor; [unfold exportTitles; simpl; done|].
        apply Forall_forall. intros row (e & -> & _)%list_elem_of_fmap.
        unfold exportRow. simpl. by rewrite length_map.
  - split; [by split|]. split; [|done]. split; [done|by intros (? & ? & _)].
Qed.

Lemma exportCSV_table_witness :
  ∃ result body,
    performComparison sample1 sample2 (u "id") = Some result ∧
    exportCSV (λ _, []) (u "diff") (Some result) [u "id"; u "v"]
    = Exported (BOM :: body) ∧
    csvParse body =
      Some (exportTitles [u "id"; u "v"]
            :: map (exportRow (λ _, []) [u "id"; u "v"])
                 (dataToExport (u "diff") result)).
Proof.
  destruct (exportCSV_table (λ _, []) (u "diff")
              (Some (Own.performComparison sample1 sample2 (u "id")))
              [u "id"; u "v"]) as (_ & _ & H).
  destruct (H (csvContent (λ _, []) [u "id"; u "v"]
                 (dataToExport (u "diff")
                    (Own.performComparison sample1 sample2 (u "id")))))
    as (result & body & E & Eb & _ & P & _).
  - vm_compute. reflexivity.
  - injection E as <-.
    exists (Own.performComparison sample1 sample2 (u "id")), body.
    split; [vm_compute; reflexivity|]. split.
    + rewrite <- Eb. vm_compute. reflexivity.
    + rewrite P. vm_compute. reflexivity.
Defined.

Lemma orElse_self (x : jsstring) : orElse (Some x) [] = x.
Proof. by destruct x. Qed.

Lemma orElse_orEmpty (x : option jsstring) : orElse x [] = orEmpty x.
Proof. by destruct x as [[|]|]. Qed.

Lemma trimmedRow_cell (row : record) (column : jsstring) :
  trimmedRow row → cell row column = orEmpty (row !! column).
Proof.
  intros H. unfold cell. destruct (row !! column) as [v|] eqn:E; [|done].
  simpl. by apply (H column).
Qed.

Lemma fillRow_trimmed (values hs : list jsstring) :
  trimmedRow (fillRow values 0 hs ∅).
Proof. intros column v Hv. by eapply trimmed_cells. Qed.

Lemma parseFile_trimmed (sel content filename : jsstring)
    (data : ParsedDataset) :
  parseFile sel content filename = inr data → Forall trimmedRow (rows data).
Proof.
  intros (_ & _ & ->)%parseFile_inr. simpl. apply Forall_forall.
  intros row (line & _ & (_ & -> & _)%rowOfLine_Some)%list_elem_of_omap.
  apply fillRow_trimmed.
Qed.

(** What a row of a parsed dataset owns. *)
Lemma parsed_row_dom (sel content filename : jsstring) (file : ParsedDataset)
    (row : record) :
  parseFile sel content filename = inr file → row ∈ rows file →
  dom row = list_to_set (headers file) ∖ {[PROTO]}.
Proof.
  intros (_ & _ & ->)%parseFile_inr. simpl.
  intros (line & _ & (_ & -> & _)%rowOfLine_Some)%list_elem_of_omap.
  apply fillRow_dom.
Qed.

Lemma parsed_row_no_proto (sel content filename : jsstring)
    (file : ParsedDataset) (row : record) :
  parseFile sel content filename = inr file → row ∈ rows file →
  row !! PROTO = None.
Proof.
  intros P Hin. apply not_elem_of_dom.
  rewrite (parsed_row_dom _ _ _ _ _ P Hin). set_solver.
Qed.

(** The value read for a column that is no member name of
    [Object.prototype]. *)
Lemma valueOr_own (row : record) (col : jsstring) (w : Value) :
  col ∉ Object_prototype →
  valueOr (Object_get row col) w =
    if decide (orEmpty (row !! col) = []) then w else Str (orEmpty (row !! col)).
Proof.
  intros Hp. unfold valueOr, Object_get.
  destruct (row !! col) as [v|]; simpl.
  - case_bool_decide; [by rewrite decide_False|by rewrite decide_True].
  - by rewrite decide_False.
Qed.

(** X4.  In the export of a comparison of two parsed datasets, the cell of
    a changed entry shows the old and the new value exactly in the columns
    where the two rows differ.  In a column where they do not differ it
    shows the value they share, unless the column is named like a member of
    [Object.prototype]: then it shows the text of a change with two empty
    values, whatever the rows hold. *)
Theorem exportCell_changed (sel1 content1 name1 sel2 content2 name2 : jsstring)
    (file1 file2 : ParsedDataset) (keyColumn : jsstring)
    (r : ComparisonResult) (item : DiffEntry) :
  parseFile sel1 content1 name1 = inr file1 →
  parseFile sel2 content2 name2 = inr file2 →
  performComparison file1 file2 keyColumn = Some r →
  item ∈ changed r →
  ∃ key row1 row2 differences,
    item = Changed key row1 row2 differences ∧
    row1 ∈ rows file1 ∧ row2 ∈ rows file2 ∧
    ∀ col,
      exportCell item col =
        Str (if decide (orEmpty (row1 !! col) ≠ orEmpty (row2 !! col))
             then changeText (orEmpty (row1 !! col)) (orEmpty (row2 !! col))
             else if decide (col ∈ Object_prototype) then changeText [] []
             else orEmpty (row1 !! col)).
Proof.
  intros P1 P2 [_ ->]%performComparison_Some.
  destruct (performComparison_lists file1 file2 keyColumn)
    as (_ & _ & -> & _).
  intros ([key row1] & Hin & (row2 & Hg & _ & ->)%changedEntry_Some)
    %list_elem_of_omap.
  simpl in *. apply Map_get_elem in Hg.
  destruct (buildIndex_entries keyColumn (rows file1)) as (_ & E1 & _).
  destruct (buildIndex_entries keyColumn (rows file2)) as (_ & E2 & _).
  destruct (E1 _ _ Hin) as (Hr1 & _). destruct (E2 _ _ Hg) as (Hr2 & _).
  exists key, row1, row2, (Own.compareRows row1 row2).1.
  split; [done|]. split; [done|]. split; [done|].
  pose proof (parseFile_trimmed _ _ _ _ P1) as Ht1.
  pose proof (parseFile_trimmed _ _ _ _ P2) as Ht2.
  rewrite Forall_forall in Ht1, Ht2.
  pose proof (Ht1 _ Hr1) as T1. pose proof (Ht2 _ Hr2) as T2.
  pose proof (parsed_row_no_proto _ _ _ _ _ P1 Hr1) as N1.
  pose proof (parsed_row_no_proto _ _ _ _ _ P2 Hr2) as N2.
  destruct (compareRows_spec row1 row2) as [Hd _]. cbv zeta in Hd.
  assert ((Own.compareRows row1 row2).1 !! PROTO = None) as Hlink.
  { apply eq_None_not_Some. intros [d [Hne _]%Hd].
    apply Hne. unfold cell. by rewrite N1, N2. }
  intros col. unfold exportCell, differences_get. rewrite Hlink.
  rewrite <- (trimmedRow_cell row1 col T1), <- (trimmedRow_cell row2 col T2).
  destruct ((Own.compareRows row1 row2).1 !! col) as [d|] eqn:El.
  - apply Hd in El as [Hne ->]. cbn [old new].
    assert (∀ x : jsstring, match x with [] => [] | c :: r => c :: r end = x)
      as Hm by (by intros []).
    by rewrite !Hm, decide_True.
  - destruct (decide (cell row1 col ≠ cell row2 col)) as [Hne|Heq].
    { assert ((Own.compareRows row1 row2).1 !! col = Some
                {| old := cell row1 col; new := cell row2 col |}) as El'
        by by apply Hd.
      congruence. }
    apply dec_stable in Heq. unfold Object_get at 1. rewrite lookup_empty.
    destruct (decide (col ∈ Object_prototype)) as [Hp|Hp]; [done|].
    cbn [truthyValue]. rewrite !valueOr_own by done.
    rewrite (trimmedRow_cell row1 col T1), (trimmedRow_cell row2 col T2) in *.
    rewrite <- Heq. case_decide as He; [|done]. by rewrite He.
Qed.

Lemma exportCell_changed_witness :
  let row1 := row_of [("id", "1"); ("v", "x")] in
  let row2 := row_of [("id", "1"); ("v", "y")] in
  let item :=
    Changed (u "1") row1 row2 {[ u "v" := {| old := u "x"; new := u "y" |} ]}
  in
  exportCell item (u "id") = Str (u "1") ∧
  exportCell item (u "v") = Str (changeText (u "x") (u "y")).
Proof.
  intros row1 row2 item.
  destruct (exportCell_changed
              (u "auto") (u "id,v" ++ [LF] ++ u "1,x") (u "f.csv")
              (u "auto") (u "id,v" ++ [LF] ++ u "1,y" ++ [LF] ++ u "2,z")
              (u "f.csv") sample1 sample2 (u "id")
              (Own.performComparison sample1 sample2 (u "id")) item)
    as (key & r1 & r2 & differences & E & _ & _ & H).
  - vm_compute. reflexivity.
  - vm_compute. reflexivity.
  - vm_compute. reflexivity.
  - vm_compute. left.
  - injection E as <- <- <- <-. split.
    + rewrite (H (u "id")). vm_compute. reflexivity.
    + rewrite (H (u "v")). vm_compute. reflexivity.
Defined.

(** A column named like a member of [Object.prototype]: both rows hold
    the same value under [constructor], and the export shows a change
    with two empty values in its place. *)
Example exportCell_member_column :
  let row1 := row_of [("id", "1"); ("constructor", "c"); ("v", "x")] in
  let row2 := row_of [("id", "1"); ("constructor", "c"); ("v", "y")] in
  compareRows row1 row2 =
    Some ({[ u "v" := {| old := u "x"; new := u "y" |} ]}, true) ∧
  exportCell
    (Changed (u "1") row1 row2 {[ u "v" := {| old := u "x"; new := u "y" |} ]})
    (u "constructor") = Str (changeText [] []) ∧
  exportCell (Added (u "1") row2) (u "toString") = Member (u "toString").
Proof. by vm_compute. Qed.

(** ** The key column the page offers *)

(** X5.  The key select offers the headers of the first dataset that the
    second one has too, in the order of the first, and preselects the first
    of them.  For datasets the parser returned and an offered key, the
    guards of [compareFiles] let the comparison run.  Under an offered key
    other than [__proto__] both indices are built, every row has a trimmed
    value in the key column, and a row stays out of the index only when
    that value is empty.  Under the offered key [__proto__], which no row
    owns, the comparison raises. *)
Theorem offered_key (sel1 content1 name1 sel2 content2 name2 : jsstring)
    (file1 file2 : ParsedDataset) :
  parseFile sel1 content1 name1 = inr file1 →
  parseFile sel2 content2 name2 = inr file2 →
  let common := commonHeaders file1 file2 in
  let options := updateKeyColumnOptions (Some file1) (Some file2) in
  common `sublist_of` headers file1 ∧
  (∀ h, h ∈ common ↔ h ∈ headers file1 ∧ h ∈ headers file2) ∧
  (common ≠ [] → options.1 = [] :: common ∧ options.2 ∈ common ∧
                 options.2 = hd [] common) ∧
  (∀ key, key ∈ common →
     compareFiles key (Some file1) (Some file2)
       = match performComparison file1 file2 key with
         | Some result => Compared result
         | None => ComparisonError
         end ∧
     (key = PROTO → performComparison file1 file2 key = None) ∧
     (key ≠ PROTO →
      ∀ rs, rs = rows file1 ∨ rs = rows file2 →
        ∃ idx, buildIndex key rs = Some idx ∧
          ∀ row, row ∈ rs →
            ∃ v, row !! key = Some v ∧ trim v = v ∧
                 (v ∈ keys idx ↔ v ≠ []))).
Proof.
  intros P1 P2 common options.
  assert (∀ h, h ∈ common ↔ h ∈ headers file1 ∧ h ∈ headers file2) as Hin.
  { intros h. unfold common, commonHeaders.
    by rewrite list_elem_of_filter, (comm and). }
  split; [apply sublist_filter|]. split; [done|]. split.
  - intros Hne. unfold options, updateKeyColumnOptions. cbv zeta. fold common.
    destruct common as [|h rest] eqn:E; [done|]. simpl.
    split; [done|]. split; [by left|done].
  - intros key [Hk1 Hk2]%Hin.
    pose proof P1 as (Hh1 & Hrows1 & E1)%parseFile_inr.
    assert (key ≠ []) as Hkey.
    { intros ->. rewrite E1 in Hk1. simpl in Hk1. done. }
    split; [|split].
    { unfold compareFiles. by rewrite decide_False. }
    { intros ->. apply performComparison_None. intros (Hi & _).
      assert (rows file1 ≠ []) as Hne by by rewrite E1.
      destruct (rows file1) as [|row rs] eqn:Er; [done|].
      apply Forall_cons in Hi as [Hi _]. apply Hi. split; [|apply PROTO_member].
      apply (parsed_row_no_proto _ _ _ _ _ P1). rewrite Er. by left. }
    intros Hproto.
    assert (∀ sel content name file rs,
              parseFile sel content name = inr file → rs = rows file →
              key ∈ headers file →
              ∃ idx, buildIndex key rs = Some idx ∧
                ∀ row, row ∈ rs →
                  ∃ v, row !! key = Some v ∧ trim v = v ∧
                       (v ∈ keys idx ↔ v ≠ [])) as Hrow.
    { intros sel content name file rs P -> Hkh.
      pose proof (parseFile_trimmed _ _ _ _ P) as Ht.
      rewrite Forall_forall in Ht.
      assert (∀ row, row ∈ rows file → is_Some (row !! key)) as Hown.
      { intros row Hr. apply elem_of_dom.
        rewrite (parsed_row_dom _ _ _ _ _ P Hr). set_solver. }
      exists (Own.buildIndex key (rows file)). split.
      { apply buildIndex_Some. split; [|done]. apply Forall_forall.
        intros row Hr [Hn _]. destruct (Hown row Hr). congruence. }
      intros row Hr. destruct (Hown row Hr) as [v Hv].
      exists v. split; [done|]. split; [by apply (Ht row Hr key)|].
      destruct (buildIndex_entries key (rows file)) as (_ & B2 & B3).
      split.
      - intros (row' & Hg)%Map_get_is_Some. apply Map_get_elem in Hg.
        destruct (B2 _ _ Hg) as (_ & _ & Hnb). by intros ->.
      - intros Hne. apply (B3 row v Hr Hv). by rewrite (Ht row Hr key v Hv). }
    intros rs [->| ->]; eauto.
Qed.

Lemma offered_key_witness :
  updateKeyColumnOptions (Some sample1) (Some sample2)
    = ([[]; u "id"; u "v"], u "id") ∧
  ∃ idx, buildIndex (u "v") (rows sample2) = Some idx.
Proof.
  destruct (offered_key (u "auto") (u "id,v" ++ [LF] ++ u "1,x") (u "f.csv")
              (u "auto") (u "id,v" ++ [LF] ++ u "1,y" ++ [LF] ++ u "2,z")
              (u "f.csv") sample1 sample2)
    as (_ & _ & Hopt & Hkey).
  - vm_compute. reflexivity.
  - vm_compute. reflexivity.
  - split.
    + destruct Hopt as (E1 & _ & E2); [vm_compute; discriminate|].
      rewrite (surjective_pairing (updateKeyColumnOptions _ _)), E1, E2.
      vm_compute. reflexivity.
    + destruct (Hkey (u "v")) as (_ & _ & Hidx); [vm_compute; right; left|].
      destruct (Hidx ltac:(vm_compute; discriminate) (rows sample2))
        as (idx & Hidx' & _); [by right|].
      by exists idx.
Defined.

(** The offered key [__proto__]: both files have the header, the select
    offers it, and the comparison it starts raises. *)
Example offered_proto_key :
  let file := {| headers := [PROTO; u "v"];
                 rows := [row_of [("v", "x")]];
                 delimiter := getDelimiterName COMMA |} in
  parseFile (u "auto") (u "__proto__,v" ++ [LF] ++ u "1,x") (u "f.csv")
    = inr file ∧
  updateKeyColumnOptions (Some file) (Some file)
    = ([[]; PROTO; u "v"], PROTO) ∧
  compareFiles PROTO (Some file) (Some file) = ComparisonError.
Proof. by vm_compute. Qed.

(** ** The two versions of the diff engine *)

Lemma fold_left_map_state {A S T : Type} (h : S → T) (F : T → A → T)
    (G : S → A → S) (l : list A) :
  (∀ st x, x ∈ l → F (h st) x = h (G st x)) →
  ∀ st, fold_left F l (h st) = h (fold_left G l st).
Proof.
  induction l as [|x l IH]; intros H st; simpl; [done|].
  rewrite (H st x) by (by left). apply IH. intros st' y Hy. apply H. by right.
Qed.

(** Without [trim], the value of a column that is not read through the
    prototype of a row with trimmed values. *)
Lemma valueOr_trimmed (row : record) (column : jsstring) :
  trimmedRow row → ¬ inherits row column →
  valueOr (Object_get row column) (Str []) = Str (cell row column).
Proof.
  intros T Hn. rewrite (trimmedRow_cell _ _ T).
  unfold valueOr, Object_get, inherits in *.
  destruct (row !! column) as [v|]; simpl.
  - case_bool_decide as Hv; [done|]. by subst v.
  - rewrite decide_False; [done|]. intros Hin. by apply Hn.
Qed.

Lemma Part001_columnStep_trimmed (row1 row2 : record) (column : jsstring)
    (st : diffmap * bool) :
  trimmedRow row1 → trimmedRow row2 →
  ¬ inherits row1 column → ¬ inherits row2 column →
  Part001.columnStep row1 row2 column (earlierDifference <$> st.1, st.2) =
  (earlierDifference <$> (Own.columnStep row1 row2 column st).1,
   (Own.columnStep row1 row2 column st).2).
Proof.
  intros T1 T2 H1 H2. unfold Part001.columnStep, Own.columnStep. cbv zeta.
  rewrite !valueOr_trimmed by done.
  fold (cell row1 column) (cell row2 column).
  destruct (decide (cell row1 column ≠ cell row2 column)) as [Hne|Heq].
  - rewrite decide_True by congruence. simpl. by rewrite fmap_insert.
  - apply dec_stable in Heq. rewrite Heq. by rewrite decide_False by auto.
Qed.

Lemma Part001_compareRows_trimmed (row1 row2 : record) :
  trimmedRow row1 → trimmedRow row2 → comparable row1 row2 →
  Part001.compareRows row1 row2 =
  (earlierDifference <$> (Own.compareRows row1 row2).1,
   (Own.compareRows row1 row2).2).
Proof.
  intros T1 T2 Hc.
  unfold Part001.compareRows, Own.compareRows, set_fold. simpl.
  assert (Forall (λ column, ¬ inherits row1 column ∧ ¬ inherits row2 column)
            (elements (allColumns row1 row2))) as Hall.
  { apply Forall_forall. intros column Hin%elem_of_elements. by apply Hc. }
  induction Hall as [|column l [H1 H2] _ IH]; simpl.
  - by rewrite fmap_empty.
  - rewrite IH. by apply Part001_columnStep_trimmed.
Qed.

Lemma Part001_addedStep_fmap (map1 : jsmap) (acc : list DiffEntry)
    (kv : jsstring * record) :
  Part001.addedStep map1 (earlierEntry <$> acc) kv =
  earlierEntry <$> addedStep map1 acc kv.
Proof.
  unfold Part001.addedStep, addedStep.
  destruct (Map_has kv.1 map1); [done|]. by rewrite fmap_app.
Qed.

Lemma Part001_removedStep_fmap (map2 : jsmap) (acc : list DiffEntry)
    (kv : jsstring * record) :
  Part001.removedStep map2 (earlierEntry <$> acc) kv =
  earlierEntry <$> removedStep map2 acc kv.
Proof.
  unfold Part001.removedStep, removedStep.
  destruct (Map_has kv.1 map2); [done|]. by rewrite fmap_app.
Qed.

(** X6.  The earlier version builds the two indices as the current one
    does and raises when the current one does there, and never after that.
    On datasets whose values are trimmed, as both parsers build them,
    whenever the current version returns a result the earlier one, which
    compares the values without trimming them, returns the same result. *)
Theorem Part001_performComparison_agrees (file1 file2 : ParsedDataset)
    (keyColumn : jsstring) :
  Forall trimmedRow (rows file1) →
  Forall trimmedRow (rows file2) →
  (Part001.performComparison file1 file2 keyColumn = None ↔
   buildIndex keyColumn (rows file1) = None ∨
   buildIndex keyColumn (rows file2) = None) ∧
  (∀ r,
     performComparison file1 file2 keyColumn = Some r →
     Part001.performComparison file1 file2 keyColumn
     = Some (earlierResult r)).
Proof.
  intros T1 T2. rewrite Forall_forall in T1, T2. split.
  - unfold Part001.performComparison.
    destruct (buildIndex keyColumn (rows file1)) as [idx1|]; simpl;
      [|by split; [left|]].
    destruct (buildIndex keyColumn (rows file2)) as [idx2|]; simpl;
      [|by split; [right|]].
    split; [done|]. by intros [?|?].
  - intros r [(H1 & H2 & H3) ->]%performComparison_Some.
    unfold Part001.performComparison. rewrite !buildIndex_outcome.
    rewrite !decide_True by done. simpl.
    set (idx1 := Own.buildIndex keyColumn (rows file1)) in *.
    set (idx2 := Own.buildIndex keyColumn (rows file2)) in *.
    destruct (buildIndex_entries keyColumn (rows file1)) as (_ & E1 & _).
    destruct (buildIndex_entries keyColumn (rows file2)) as (_ & E2 & _).
    fold idx1 in E1. fold idx2 in E2.
    pose proof (fold_left_map_state (fmap earlierEntry)
                  (Part001.addedStep idx1) (addedStep idx1) idx2
                  (λ st x _, Part001_addedStep_fmap idx1 st x) []) as Ha.
    pose proof (fold_left_map_state (fmap earlierEntry)
                  (Part001.removedStep idx2) (removedStep idx2) idx1
                  (λ st x _, Part001_removedStep_fmap idx2 st x) []) as Hr.
    assert (fold_left (Part001.classifyStep idx2) idx1 ([], []) =
            (earlierEntry <$> (fold_left (Own.classifyStep idx2) idx1
                                 ([], [])).1,
             earlierEntry <$> (fold_left (Own.classifyStep idx2) idx1
                                 ([], [])).2)) as Hb.
    { refine (fold_left_map_state
                (λ st : list DiffEntry * list DiffEntry,
                   (earlierEntry <$> st.1, earlierEntry <$> st.2))
                (Part001.classifyStep idx2) (Own.classifyStep idx2) idx1
                _ ([], [])).
      intros st [key row1] Hin.
      unfold Part001.classifyStep, Own.classifyStep. simpl.
      destruct (Map_get key idx2) as [row2|] eqn:Hg; [|done].
      rewrite Forall_forall in H3. specialize (H3 _ Hin).
      unfold comparableWith in H3. simpl in H3. rewrite Hg in H3.
      apply Map_get_elem in Hg.
      destruct (E1 _ _ Hin) as (Hr1 & _). destruct (E2 _ _ Hg) as (Hr2 & _).
      rewrite Part001_compareRows_trimmed by auto. simpl.
      destruct (Own.compareRows row1 row2).2; simpl; by rewrite fmap_app. }
    simpl in Ha, Hr. rewrite Ha, Hr, Hb. simpl.
    unfold earlierResult, Own.performComparison. simpl.
    by rewrite !length_fmap.
Qed.

Lemma ScriptJs_parseFile_trimmed (sel content filename : jsstring)
    (data : ParsedDataset) :
  ScriptJs.parseFile sel content filename = inr data →
  Forall trimmedRow (rows data).
Proof.
  unfold ScriptJs.parseFile. cbv zeta. case_decide; [done|].
  intros [= <-]. simpl.
  set (d := ScriptJs.getDelimiter sel content filename).
  set (hs := map trim _).
  assert (∀ ls acc, Forall trimmedRow acc →
            Forall trimmedRow (fold_left (ScriptJs.rowStep d hs) ls acc))
    as Hfold.
  { induction ls as [|l ls IH]; intros acc Hacc; simpl; [done|].
    apply IH. unfold ScriptJs.rowStep. cbv zeta.
    destruct (someValue _); [|done].
    apply Forall_app. split; [done|]. repeat constructor.
    apply fillRow_trimmed. }
  by apply Hfold.
Qed.

Lemma Part001_performComparison_agrees_witness :
  ∃ r, performComparison sample1 sample2 (u "id") = Some r ∧
       Part001.performComparison sample1 sample2 (u "id")
       = Some (earlierResult r).
Proof.
  destruct (Part001_performComparison_agrees sample1 sample2 (u "id"))
    as [_ H].
  - apply (parseFile_trimmed (u "auto")
             (u "id,v" ++ [LF] ++ u "1,x") (u "f.csv") sample1).
    vm_compute. reflexivity.
  - apply (parseFile_trimmed (u "auto")
             (u "id,v" ++ [LF] ++ u "1,y" ++ [LF] ++ u "2,z") (u "f.csv")
             sample2).
    vm_compute. reflexivity.
  - exists (Own.performComparison sample1 sample2 (u "id")).
    split; [vm_compute; reflexivity|]. apply H. vm_compute. reflexivity.
Defined.

(** Where the current version raises, the earlier one returns a changed
    entry one of whose values is the function [Object.prototype] holds. *)
Example Part001_member_value :
  performComparison memberParsed1 memberParsed2 (u "id") = None ∧
  Part001.compareRows
    (row_of [("id", "1"); ("constructor", "x")])
    (row_of [("id", "1"); ("v", "y")])
  = ({[ u "constructor" :=
          {| Part001.old := Str (u "x");
             Part001.new := Member (u "constructor") |};
        u "v" := {| Part001.old := Str []; Part001.new := Str (u "y") |} ]},
     true) ∧
  Part001.changed
    <$> Part001.performComparison memberParsed1 memberParsed2 (u "id")
  = Some [Part001.Changed (u "1")
            (row_of [("id", "1"); ("constructor", "x")])
            (row_of [("id", "1"); ("v", "y")])
            {[ u "constructor" :=
                 {| Part001.old := Str (u "x");
                    Part001.new := Member (u "constructor") |};
               u "v" := {| Part001.old := Str [];
                           Part001.new := Str (u "y") |} ]}].
Proof. by vm_compute. Qed.

(** ** The two parsers *)

Lemma trim_app_ws_l (a s : jsstring) :
  Forall (λ c, is_ws c = true) a → trim (a ++ s) = trim s.
Proof. intros H. unfold trim. by rewrite trimStart_all_ws. Qed.

Lemma trim_app_ws_r (b : jsstring) :
  Forall (λ c, is_ws c = true) b → ∀ s, trim (s ++ b) = trim s.
Proof.
  induction 1 as [|x b Hx _ IH]; intros s; [by rewrite app_nil_r|].
  rewrite (cons_middle x s b), app_assoc, IH. by apply trim_snoc_ws.
Qed.

Lemma trim_decompose (l : jsstring) :
  ∃ a b, l = a ++ trim l ++ b ∧
         Forall (λ c, is_ws c = true) a ∧ Forall (λ c, is_ws c = true) b.
Proof.
  destruct (trimStart_shape l) as (a & Ha & Hws & _).
  destruct (trimEnd_shape (trimStart l)) as (b & Hb & Hwb & _).
  exists a, b. split; [|done]. unfold trim. by rewrite <- Hb.
Qed.

Lemma ws_not_delimiter (d : N) (a : jsstring) :
  is_ws d = false → Forall (λ c, is_ws c = true) a → d ∉ a.
Proof.
  intros Hd Ha Hin. rewrite Forall_forall in Ha. apply Ha in Hin. congruence.
Qed.

Lemma split_on_prefix (d : N) (a s : jsstring) :
  d ∉ a →
  ∃ f fs, split_on d s = f :: fs ∧ split_on d (a ++ s) = (a ++ f) :: fs.
Proof.
  induction a as [|c a IH]; intros Hd.
  - destruct (split_on_cons d s) as (f & fs & E). by exists f, fs.
  - apply not_elem_of_cons in Hd as [Hc Hd].
    destruct (IH Hd) as (f & fs & E1 & E2). exists f, fs. split; [done|].
    simpl. destruct (N.eqb_spec c d); [by subst|]. by rewrite E2.
Qed.

Lemma split_on_suffix (d : N) (b : jsstring) :
  d ∉ b →
  ∀ s, ∃ fs f, split_on d s = fs ++ [f] ∧
               split_on d (s ++ b) = fs ++ [f ++ b].
Proof.
  induction b as [|x b IH]; intros Hd s.
  - destruct (split_on_snoc d (d + 1) s) as (fs & f & E & _); [lia|].
    exists fs, f. by rewrite !app_nil_r.
  - apply not_elem_of_cons in Hd as [Hx Hd].
    destruct (split_on_snoc d x s) as (fs & f & E1 & E2); [done|].
    destruct (IH Hd (s ++ [x])) as (fs' & f' & E3 & E4).
    rewrite E2 in E3. apply app_inj_tail in E3 as [<- <-].
    exists fs, f. split; [done|].
    by rewrite (cons_middle x s b), app_assoc, E4, <- app_assoc.
Qed.

(** For a delimiter that is not white space, trimming a line before it is
    split and trimming its fields after give the same fields. *)
Lemma split_on_trim (d : N) (l : jsstring) :
  is_ws d = false →
  map trim (split_on d (trim l)) = map trim (split_on d l).
Proof.
  intros Hd. destruct (trim_decompose l) as (a & b & E & Ha & Hb).
  rewrite E at 2.
  destruct (split_on_suffix d b (ws_not_delimiter d b Hd Hb) (trim l))
    as (fs & f & E1 & E2).
  destruct (split_on_prefix d a (trim l ++ b) (ws_not_delimiter d a Hd Ha))
    as (f0 & fs0 & E3 & E4).
  rewrite E4. simpl. rewrite trim_app_ws_l by done.
  change (trim f0 :: map trim fs0) with (map trim (f0 :: fs0)).
  rewrite <- E3, E2, E1, !map_app. simpl. by rewrite trim_app_ws_r.
Qed.

Lemma trimmed_lookup (xs : list jsstring) (i : nat) :
  trim (orEmpty (xs !! i)) = orEmpty (map trim xs !! i).
Proof.
  revert i. induction xs as [|x xs IH]; intros [|i]; simpl; auto.
Qed.

Lemma split_lines_vs_LF (s : jsstring) :
  Forall2 same_upto_cr (split_lines s) (split_on LF s).
Proof.
  induction s as [|c r IH].
  - repeat constructor.
  - destruct (decide (c = LF)) as [->|Hc].
    { rewrite split_lines_LF. simpl. constructor; [by left|done]. }
    destruct (decide (c = CR ∧ head r = Some LF)) as [[-> Hr]|Hn].
    + destruct r as [|c' r']; [done|]. injection Hr as ->.
      rewrite split_lines_CRLF. rewrite split_lines_LF in IH.
      simpl in IH. apply Forall2_cons_1 in IH as [_ IH].
      simpl. constructor; [by right|done].
    + rewrite split_lines_other by done. simpl.
      destruct (N.eqb_spec c LF); [done|].
      destruct IH as [|l l' ls ls' Hl Hls]; [repeat constructor; by left|].
      constructor; [by apply same_upto_cr_cons|done].
Qed.

Lemma fold_left_related2 {A B} (R : B → B → Prop) (f g : A → B → A)
    (ls ls' : list B) :
  Forall2 R ls ls' →
  (∀ acc l l', R l l' → g acc l' = f acc l) →
  ∀ acc, fold_left g ls' acc = fold_left f ls acc.
Proof.
  intros HF Hf. induction HF as [|l l' ls ls' Hl _ IH]; intros acc; simpl;
    [done|].
  by rewrite (Hf _ _ _ Hl), IH.
Qed.

Lemma someValue_blank (hs : list jsstring) :
  someValue (fillRow [[]] 0 hs ∅) = false.
Proof.
  apply not_true_is_false. intros (h & v & Hl & Hv)%someValue_iff.
  rewrite fillRow_lookup in Hl.
  destruct (lastIndexOf h hs) as [[|j]|]; [| |done];
    case_decide; simplify_eq/=; done.
Qed.

Lemma rowStep_versions (d : N) (hs : list jsstring) (acc : list record)
    (l l' : jsstring) :
  is_ws d = false → d ≠ CR → same_upto_cr l l' →
  ScriptJs.rowStep d hs acc l' = rowStep d hs acc l.
Proof.
  intros Hd Hcr Hl. unfold ScriptJs.rowStep, rowStep. cbv zeta.
  assert (fillRow (split_on d l') 0 hs ∅
          = fillRow (split_on d (trim l)) 0 hs ∅) as ->.
  { apply fillRow_ext. intros i.
    rewrite (split_on_same_upto_cr_fields d l l' i Hl Hcr).
    by rewrite !trimmed_lookup, split_on_trim. }
  case_decide as Hb; [|done].
  rewrite Hb. change (split_on d []) with [[] : jsstring].
  by rewrite someValue_blank.
Qed.

(** X7.  When the main parser accepts a file with a delimiter other than
    the tab, the parser of [script.js] returns the same dataset. *)
Theorem parsers_agree (sel content filename : jsstring)
    (data : ParsedDataset) :
  parseFile sel content filename = inr data →
  getDelimiter sel content filename ≠ TAB →
  ScriptJs.parseFile sel content filename = inr data.
Proof.
  intros P Hd. pose proof P as (_ & _ & ->)%parseFile_inr.
  assert (ScriptJs.getDelimiter sel content filename
          = getDelimiter sel content filename) as Hsame.
  { unfold ScriptJs.getDelimiter, getDelimiter. cbv zeta.
    assert (same_upto_cr (firstLine content) (ScriptJs.firstLine content))
      as Hf.
    { unfold firstLine, ScriptJs.firstLine.
      destruct (split_lines_vs_LF content); [by left|done]. }
    by rewrite (byCount_same_upto_cr _ _ Hf). }
  set (d := getDelimiter sel content filename) in *.
  assert (is_ws d = false ∧ d ≠ CR) as [Hws Hcr].
  { pose proof (getDelimiter_priority sel content filename) as Hp.
    fold d in Hp. unfold priority in Hp. set_unfold.
    destruct Hp as [->|[->|[->|[->|[]]]]]; done. }
  rewrite parseFile_outcome in P. cbv zeta in P.
  destruct (decide (trim content = [])); [done|].
  destruct (decide (length (split_lines (trim content)) < 2)) as [|Hlen];
    [done|].
  clear P. unfold ScriptJs.parseFile. cbv zeta. rewrite Hsame. fold d.
  pose proof (split_lines_vs_LF (trim content)) as HF.
  rewrite <- (Forall2_length _ _ _ HF). rewrite decide_False by done.
  destruct (Forall2_hd_tl same_upto_cr [] _ _ (or_introl eq_refl) HF)
    as [Hh Htl].
  rewrite (split_on_same_upto_cr_trimmed d _ _ Hh Hcr).
  rewrite (fold_left_related2 same_upto_cr
             (rowStep d (map trim (split_on d (hd [] (split_lines (trim content))))))
             _ _ _ Htl).
  - by rewrite rows_fold.
  - intros acc l l' Hl. by apply rowStep_versions.
Qed.

Lemma parsers_agree_witness :
  ScriptJs.parseFile (u "auto") sampleContent (u "f.txt") = inr sampleParsed.
Proof.
  apply (parsers_agree (u "auto") sampleContent (u "f.txt") sampleParsed).
  - vm_compute. reflexivity.
  - vm_compute. discriminate.
Defined.

(** With the tab as delimiter the two parsers differ: the main parser
    trims the line, and with it the tab that stands for an empty first
    field. *)
Example parsers_differ_on_tab :
  let content := u "a" ++ [TAB] ++ u "b" ++ [LF; TAB] ++ u "x" in
  parseFile (u "auto") content (u "f.tsv")
    = inr {| headers := [u "a"; u "b"];
             rows := [row_of [("a", "x"); ("b", "")]];
             delimiter := getDelimiterName TAB |} ∧
  ScriptJs.parseFile (u "auto") content (u "f.tsv")
    = inr {| headers := [u "a"; u "b"];
             rows := [row_of [("a", ""); ("b", "x")]];
             delimiter := getDelimiterName TAB |}.
Proof. by vm_compute. Qed.

(** ** White space around lines and contents *)

(** X8.  The main parser trims a data line before it splits it: white
    space at either end of the line changes nothing, also when it is the
    delimiter.  In a tab separated file a line that begins with tabs is
    read as the line without them, so its fields move to the first
    columns. *)
Theorem rowStep_outer_whitespace (d : N) (hs : list jsstring)
    (acc : list record) (w w' line : jsstring) :
  Forall (λ c, is_ws c = true) w →
  Forall (λ c, is_ws c = true) w' →
  rowStep d hs acc (w ++ line ++ w') = rowStep d hs acc line ∧
  rowStep TAB hs acc (TAB :: line) = rowStep TAB hs acc line.
Proof.
  intros Hw Hw'. unfold rowStep. cbv zeta.
  rewrite trim_app_ws_l, trim_app_ws_r by done. split; [done|].
  change (TAB :: line) with ([TAB] ++ line).
  by rewrite (trim_app_ws_l [TAB] line) by (by repeat constructor).
Qed.

Lemma rowStep_outer_whitespace_witness :
  rowStep TAB [u "a"; u "b"] [] ([TAB] ++ u "x" ++ [32; CR]%N)
  = rowStep TAB [u "a"; u "b"] [] (u "x").
Proof.
  apply (rowStep_outer_whitespace TAB [u "a"; u "b"] [] [TAB] [32; CR]%N (u "x"));
    repeat constructor.
Defined.

Lemma one_line (s : jsstring) : LF ∉ s → length (split_lines s) = 1.
Proof.
  induction s as [|c r IH]; [done|].
  intros [Hc Hr]%not_elem_of_cons.
  rewrite split_lines_other.
  - specialize (IH Hr). by destruct (split_lines r) as [|l [|]].
  - done.
  - intros [_ Hh]. destruct r; simplify_eq/=. apply Hr. by left.
Qed.

Lemma firstLine_app (content w : jsstring) :
  LF ∈ content → firstLine (content ++ w) = firstLine content.
Proof.
  unfold firstLine. induction content as [|c r IH]; [by intros ?%elem_of_nil|].
  intros Hin. destruct (decide (c = LF)) as [->|Hc]; [done|].
  apply elem_of_cons in Hin as [?|Hin]; [done|].
  assert (head (r ++ w) = head r) as Hhead by (by destruct r; [inversion Hin|]).
  destruct (decide (c = CR ∧ head r = Some LF)) as [[-> Hr]|Hn].
  - destruct r as [|c' r']; [done|]. injection Hr as ->.
    cbn [app]. by rewrite !split_lines_CRLF.
  - simpl app.
    rewrite (split_lines_other c (r ++ w)) by (done || by rewrite Hhead).
    rewrite (split_lines_other c r) by done.
    specialize (IH Hin).
    destruct (split_lines_cons (r ++ w)) as (l & ls & E).
    destruct (split_lines_cons r) as (l' & ls' & E').
    rewrite E, E' in *. simpl in *. by rewrite IH.
Qed.

(** X9.  White space after the content, such as blank lines at the end of
    the file, never changes what [parseFile] returns. *)
Theorem parseFile_trailing_whitespace (sel content filename w : jsstring) :
  Forall (λ c, is_ws c = true) w →
  parseFile sel (content ++ w) filename = parseFile sel content filename.
Proof.
  intros Hw. unfold parseFile. rewrite trim_app_ws_r by done.
  destruct (decide (trim content = [])); [done|]. cbv zeta.
  destruct (decide (length (split_lines (trim content)) < 2)) as [|Hlen];
    [done|].
  assert (LF ∈ content) as Hin.
  { destruct (decide (LF ∈ trim content)) as [Ht|Ht].
    - destruct (trim_decompose content) as (a & b & E & _).
      rewrite E. apply elem_of_app. right. apply elem_of_app. by left.
    - apply one_line in Ht. lia. }
  assert (getDelimiter sel (content ++ w) filename
          = getDelimiter sel content filename) as ->; [|done].
  unfold getDelimiter. cbv zeta. by rewrite firstLine_app.
Qed.

Lemma parseFile_trailing_whitespace_witness :
  parseFile (u "auto") (sampleContent ++ [LF; 32; LF]%N) (u "f.txt")
  = parseFile (u "auto") sampleContent (u "f.txt").
Proof.
  apply (parseFile_trailing_whitespace (u "auto") sampleContent (u "f.txt")
           [LF; 32; LF]%N).
  repeat constructor.
Defined.

(** White space before the content is not ignored in the same way: the
    delimiter is sampled from the first line of the content as it was
    read, the rows from the trimmed content. *)
Example parseFile_leading_line_break :
  parseFile (u "auto") (LF :: sampleContent) (u "f.txt")
  = inr {| headers := [u "a,b"];
           rows := [row_of [("a,b", "1,2")]; row_of [("a,b", "3,4")]];
           delimiter := getDelimiterName TAB |}.
Proof. by vm_compute. Qed.

(** ** The comparison in both directions *)

Lemma compareRows_lookup (row1 row2 : record) (column : jsstring) :
  (Own.compareRows row1 row2).1 !! column =
    if decide (cell row1 column ≠ cell row2 column)
    then Some {| old := cell row1 column; new := cell row2 column |}
    else None.
Proof.
  destruct (compareRows_spec row1 row2) as [Hd _]. cbv zeta in Hd.
  case_decide as Hne; [by apply Hd|].
  apply eq_None_not_Some. intros [d [? _]%Hd]. done.
Qed.

Lemma compareRows_swap (row1 row2 : record) :
  (Own.compareRows row2 row1).1 = swapDifference <$> (Own.compareRows row1 row2).1 ∧
  (Own.compareRows row2 row1).2 = (Own.compareRows row1 row2).2.
Proof.
  split.
  - apply map_eq. intros column.
    rewrite lookup_fmap, !compareRows_lookup.
    destruct (decide (cell row1 column ≠ cell row2 column)) as [Hne|Heq].
    + by rewrite decide_True by (by intros ?).
    + rewrite decide_False; [done|]. intros Hne. apply Heq. by intros ?.
  - destruct (compareRows_spec row1 row2) as [_ H12].
    destruct (compareRows_spec row2 row1) as [_ H21]. cbv zeta in H12, H21.
    destruct (Own.compareRows row1 row2).2 eqn:E12,
             (Own.compareRows row2 row1).2 eqn:E21; try done.
    + destruct H12 as [[c Hc] _]; [done|].
      assert (false = true); [|done]. apply H21. exists c. by intros ?.
    + destruct H21 as [[c Hc] _]; [done|].
      assert (false = true); [|done]. apply H12. exists c. by intros ?.
Qed.

Lemma changed_elem (idx1 idx2 : jsmap) (e : DiffEntry) :
  NoDup (keys idx1) →
  e ∈ omap (changedEntry idx2) idx1 ↔
  ∃ key row1 row2,
    Map_get key idx1 = Some row1 ∧ Map_get key idx2 = Some row2 ∧
    (Own.compareRows row1 row2).2 = true ∧
    e = Changed key row1 row2 (Own.compareRows row1 row2).1.
Proof.
  intros Hnd. rewrite list_elem_of_omap. split.
  - intros ([key row1] & Hin & (row2 & Hg & Hf & ->)%changedEntry_Some).
    exists key, row1, row2. split; [by apply Map_elem_get|done].
  - intros (key & row1 & row2 & H1%Map_get_elem & H2 & Hf & ->).
    exists (key, row1). split; [done|]. apply changedEntry_Some.
    by exists row2.
Qed.

Lemma unchanged_key_elem (idx1 idx2 : jsmap) (key : jsstring) :
  NoDup (keys idx1) →
  key ∈ entryKey <$> omap (unchangedEntry idx2) idx1 ↔
  ∃ row1 row2,
    Map_get key idx1 = Some row1 ∧ Map_get key idx2 = Some row2 ∧
    (Own.compareRows row1 row2).2 = false.
Proof.
  intros Hnd. rewrite list_elem_of_fmap. split.
  - intros (e & -> & ([k row1] & Hin & (row2 & Hg & Hf & ->)%unchangedEntry_Some)
                     %list_elem_of_omap).
    exists row1, row2. split; [by apply Map_elem_get|done].
  - intros (row1 & row2 & H1%Map_get_elem & H2 & Hf).
    exists (Unchanged key row1). split; [done|].
    apply list_elem_of_omap. exists (key, row1). split; [done|].
    apply unchangedEntry_Some. by exists row2.
Qed.

Lemma pass_NoDup (f : jsstring * record → option DiffEntry) (m : jsmap) :
  (∀ kv e, f kv = Some e → entryKey e = kv.1) →
  NoDup (keys m) → NoDup (entryKey <$> omap f m).
Proof.
  intros Hf Hnd. eapply sublist_NoDup; [done|by apply pass_keys_sublist].
Qed.

Lemma entryKey_mirror (l : list DiffEntry) :
  entryKey <$> (mirror <$> l) = entryKey <$> l.
Proof.
  rewrite <- list_fmap_compose. apply list_fmap_ext. by intros ? [] _.
Qed.

Lemma changed_swap (idx1 idx2 : jsmap) :
  NoDup (keys idx1) → NoDup (keys idx2) →
  omap (changedEntry idx1) idx2 ≡ₚ mirror <$> omap (changedEntry idx2) idx1.
Proof.
  intros Hnd1 Hnd2. apply NoDup_Permutation.
  - eapply NoDup_fmap_1, pass_NoDup; [apply changedEntry_key|done].
  - eapply (NoDup_fmap_1 entryKey). rewrite entryKey_mirror.
    apply pass_NoDup; [apply changedEntry_key|done].
  - intros e. rewrite list_elem_of_fmap, changed_elem by done. split.
    + intros (key & row2 & row1 & H2 & H1 & Hf & ->).
      destruct (compareRows_swap row1 row2) as [Ed Ef].
      exists (Changed key row1 row2 (Own.compareRows row1 row2).1). split.
      * simpl. by rewrite Ed.
      * apply changed_elem; [done|]. exists key, row1, row2.
        by rewrite <- Ef.
    + intros (e' & -> & (key & row1 & row2 & H1 & H2 & Hf & ->)%changed_elem);
        [|done].
      destruct (compareRows_swap row1 row2) as [Ed Ef].
      exists key, row2, row1. simpl. by rewrite Ed, Ef.
Qed.

Lemma unchanged_swap (idx1 idx2 : jsmap) :
  NoDup (keys idx1) → NoDup (keys idx2) →
  entryKey <$> omap (unchangedEntry idx1) idx2
  ≡ₚ entryKey <$> omap (unchangedEntry idx2) idx1.
Proof.
  intros Hnd1 Hnd2. apply NoDup_Permutation.
  - apply pass_NoDup; [apply unchangedEntry_key|done].
  - apply pass_NoDup; [apply unchangedEntry_key|done].
  - intros key. rewrite !unchanged_key_elem by done. split.
    + intros (row2 & row1 & H2 & H1 & Hf).
      destruct (compareRows_swap row1 row2) as [_ Ef].
      exists row1, row2. by rewrite <- Ef.
    + intros (row1 & row2 & H1 & H2 & Hf).
      destruct (compareRows_swap row1 row2) as [_ Ef].
      exists row2, row1. by rewrite Ef.
Qed.

Lemma omap_mirror (f g : jsstring * record → option DiffEntry) (m : jsmap) :
  (∀ kv, g kv = mirror <$> f kv) → omap g m = mirror <$> omap f m.
Proof.
  intros H. induction m as [|kv m IH]; csimpl; [done|].
  rewrite H, IH. by destruct (f kv).
Qed.

Lemma Own_performComparison_swap (file1 file2 : ParsedDataset)
    (keyColumn : jsstring) :
  let r := Own.performComparison file1 file2 keyColumn in
  let r' := Own.performComparison file2 file1 keyColumn in
  added r' = mirror <$> removed r ∧
  removed r' = mirror <$> added r ∧
  changed r' ≡ₚ mirror <$> changed r ∧
  entryKey <$> unchanged r' ≡ₚ entryKey <$> unchanged r ∧
  Stats.added (stats r') = Stats.removed (stats r) ∧
  Stats.removed (stats r') = Stats.added (stats r) ∧
  Stats.changed (stats r') = Stats.changed (stats r) ∧
  Stats.unchanged (stats r') = Stats.unchanged (stats r).
Proof.
  intros r r'.
  destruct (performComparison_lists file1 file2 keyColumn)
    as (Ha & Hr & Hc & Hu).
  destruct (performComparison_lists file2 file1 keyColumn)
    as (Ha' & Hr' & Hc' & Hu').
  fold r in Ha, Hr, Hc, Hu. fold r' in Ha', Hr', Hc', Hu'.
  destruct (buildIndex_entries keyColumn (rows file1)) as (Hnd1 & _).
  destruct (buildIndex_entries keyColumn (rows file2)) as (Hnd2 & _).
  assert (added r' = mirror <$> removed r) as E1.
  { rewrite Ha', Hr. apply omap_mirror. intros kv.
    unfold addedEntry, removedEntry. by destruct (Map_has _ _). }
  assert (removed r' = mirror <$> added r) as E2.
  { rewrite Hr', Ha. apply omap_mirror. intros kv.
    unfold addedEntry, removedEntry. by destruct (Map_has _ _). }
  assert (changed r' ≡ₚ mirror <$> changed r) as E3.
  { rewrite Hc', Hc. by apply changed_swap. }
  assert (entryKey <$> unchanged r' ≡ₚ entryKey <$> unchanged r) as E4.
  { rewrite Hu', Hu. by apply unchanged_swap. }
  split; [done|]. split; [done|]. split; [done|]. split; [done|].
  change (length (added r') = length (removed r) ∧
          length (removed r') = length (added r) ∧
          length (changed r') = length (changed r) ∧
          length (unchanged r') = length (unchanged r)).
  rewrite E1, E2, E3. rewrite !length_fmap.
  repeat split. apply Permutation_length in E4. by rewrite !length_fmap in E4.
Qed.

Lemma comparable_sym (row1 row2 : record) :
  comparable row1 row2 → comparable row2 row1.
Proof.
  intros H column Hc. destruct (H column) as [H1 H2]; [|done].
  unfold allColumns in *. set_solver.
Qed.

Lemma performComparison_returns_swap (file1 file2 : ParsedDataset)
    (keyColumn : jsstring) :
  is_Some (performComparison file1 file2 keyColumn) →
  is_Some (performComparison file2 file1 keyColumn).
Proof.
  intros (idx1 & idx2 & H1 & H2 & H3)%performComparison_returns.
  apply performComparison_returns. exists idx2, idx1.
  split; [done|]. split; [done|].
  intros key row2 row1 Hg2 Hg1. apply comparable_sym. by eapply H3.
Qed.

(** X10.  The comparison in the other direction returns a result exactly
    when this one does.  It turns the added entries into the removed ones
    and back, in the same order; the changed entries are the same up to
    their order, with the two rows and the old and new values exchanged,
    and the same keys are unchanged. *)
Theorem performComparison_swap (file1 file2 : ParsedDataset)
    (keyColumn : jsstring) :
  (is_Some (performComparison file2 file1 keyColumn) ↔
   is_Some (performComparison file1 file2 keyColumn)) ∧
  ∀ r,
    performComparison file1 file2 keyColumn = Some r →
    ∃ r',
      performComparison file2 file1 keyColumn = Some r' ∧
      added r' = mirror <$> removed r ∧
      removed r' = mirror <$> added r ∧
      changed r' ≡ₚ mirror <$> changed r ∧
      entryKey <$> unchanged r' ≡ₚ entryKey <$> unchanged r ∧
      Stats.added (stats r') = Stats.removed (stats r) ∧
      Stats.removed (stats r') = Stats.added (stats r) ∧
      Stats.changed (stats r') = Stats.changed (stats r) ∧
      Stats.unchanged (stats r') = Stats.unchanged (stats r).
Proof.
  split; [split; apply performComparison_returns_swap|].
  intros r Hr.
  destruct (performComparison_returns_swap file1 file2 keyColumn)
    as [r' Hr']; [by exists r|].
  exists r'. split; [done|].
  apply performComparison_Some in Hr as [_ ->].
  apply performComparison_Some in Hr' as [_ ->].
  apply Own_performComparison_swap.
Qed.

Lemma performComparison_swap_witness :
  ∃ r r',
    performComparison sample1 sample2 (u "id") = Some r ∧
    performComparison sample2 sample1 (u "id") = Some r' ∧
    added r' = mirror <$> removed r ∧
    removed r' = mirror <$> added r ∧
    changed r' ≡ₚ mirror <$> changed r.
Proof.
  destruct (performComparison_swap sample1 sample2 (u "id")) as [_ H].
  destruct (H (Own.performComparison sample1 sample2 (u "id")))
    as (r' & Hr' & Ha & Hr & Hc & _).
  - vm_compute. reflexivity.
  - exists (Own.performComparison sample1 sample2 (u "id")), r'.
    split; [vm_compute; reflexivity|]. split; [exact Hr'|].
    split; [exact Ha|]. split; [exact Hr|exact Hc].
Defined.

Lemma one_entry (idx2 : jsmap) (kv : jsstring * record) :
  ∃ e,
    (removedEntry idx2 kv = Some e ∧ changedEntry idx2 kv = None ∧
     unchangedEntry idx2 kv = None) ∨
    (removedEntry idx2 kv = None ∧ changedEntry idx2 kv = Some e ∧
     unchangedEntry idx2 kv = None) ∨
    (removedEntry idx2 kv = None ∧ changedEntry idx2 kv = None ∧
     unchangedEntry idx2 kv = Some e).
Proof.
  unfold removedEntry, changedEntry, unchangedEntry, Map_has.
  destruct (Map_get kv.1 idx2) as [row2|] eqn:E; simpl.
  - destruct (Own.compareRows kv.2 row2).2; eexists; [right; left|right; right];
      done.
  - eexists. by left.
Qed.

Lemma three_passes_length (idx2 m : jsmap) :
  length (omap (removedEntry idx2) m) + length (omap (changedEntry idx2) m)
  + length (omap (unchangedEntry idx2) m) = length m.
Proof.
  induction m as [|kv m IH]; csimpl; [done|].
  destruct (one_entry idx2 kv)
    as (e & [(-> & -> & ->)|[(-> & -> & ->)|(-> & -> & ->)]]); simpl; lia.
Qed.

Lemma Own_stats_account (file1 file2 : ParsedDataset) (keyColumn : jsstring) :
  let st := stats (Own.performComparison file1 file2 keyColumn) in
  Stats.removed st + Stats.changed st + Stats.unchanged st
    = length (Own.buildIndex keyColumn (rows file1)) ∧
  Stats.added st + Stats.changed st + Stats.unchanged st
    = length (Own.buildIndex keyColumn (rows file2)) ∧
  Stats.removed st + Stats.changed st + Stats.unchanged st ≤ Stats.total1 st ∧
  Stats.added st + Stats.changed st + Stats.unchanged st ≤ Stats.total2 st.
Proof.
  cbv zeta.
  set (r := Own.performComparison file1 file2 keyColumn).
  destruct (performComparison_lists file1 file2 keyColumn)
    as (Ha & Hr & Hc & Hu).
  fold r in Ha, Hr, Hc, Hu.
  destruct (buildIndex_entries keyColumn (rows file1)) as (Hnd1 & _).
  destruct (buildIndex_entries keyColumn (rows file2)) as (Hnd2 & _).
  set (idx1 := Own.buildIndex keyColumn (rows file1)) in *.
  set (idx2 := Own.buildIndex keyColumn (rows file2)) in *.
  change (length (removed r) + length (changed r) + length (unchanged r)
            = length idx1 ∧
          length (added r) + length (changed r) + length (unchanged r)
            = length idx2 ∧
          length (removed r) + length (changed r) + length (unchanged r)
            ≤ length (rows file1) ∧
          length (added r) + length (changed r) + length (unchanged r)
            ≤ length (rows file2)).
  assert (length (removed r) + length (changed r) + length (unchanged r)
            = length idx1) as E1.
  { rewrite Hr, Hc, Hu. apply three_passes_length. }
  assert (length (added r) + length (changed r) + length (unchanged r)
            = length idx2) as E2.
  { rewrite <- (three_passes_length idx1 idx2), Ha, Hc, Hu. f_equal; [f_equal|].
    - assert (omap (removedEntry idx1) idx2
              = mirror <$> omap (addedEntry idx1) idx2) as ->.
      { apply omap_mirror. intros kv. unfold addedEntry, removedEntry.
        by destruct (Map_has _ _). }
      by rewrite length_fmap.
    - rewrite (Permutation_length (changed_swap idx1 idx2 Hnd1 Hnd2)).
      by rewrite length_fmap.
    - pose proof (Permutation_length (unchanged_swap idx1 idx2 Hnd1 Hnd2)) as E.
      by rewrite !length_fmap in E. }
  split; [done|]. split; [done|]. rewrite E1, E2.
  split; apply buildIndex_length.
Qed.

(** X11.  The counts of a returned result add up: every key of the first
    index is counted once among removed, changed and unchanged, and every
    key of the second index once among added, changed and unchanged; so
    neither sum exceeds the row count of its file. *)
Theorem stats_account (file1 file2 : ParsedDataset) (keyColumn : jsstring)
    (r : ComparisonResult) :
  performComparison file1 file2 keyColumn = Some r →
  ∃ idx1 idx2,
    buildIndex keyColumn (rows file1) = Some idx1 ∧
    buildIndex keyColumn (rows file2) = Some idx2 ∧
    let st := stats r in
    Stats.removed st + Stats.changed st + Stats.unchanged st = length idx1 ∧
    Stats.added st + Stats.changed st + Stats.unchanged st = length idx2 ∧
    Stats.removed st + Stats.changed st + Stats.unchanged st
      ≤ Stats.total1 st ∧
    Stats.added st + Stats.changed st + Stats.unchanged st ≤ Stats.total2 st.
Proof.
  intros [(H1 & H2 & _) ->]%performComparison_Some.
  exists (Own.buildIndex keyColumn (rows file1)),
         (Own.buildIndex keyColumn (rows file2)).
  split; [by apply buildIndex_Some|]. split; [by apply buildIndex_Some|].
  apply Own_stats_account.
Qed.

Lemma stats_account_witness :
  ∃ r idx1 idx2,
    performComparison sample1 sample2 (u "id") = Some r ∧
    buildIndex (u "id") (rows sample1) = Some idx1 ∧
    buildIndex (u "id") (rows sample2) = Some idx2 ∧
    Stats.removed (stats r) + Stats.changed (stats r)
    + Stats.unchanged (stats r) = length idx1 ∧
    Stats.added (stats r) + Stats.changed (stats r)
    + Stats.unchanged (stats r) = length idx2.
Proof.
  destruct (stats_account sample1 sample2 (u "id")
              (Own.performComparison sample1 sample2 (u "id")))
    as (idx1 & idx2 & E1 & E2 & H1 & H2 & _).
  - vm_compute. reflexivity.
  - exists (Own.performComparison sample1 sample2 (u "id")), idx1, idx2.
    split; [vm_compute; reflexivity|]. split; [exact E1|].
    split; [exact E2|]. split; [exact H1|exact H2].
Defined.

(** ** The session *)

Lemma slot_setSlot {A} (n m : FileNum) (v : A) (slots : Slots A) :
  slot m (setSlot n v slots) = if decide (m = n) then v else slot m slots.
Proof. by destruct n, m. Qed.

Lemma slots_ext {A} (a b : Slots A) :
  (∀ n, slot n a = slot n b) → a = b.
Proof.
  intros H. destruct a as [a1 a2], b as [b1 b2].
  pose proof (H File1) as H1. pose proof (H File2) as H2. simpl in *.
  by subst.
Qed.

Lemma reprocessFile_frame (n : FileNum) (s s' : Session) :
  reprocessFile n s = Some s' →
  originalFileContents s' = originalFileContents s ∧
  originalFileNames s' = originalFileNames s ∧
  delimiterSelect s' = delimiterSelect s ∧
  comparisonResult s' = comparisonResult s ∧
  (∀ m, m ≠ n → slot m (fileData s') = slot m (fileData s)) ∧
  (slot n (fileData s') = slot n (fileData s) ∧
   truthy (slot n (originalFileContents s))
   && truthy (slot n (originalFileNames s)) = false
   ∨
   ∃ content name data,
     slot n (originalFileContents s) = Some content ∧
     slot n (originalFileNames s) = Some name ∧
     parseFile (delimiterSelect s) content name = inr data ∧
     slot n (fileData s') = Some data).
Proof.
  unfold reprocessFile.
  destruct (truthy (slot n (originalFileContents s))
            && truthy (slot n (originalFileNames s))) eqn:E.
  - destruct (parseFile _ _ _) as [|data] eqn:P; [done|].
    intros [= <-]. simpl. repeat split; try done.
    + intros m Hm. by rewrite slot_setSlot, decide_False.
    + right. apply andb_true_iff in E as [E1 E2].
      destruct (slot n (originalFileContents s)) as [content|]; [|done].
      destruct (slot n (originalFileNames s)) as [name|]; [|done].
      exists content, name, data. simpl in P.
      by rewrite slot_setSlot, decide_True.
  - intros [= <-]. repeat split; try done. by left.
Qed.

Lemma reprocessFile_sound (n : FileNum) (s s' : Session) :
  sound s → reprocessFile n s = Some s' → sound s'.
Proof.
  intros (Hdata & Hnames & Hheld & Hres) H.
  apply reprocessFile_frame in H
    as (Hc & Hn & _ & Hr & Hother & Hthis).
  repeat split.
  - intros m data Hm. destruct (decide (m = n)) as [->|Hne].
    + destruct Hthis as [[E _]|(content & name & data' & _ & En & P & E)].
      * rewrite E in Hm. eauto.
      * rewrite E in Hm. injection Hm as <-.
        exists (delimiterSelect s), content, name. eauto.
    + rewrite Hother in Hm by done. eauto.
  - rewrite Hn. eauto.
  - destruct (decide (fileNum = n)) as [->|Hne].
    + destruct Hthis as [[E _]|(content & name & data' & Ec & _ & _ & _)].
      * rewrite E in H. rewrite Hc. by apply Hheld.
      * by rewrite Hc, Ec.
    + rewrite Hother in H by done. rewrite Hc. by apply Hheld.
  - destruct (decide (fileNum = n)) as [->|Hne].
    + destruct Hthis as [[E _]|(content & name & data' & _ & En & _ & _)].
      * rewrite E in H. rewrite Hn. by apply Hheld.
      * by rewrite Hn, En.
    + rewrite Hother in H by done. rewrite Hn. by apply Hheld.
  - rewrite Hr. eauto.
Qed.

Lemma sound_forget (s : Session) (value : jsstring) :
  sound s →
  sound {| fileData := fileData s;
           originalFileContents := originalFileContents s;
           originalFileNames := originalFileNames s;
           comparisonResult := None;
           delimiterSelect := value |}.
Proof.
  intros (Hdata & Hnames & Hheld & _).
  split; [|split; [|split]]; simpl; [exact Hdata|exact Hnames|exact Hheld|done].
Qed.

Lemma sound_select (s : Session) (value : jsstring) :
  sound s →
  sound {| fileData := fileData s;
           originalFileContents := originalFileContents s;
           originalFileNames := originalFileNames s;
           comparisonResult := comparisonResult s;
           delimiterSelect := value |}.
Proof.
  intros (Hdata & Hnames & Hheld & Hres).
  split; [|split; [|split]]; simpl;
    [exact Hdata|exact Hnames|exact Hheld|exact Hres].
Qed.

Lemma reprocessFiles_sound (s : Session) :
  sound s → sound (reprocessFiles s).
Proof.
  intros Hs. unfold reprocessFiles.
  destruct (reprocessFile File1 s) as [s1|] eqn:E1; [|done].
  pose proof (reprocessFile_sound _ _ _ Hs E1) as Hs1.
  destruct (reprocessFile File2 s1) as [s2|] eqn:E2; [|done].
  pose proof (reprocessFile_sound _ _ _ Hs1 E2) as Hs2.
  by apply sound_forget.
Qed.

Lemma handleFile_sound (n : FileNum) (file : option (jsstring * jsstring))
    (s : Session) :
  sound s → sound (handleFile n file s).
Proof.
  intros (Hdata & Hnames & Hheld & Hres).
  destruct file as [[name content]|]; simpl.
  - destruct (isValidFile name) eqn:V; [|done].
    destruct (parseFile _ _ _) as [e|data] eqn:P; simpl.
    + repeat split; simpl in *.
      * done.
      * intros m name' Hm. rewrite slot_setSlot in Hm.
        case_decide; [by injection Hm as <-|eauto].
      * rewrite slot_setSlot. case_decide; [done|by apply Hheld].
      * rewrite slot_setSlot. case_decide; [done|by apply Hheld].
      * done.
    + repeat split; simpl in *.
      * intros m data' Hm. rewrite slot_setSlot in Hm.
        case_decide; [|eauto]. injection Hm as <-.
        by exists (delimiterSelect s), content, name.
      * intros m name' Hm. rewrite slot_setSlot in Hm.
        case_decide; [by injection Hm as <-|eauto].
      * rewrite slot_setSlot. case_decide; [done|].
        rewrite slot_setSlot in H. rewrite decide_False in H by done.
        by apply Hheld.
      * rewrite slot_setSlot. case_decide; [done|].
        rewrite slot_setSlot in H. rewrite decide_False in H by done.
        by apply Hheld.
      * done.
  - repeat split; simpl in *.
    + intros m data Hm. rewrite slot_setSlot in Hm.
      case_decide; [done|eauto].
    + intros m name Hm. rewrite slot_setSlot in Hm.
      case_decide; [done|eauto].
    + rewrite slot_setSlot in H. case_decide; [done|].
      rewrite slot_setSlot, decide_False by done. by apply Hheld.
    + rewrite slot_setSlot in H. case_decide; [done|].
      rewrite slot_setSlot, decide_False by done. by apply Hheld.
    + done.
Qed.

Lemma comparisonTimeout_sound (keyColumn : jsstring) (s : Session) :
  sound s → sound (comparisonTimeout keyColumn s).
Proof.
  intros Hs. pose proof Hs as (Hdata & Hnames & Hheld & Hres).
  unfold comparisonTimeout.
  destruct (file1 (fileData s)) as [data1|] eqn:E1; [|done].
  destruct (file2 (fileData s)) as [data2|] eqn:E2; [|done].
  destruct (performComparison data1 data2 keyColumn) as [r|] eqn:E; [|done].
  split; [|split; [|split]]; simpl; [exact Hdata|exact Hnames|exact Hheld|].
  intros result [= <-]. exists data1, data2, keyColumn.
  split; [apply (Hdata File1); done|].
  split; [apply (Hdata File2); done|done].
Qed.

Lemma step_sound (s : Session) (e : Event) : sound s → sound (step s e).
Proof.
  intros Hs. destruct e; simpl.
  - by apply handleFile_sound.
  - by apply reprocessFiles_sound, sound_select.
  - by apply comparisonTimeout_sound.
  - split; [|split; [|split]]; simpl;
      [by intros []|by intros []|by intros []|done].
Qed.

Lemma initialSession_sound (delimiter0 : jsstring) :
  sound (initialSession delimiter0).
Proof.
  split; [|split; [|split]]; simpl;
    [by intros []|by intros []|by intros []|done].
Qed.

Lemma parsed_shape (data : ParsedDataset) :
  parsed data →
  headers data ≠ [] ∧ rows data ≠ [] ∧ Forall trimmedRow (rows data).
Proof.
  intros (sel & content & name & _ & P).
  split; [|split].
  - apply parseFile_inr in P as (_ & _ & ->). apply trimmed_fields_cons.
  - by apply parseFile_inr in P as (_ & ? & ->).
  - by eapply parseFile_trimmed.
Qed.

Lemma reachable_sound (delimiter0 : jsstring) (events : list Event) :
  sound (fold_left step events (initialSession delimiter0)).
Proof.
  induction events as [|e events IH] using rev_ind.
  - apply initialSession_sound.
  - rewrite fold_left_app. by apply step_sound.
Qed.

(** X12.  Whatever files are chosen, whatever the delimiter select is set
    to, whenever a comparison runs and whenever everything is cleared:
    a dataset the session holds was returned by [parseFile] for a file
    with one of the four extensions, so it has a header, a row and trimmed
    values; the names the session keeps for reprocessing have one of the
    four extensions; and a comparison result the session holds was
    returned by [performComparison] for two such datasets. *)
Theorem session_holds_parsed (delimiter0 : jsstring) (events : list Event) :
  let s := fold_left step events (initialSession delimiter0) in
  (∀ fileNum data,
     slot fileNum (fileData s) = Some data →
     (∃ sel content name,
        isValidFile name = true ∧ parseFile sel content name = inr data) ∧
     headers data ≠ [] ∧ rows data ≠ [] ∧ Forall trimmedRow (rows data)) ∧
  (∀ fileNum name,
     slot fileNum (originalFileNames s) = Some name →
     isValidFile name = true) ∧
  (∀ result,
     comparisonResult s = Some result →
     ∃ data1 data2 keyColumn,
       (∃ sel content name,
          isValidFile name = true ∧ parseFile sel content name = inr data1) ∧
       (∃ sel content name,
          isValidFile name = true ∧ parseFile sel content name = inr data2) ∧
       Forall trimmedRow (rows data1) ∧ Forall trimmedRow (rows data2) ∧
       performComparison data1 data2 keyColumn = Some result).
Proof.
  intros s. destruct (reachable_sound delimiter0 events)
    as (Hdata & Hnames & _ & Hres). fold s in Hdata, Hnames, Hres.
  split; [|split].
  - intros fileNum data H. split; [by eapply Hdata|].
    by eapply parsed_shape, Hdata.
  - exact Hnames.
  - intros result (data1 & data2 & keyColumn & H1 & H2 & Hr)%Hres.
    exists data1, data2, keyColumn.
    split; [exact H1|]. split; [exact H2|].
    split; [by apply parsed_shape|]. split; [by apply parsed_shape|done].
Qed.

Lemma session_holds_parsed_witness :
  headers sampleParsed ≠ [] ∧ rows sampleParsed ≠ [] ∧
  Forall trimmedRow (rows sampleParsed).
Proof.
  destruct (session_holds_parsed (u "auto")
              [FileChosen File1 (Some (u "f.txt", sampleContent))])
    as (H & _ & _).
  destruct (H File1 sampleParsed) as (_ & H1);
    [vm_compute; reflexivity|exact H1].
Defined.

(** ** Changing the delimiter and changing it back *)

Lemma parseFile_content (sel content name : jsstring) (data : ParsedDataset) :
  parseFile sel content name = inr data → content ≠ [].
Proof.
  rewrite parseFile_outcome. cbv zeta. intros H ->.
  by rewrite decide_True in H.
Qed.

(** What [reprocessFiles] does to a session all of whose texts parse. *)
Lemma reprocessFiles_ok (s : Session) (target : Slots (option ParsedDataset)) :
  (∀ n,
     match slot n target with
     | Some data =>
         ∃ content name,
           slot n (originalFileContents s) = Some content ∧
           slot n (originalFileNames s) = Some name ∧
           name ≠ [] ∧
           parseFile (delimiterSelect s) content name = inr data
     | None =>
         slot n (fileData s) = None ∧
         truthy (slot n (originalFileContents s))
         && truthy (slot n (originalFileNames s)) = false
     end) →
  reprocessFiles s =
    {| fileData := target;
       originalFileContents := originalFileContents s;
       originalFileNames := originalFileNames s;
       comparisonResult := None;
       delimiterSelect := delimiterSelect s |}.
Proof.
  intros H.
  assert (∀ n s0,
            originalFileContents s0 = originalFileContents s →
            originalFileNames s0 = originalFileNames s →
            delimiterSelect s0 = delimiterSelect s →
            ∃ s1, reprocessFile n s0 = Some s1 ∧
                  originalFileContents s1 = originalFileContents s ∧
                  originalFileNames s1 = originalFileNames s ∧
                  delimiterSelect s1 = delimiterSelect s ∧
                  (∀ m, m ≠ n → slot m (fileData s1) = slot m (fileData s0)) ∧
                  (slot n (fileData s0) = slot n (fileData s) →
                   slot n (fileData s1) = slot n target)) as Hone.
  { intros n s0 Ec En Ed. specialize (H n). unfold reprocessFile.
    rewrite Ec, En, Ed.
    destruct (slot n target) as [data|].
    - destruct H as (content & name & -> & -> & Hname & P).
      pose proof (parseFile_content _ _ _ _ P) as Hcontent.
      destruct content as [|c content]; [done|].
      destruct name as [|c' name]; [done|]. simpl. simpl in P. rewrite P.
      eexists. split; [done|]. simpl. repeat split; try done.
      + intros m Hm. by rewrite slot_setSlot, decide_False.
      + intros _. by rewrite slot_setSlot, decide_True.
    - destruct H as [Hnone ->]. exists s0. repeat split; try done.
      intros ->. done. }
  unfold reprocessFiles.
  destruct (Hone File1 s) as (s1 & -> & Ec1 & En1 & Ed1 & Ho1 & Ht1);
    [done..|].
  destruct (Hone File2 s1) as (s2 & -> & Ec2 & En2 & Ed2 & Ho2 & Ht2);
    [done..|].
  rewrite Ec2, En2, Ed2. f_equal. apply slots_ext. intros [].
  - rewrite Ho2 by done. by apply Ht1.
  - apply Ht2. by apply Ho1.
Qed.

Lemma reprocessFiles_frame (s : Session) :
  originalFileContents (reprocessFiles s) = originalFileContents s ∧
  originalFileNames (reprocessFiles s) = originalFileNames s ∧
  delimiterSelect (reprocessFiles s) = delimiterSelect s ∧
  ∀ n,
    truthy (slot n (originalFileContents s))
    && truthy (slot n (originalFileNames s)) = false →
    slot n (fileData (reprocessFiles s)) = slot n (fileData s).
Proof.
  assert (∀ n m s0 s1,
            reprocessFile n s0 = Some s1 →
            truthy (slot m (originalFileContents s0))
            && truthy (slot m (originalFileNames s0)) = false →
            slot m (fileData s1) = slot m (fileData s0)) as Hskip.
  { intros n m s0 s1 H F. destruct (decide (m = n)) as [->|Hne].
    - unfold reprocessFile in H. rewrite F in H. by injection H as <-.
    - apply reprocessFile_frame in H as (_ & _ & _ & _ & Hother & _).
      by apply Hother. }
  unfold reprocessFiles.
  destruct (reprocessFile File1 s) as [s1|] eqn:E1; [|done].
  pose proof (reprocessFile_frame _ _ _ E1) as (Hc1 & Hn1 & Hd1 & _).
  destruct (reprocessFile File2 s1) as [s2|] eqn:E2.
  - pose proof (reprocessFile_frame _ _ _ E2) as (Hc2 & Hn2 & Hd2 & _).
    simpl. rewrite Hc2, Hn2, Hd2, Hc1, Hn1, Hd1. repeat split.
    intros n F. rewrite (Hskip _ _ _ _ E2) by by rewrite Hc1, Hn1.
    by apply (Hskip _ _ _ _ E1).
  - repeat split; try done. intros n F. by apply (Hskip _ _ _ _ E1).
Qed.

(** X13.  In a session whose datasets are the parses of the texts it keeps
    (and that keeps no text without a dataset), setting the delimiter
    select to any value and then back to what it was leaves the datasets,
    the texts and the names as they were, and no comparison result. *)
Theorem delimiter_round_trip (s : Session) (value : jsstring) :
  inStep s →
  let s' := changeDelimiter (delimiterSelect s) (changeDelimiter value s) in
  fileData s' = fileData s ∧
  originalFileContents s' = originalFileContents s ∧
  originalFileNames s' = originalFileNames s ∧
  delimiterSelect s' = delimiterSelect s ∧
  comparisonResult s' = None.
Proof.
  intros Hs. cbv zeta. set (s1 := changeDelimiter value s).
  assert (originalFileContents s1 = originalFileContents s ∧
          originalFileNames s1 = originalFileNames s ∧
          ∀ n, slot n (fileData s) = None → slot n (fileData s1) = None)
    as (Hc & Hn & Hnone).
  { unfold s1, changeDelimiter.
    match goal with |- context [reprocessFiles ?x] =>
      destruct (reprocessFiles_frame x) as (Ec & En & _ & Hskip) end.
    simpl in *. repeat split; try done.
    intros n E. specialize (Hs n). rewrite E in Hs.
    by rewrite Hskip. }
  clearbody s1. unfold changeDelimiter.
  rewrite (reprocessFiles_ok _ (fileData s)); simpl.
  - by rewrite Hc, Hn.
  - intros n. specialize (Hs n). rewrite Hc, Hn.
    destruct (slot n (fileData s)) as [data|] eqn:E; [done|].
    split; [by apply Hnone|done].
Qed.

Lemma delimiter_round_trip_witness :
  let s' :=
    changeDelimiter (delimiterSelect sampleSession)
      (changeDelimiter (u "semicolon") sampleSession) in
  fileData s' = fileData sampleSession ∧ comparisonResult s' = None.
Proof.
  destruct (delimiter_round_trip sampleSession (u "semicolon"))
    as (Hd & _ & _ & _ & Hr).
  - intros []; hnf.
    + exists sampleContent, (u "f.txt").
      split; [reflexivity|]. split; [reflexivity|].
      split; [vm_compute; discriminate|vm_compute; reflexivity].
    + reflexivity.
  - split; [exact Hd|exact Hr].
Defined.

(** A result can outlive the dataset it was computed from: when the text
    of the second file does not parse under the new delimiter,
    [reprocessFiles] has already replaced the first dataset and leaves the
    comparison result as it is. *)
Example result_outlives_dataset :
  let s0 := initialSession (u "auto") in
  let s1 :=
    handleFile File1 (Some (u "f.txt", u "a,b;c" ++ [LF] ++ u "1,2;3")) s0 in
  let s2 :=
    handleFile File2 (Some (u "g.txt", u "a,b;" ++ [LF] ++ u "1,2;")) s1 in
  let s3 := comparisonTimeout (u "a") s2 in
  let s4 := changeDelimiter (u "semicolon") s3 in
  headers <$> file1 (fileData s3) = Some [u "a"; u "b;c"] ∧
  headers <$> file1 (fileData s4) = Some [u "a,b"; u "c"] ∧
  file2 (fileData s4) = file2 (fileData s3) ∧
  comparisonResult s3 =
    performComparison
      {| headers := [u "a"; u "b;c"];
         rows := [row_of [("a", "1"); ("b;c", "2;3")]];
         delimiter := getDelimiterName COMMA |}
      {| headers := [u "a"; u "b;"];
         rows := [row_of [("a", "1"); ("b;", "2;")]];
         delimiter := getDelimiterName COMMA |}
      (u "a") ∧
  comparisonResult s3 ≠ None ∧
  comparisonResult s4 = comparisonResult s3.
Proof. by vm_compute. Qed.

(** When [performComparison] raises, the [catch] of [compareFiles] leaves
    the session as it was, with the result of the comparison before. *)
Example comparison_error_keeps_result :
  let s0 := initialSession (u "auto") in
  let s1 :=
    handleFile File1
      (Some (u "f.csv", u "id,constructor" ++ [LF] ++ u "1,x")) s0 in
  let s2 :=
    handleFile File2 (Some (u "g.csv", u "id,v" ++ [LF] ++ u "1,y")) s1 in
  let s3 := comparisonTimeout (u "v") s2 in
  let s4 := comparisonTimeout (u "id") s3 in
  file1 (fileData s2) = Some memberParsed1 ∧
  file2 (fileData s2) = Some memberParsed2 ∧
  comparisonResult s3 = performComparison memberParsed1 memberParsed2 (u "v") ∧
  comparisonResult s3 ≠ None ∧
  performComparison memberParsed1 memberParsed2 (u "id") = None ∧
  s4 = s3.
Proof. by vm_compute. Qed.

(** ** The columns of the export *)

Lemma collectStep_elem (acc : gset jsstring) (e : DiffEntry) (col : jsstring) :
  col ∈ collectStep acc e ↔
  col ∈ acc ∨ ∃ row, row ∈ entryRows e ∧ col ∈ dom row.
Proof.
  assert (∀ d : record,
            (∃ row, row ∈ [d] ∧ col ∈ dom row) ↔ col ∈ dom d) as H1.
  { intros d. split.
    - by intros (row & ->%list_elem_of_singleton & ?).
    - intros ?. exists d. split; [by left|done]. }
  assert (∀ d1 d2 : record,
            (∃ row, row ∈ [d1; d2] ∧ col ∈ dom row) ↔
            col ∈ dom d1 ∨ col ∈ dom d2) as H2.
  { intros d1 d2. split.
    - intros (row & Hr & ?).
      apply elem_of_cons in Hr as [->|Hr]; [by left|].
      apply list_elem_of_singleton in Hr as ->. by right.
    - intros [?|?]; [exists d1|exists d2]; (split; [|done]);
        [by left|by right; left]. }
  destruct e as [k d|k d|k d1 d2 ds|k d]; simpl; unfold addKeys;
    rewrite ?elem_of_union, ?H1, ?H2; tauto.
Qed.

Lemma collectColumns_elem (data : list DiffEntry) (col : jsstring) :
  col ∈ collectColumns data ↔
  ∃ e row, e ∈ data ∧ row ∈ entryRows e ∧ col ∈ dom row.
Proof.
  unfold collectColumns.
  induction data as [|e data IH] using rev_ind.
  - simpl. split; [set_solver|]. by intros (? & ? & ?%elem_of_nil & _).
  - rewrite fold_left_app. simpl. rewrite collectStep_elem, IH. split.
    + intros [(e' & row & ? & ? & ?)|(row & ? & ?)].
      * exists e', row. split; [apply elem_of_app; by left|done].
      * exists e, row. split; [apply elem_of_app; right; by left|done].
    + intros (e' & row & [?|He]%elem_of_app & ? & ?).
      * left. by exists e', row.
      * apply list_elem_of_singleton in He as ->. right. by exists row.
Qed.

Lemma entry_rows_source (file1 file2 : ParsedDataset) (keyColumn : jsstring)
    (e : DiffEntry) :
  e ∈ allEntries (Own.performComparison file1 file2 keyColumn) →
  match e with
  | Added _ d => d ∈ rows file2
  | Removed _ d | Unchanged _ d => d ∈ rows file1
  | Changed _ d1 d2 _ => d1 ∈ rows file1 ∧ d2 ∈ rows file2
  end.
Proof.
  unfold allEntries.
  destruct (performComparison_lists file1 file2 keyColumn)
    as (-> & -> & -> & ->).
  destruct (buildIndex_entries keyColumn (rows file1)) as (_ & E1 & _).
  destruct (buildIndex_entries keyColumn (rows file2)) as (_ & E2 & _).
  rewrite !elem_of_app, !list_elem_of_omap.
  intros [([k d] & Hin & H)|[([k d] & Hin & H)|[([k d] & Hin & H)
                                               |([k d] & Hin & H)]]].
  - apply addedEntry_Some in H as [_ ->]. by apply E2 in Hin as [? _].
  - apply removedEntry_Some in H as [_ ->]. by apply E1 in Hin as [? _].
  - apply changedEntry_Some in H as (row2 & Hg%Map_get_elem & _ & ->).
    simpl in *. split; [by apply E1 in Hin as [? _]|by apply E2 in Hg as [? _]].
  - apply unchangedEntry_Some in H as (row2 & _ & _ & ->).
    by apply E1 in Hin as [? _].
Qed.

Lemma parsed_row_column (sel content filename : jsstring)
    (file : ParsedDataset) (row : record) (col : jsstring) :
  parseFile sel content filename = inr file → row ∈ rows file →
  col ∈ dom row ↔ col ≠ PROTO ∧ col ∈ headers file.
Proof.
  intros P Hr. rewrite (parsed_row_dom _ _ _ _ _ P Hr).
  rewrite elem_of_difference, elem_of_list_to_set, not_elem_of_singleton.
  tauto.
Qed.

Lemma dataToExport_all (type : jsstring) (r : ComparisonResult)
    (e : DiffEntry) :
  e ∈ dataToExport type r → e ∈ allEntries r.
Proof.
  unfold dataToExport, allEntries. case_decide; [done|].
  rewrite !elem_of_app. tauto.
Qed.

(** X14.  For two datasets the parser returned and a result
    [performComparison] returned for them, the columns [exportCSV]
    collects are the headers of the first file when an entry other than an
    added one is exported, together with the headers of the second file
    when an added or a changed entry is exported, without a header
    [__proto__], which no row owns; nothing else is a column. *)
Theorem export_columns (sel1 content1 name1 sel2 content2 name2 : jsstring)
    (file1 file2 : ParsedDataset) (keyColumn type col : jsstring)
    (r : ComparisonResult) :
  parseFile sel1 content1 name1 = inr file1 →
  parseFile sel2 content2 name2 = inr file2 →
  performComparison file1 file2 keyColumn = Some r →
  let data := dataToExport type r in
  col ∈ collectColumns data ↔
    col ≠ PROTO ∧
    ((col ∈ headers file1 ∧ ∃ e, e ∈ data ∧ ¬ isAdded e) ∨
     (col ∈ headers file2 ∧ ∃ e, e ∈ data ∧ (isAdded e ∨ isChanged e))).
Proof.
  intros P1 P2 [_ ->]%performComparison_Some data.
  rewrite collectColumns_elem. split.
  - intros (e & row & He & Hr & Hc).
    pose proof (entry_rows_source _ _ _ _ (dataToExport_all _ _ _ He)) as Hs.
    destruct e as [k d|k d|k d1 d2 ds|k d]; simpl in Hr.
    + apply list_elem_of_singleton in Hr as ->.
      apply (parsed_row_column _ _ _ _ _ _ P2 Hs) in Hc as [Hp Hc].
      split; [done|]. right. split; [done|]. eexists. split; [done|by left].
    + apply list_elem_of_singleton in Hr as ->.
      apply (parsed_row_column _ _ _ _ _ _ P1 Hs) in Hc as [Hp Hc].
      split; [done|]. left. split; [done|].
      eexists. split; [done|by intros []].
    + destruct Hs as [Hs1 Hs2].
      apply elem_of_cons in Hr as [->|Hr].
      * apply (parsed_row_column _ _ _ _ _ _ P1 Hs1) in Hc as [Hp Hc].
        split; [done|]. left. split; [done|].
        eexists. split; [done|by intros []].
      * apply list_elem_of_singleton in Hr as ->.
        apply (parsed_row_column _ _ _ _ _ _ P2 Hs2) in Hc as [Hp Hc].
        split; [done|]. right. split; [done|].
        eexists. split; [done|by right].
    + apply list_elem_of_singleton in Hr as ->.
      apply (parsed_row_column _ _ _ _ _ _ P1 Hs) in Hc as [Hp Hc].
      split; [done|]. left. split; [done|].
      eexists. split; [done|by intros []].
  - intros [Hp [(Hc & e & He & Hk)|(Hc & e & He & Hk)]];
      pose proof (entry_rows_source _ _ _ _ (dataToExport_all _ _ _ He)) as Hs;
      destruct e as [k d|k d|k d1 d2 ds|k d]; simpl in Hk; try tauto.
    + exists (Removed k d), d. split; [done|]. split; [by left|].
      by apply (parsed_row_column _ _ _ _ _ _ P1 Hs).
    + destruct Hs as [Hs1 Hs2].
      exists (Changed k d1 d2 ds), d1. split; [done|]. split; [by left|].
      by apply (parsed_row_column _ _ _ _ _ _ P1 Hs1).
    + exists (Unchanged k d), d. split; [done|]. split; [by left|].
      by apply (parsed_row_column _ _ _ _ _ _ P1 Hs).
    + exists (Added k d), d. split; [done|]. split; [by left|].
      by apply (parsed_row_column _ _ _ _ _ _ P2 Hs).
    + destruct Hs as [Hs1 Hs2].
      exists (Changed k d1 d2 ds), d2. split; [done|].
      split; [by right; left|].
      by apply (parsed_row_column _ _ _ _ _ _ P2 Hs2).
Qed.

Lemma export_columns_witness :
  ∃ r,
    performComparison sample1 sample2 (u "id") = Some r ∧
    u "v" ∈ collectColumns (dataToExport (u "diff") r).
Proof.
  exists (Own.performComparison sample1 sample2 (u "id")).
  split; [vm_compute; reflexivity|].
  apply (export_columns (u "auto") (u "id,v" ++ [LF] ++ u "1,x") (u "f.csv")
           (u "auto") (u "id,v" ++ [LF] ++ u "1,y" ++ [LF] ++ u "2,z")
           (u "f.csv") sample1 sample2 (u "id") (u "diff") (u "v")).
  - vm_compute. reflexivity.
  - vm_compute. reflexivity.
  - vm_compute. reflexivity.
  - split; [vm_compute; discriminate|].
    right. split; [vm_compute; right; left|].
    exists (Added (u "2") (row_of [("id", "2"); ("v", "z")])).
    split; [vm_compute; left|by left].
Defined.

(** A header [__proto__] is no column of the export, and a header that
    names another member of [Object.prototype] is one. *)
Example export_columns_proto :
  let file1 :=
    {| headers := [u "id"; PROTO; u "constructor"];
       rows := [row_of [("id", "1"); ("constructor", "y")]];
       delimiter := getDelimiterName COMMA |} in
  let file2 :=
    {| headers := [u "id"; PROTO; u "constructor"];
       rows := [row_of [("id", "2"); ("constructor", "y")]];
       delimiter := getDelimiterName COMMA |} in
  parseFile (u "auto") (u "id,__proto__,constructor" ++ [LF] ++ u "1,x,y")
    (u "f.csv") = inr file1 ∧
  parseFile (u "auto") (u "id,__proto__,constructor" ++ [LF] ++ u "2,x,y")
    (u "g.csv") = inr file2 ∧
  collectColumns ∘ dataToExport (u "all")
    <$> performComparison file1 file2 (u "id")
  = Some {[ u "id"; u "constructor" ]}.
Proof. by vm_compute. Qed.
